(** * Structured block-mesh generation (cf3/mesh/BlockMesh/BlockData.cpp)

    A shallow embedding of the block-mesh generator of coolfluid3 and the
    properties its specification states about it:

    - [detail::create_mapped_coords]      edge grading,
    - [BlockArrays::Implementation]       blocks, node distribution, [to_local],
    - [detail::NodeIndices3D], [detail::NodeIndices2D]
                                          the global index oracles,
    - [partition_blocks_3d], [partition_blocks_2d]
                                          the block partitioner.

    Conventions of the embedding.

    - [Uint] (a 32 bit [unsigned int]) is a [Z] in [0, 2^32); every C++
      operation on it is followed by [wrap], its reduction modulo 2^32.
    - [Real] (a [double]) is an extended real number: a real, one of the two
      infinities or NaN, with the operations of IEEE 754 carried out exactly.
      Rounding and the sign of zero are not represented: a value stated here
      is the value of the program up to rounding, and an assertion that
      compares values with a tolerance is stated to pass only where rounding
      does not decide it.
    - A [std::vector] is a list read with stdpp's lookup; a read outside the
      vector, which is undefined behaviour in C++, ends the computation with
      the outcome [Undefined].
    - A thrown exception ends the computation with the outcome [Throws].
      [cf3_assert] throws [FailedAssertionException] when its condition is
      false (src/Common/AssertionManager.cxx, [DoAssertions] and
      [AssertionThrows] both default to true).
    - [CFaceConnectivity], the element type tables and the component tree are
      not part of the sources at hand: the adjacency of block faces is an
      input of the model ([FaceConnectivity]). *)

From Stdlib Require Import ZArith Lia Reals Lra List Bool.
From stdpp Require Import base option list gmap strings.

Open Scope Z_scope.

(** ** Unsigned 32 bit integers *)

Definition Uint_modulus : Z := 2 ^ 32.

Definition wrap (z : Z) : Z := z mod Uint_modulus.

Definition is_Uint (z : Z) : Prop := 0 <= z < Uint_modulus.

(** [(int) i] for a [Uint] [i]: two's complement reinterpretation. *)
Definition to_int (i : Z) : Z :=
  if i <? 2 ^ 31 then i else i - Uint_modulus.

(** The indices [0, 1, ..., n-1] of a loop [for(Uint i = 0; i != n; ++i)]. *)
Definition indices (n : Z) : list Z := seqZ 0 n.

(** ** Outcomes of a computation *)

(** The exceptions the generator throws. *)
Inductive Exception : Type :=
  | FailedAssertionException
  | ShouldNotBeHere
  | SetupError
  | BadValue.

Inductive Outcome (A : Type) : Type :=
  | Ok (a : A)
  | Throws (e : Exception)
  | Undefined
  | Diverges.

Arguments Ok {A} a.
Arguments Throws {A} e.
Arguments Undefined {A}.
Arguments Diverges {A}.

Abbreviation FailedAssertion := (Throws FailedAssertionException).

Definition outcome_bind {A B : Type} (f : A -> Outcome B) (m : Outcome A) : Outcome B :=
  match m with
  | Ok a => f a
  | Throws e => Throws e
  | Undefined => Undefined
  | Diverges => Diverges
  end.

#[global] Instance Outcome_ret : MRet Outcome := fun A a => Ok a.
#[global] Instance Outcome_bind : MBind Outcome := fun A B f m => outcome_bind f m.

(** [cf3_assert(c)] *)
Definition cf3_assert (c : bool) : Outcome unit :=
  if c then Ok tt else FailedAssertion.

(** [v[i]] on a vector: undefined outside of it. *)
Definition at_ {A : Type} (v : list A) (i : Z) : Outcome A :=
  if i <? 0 then Undefined
  else match v !! Z.to_nat i with
       | Some a => Ok a
       | None => Undefined
       end.

(** [v.back()] on a vector: undefined on an empty one. *)
Definition back {A : Type} (v : list A) : Outcome A :=
  at_ v (Z.of_nat (length v) - 1).

(** [cf3_assert(retval < block_first_nodes.back()); return retval;] *)
Definition below_back (block_first_nodes : list Z) (retval : Z) : Outcome Z :=
  last ← back block_first_nodes;
  _ ← cf3_assert (retval <? last);
  Ok retval.

(** [mapM]: run [f] over a list from left to right, stopping at the first
    outcome that is not [Ok]. *)
Fixpoint for_each {A B : Type} (f : A -> Outcome B) (l : list A) : Outcome (list B) :=
  match l with
  | [] => Ok []
  | a :: l' => b ← f a; bs ← for_each f l'; Ok (b :: bs)
  end.

(** ** Real numbers of the program *)

Inductive Real : Type :=
  | Fin (x : R)
  | PInf
  | NInf
  | NaN.

Definition Rltb (x y : R) : bool := if Rlt_dec x y then true else false.
Definition Reqb (x y : R) : bool := if Req_dec_T x y then true else false.

(** [x] is the value of an integer. *)
Definition is_integer (x : R) : bool := Reqb (IZR (Int_part x)) x.
(** [x] is the value of an odd integer. *)
Definition is_odd_integer (x : R) : bool :=
  is_integer x && Z.odd (Int_part x).

Definition Real_opp (a : Real) : Real :=
  match a with
  | Fin x => Fin (- x)
  | PInf => NInf
  | NInf => PInf
  | NaN => NaN
  end.

Definition Real_add (a b : Real) : Real :=
  match a, b with
  | NaN, _ | _, NaN => NaN
  | Fin x, Fin y => Fin (x + y)
  | PInf, NInf | NInf, PInf => NaN
  | PInf, _ | _, PInf => PInf
  | NInf, _ | _, NInf => NInf
  end.

Definition Real_sub (a b : Real) : Real := Real_add a (Real_opp b).

(** The infinity whose sign is that of [x] ([x] is not zero). *)
Definition inf_of_sign (x : R) : Real := if Rltb x 0 then NInf else PInf.

Definition Real_mul (a b : Real) : Real :=
  match a, b with
  | NaN, _ | _, NaN => NaN
  | Fin x, Fin y => Fin (x * y)
  | Fin x, PInf | PInf, Fin x => if Reqb x 0 then NaN else inf_of_sign x
  | Fin x, NInf | NInf, Fin x => if Reqb x 0 then NaN else inf_of_sign (- x)
  | PInf, PInf | NInf, NInf => PInf
  | PInf, NInf | NInf, PInf => NInf
  end.

Definition Real_div (a b : Real) : Real :=
  match a, b with
  | NaN, _ | _, NaN => NaN
  | Fin x, Fin y =>
      if Reqb y 0 then (if Reqb x 0 then NaN else inf_of_sign x)
      else Fin (x / y)
  | Fin _, PInf | Fin _, NInf => Fin 0
  | PInf, Fin y => inf_of_sign (if Reqb y 0 then 1 else y)
  | NInf, Fin y => inf_of_sign (if Reqb y 0 then -1 else - y)
  | PInf, PInf | PInf, NInf | NInf, PInf | NInf, NInf => NaN
  end.

Definition Real_fabs (a : Real) : Real :=
  match a with
  | Fin x => Fin (Rabs x)
  | PInf | NInf => PInf
  | NaN => NaN
  end.

(** [a < b]; false as soon as one side is NaN. *)
Definition Real_lt (a b : Real) : bool :=
  match a, b with
  | NaN, _ | _, NaN => false
  | Fin x, Fin y => Rltb x y
  | NInf, NInf | PInf, _ => false
  | NInf, _ => true
  | Fin _, PInf => true
  | Fin _, NInf => false
  end.

Definition Real_gt (a b : Real) : bool := Real_lt b a.

(** [pow(x, y)] of the C library (C99 F.9.4.4), for finite [x] and [y]. *)
Definition pow_finite (x y : R) : Real :=
  if Rltb 0 x then Fin (Rpower x y)
  else if Reqb x 0 then (if Rltb 0 y then Fin 0 else PInf)
  else if is_integer y then
    Fin ((if Z.odd (Int_part y) then -1 else 1) * Rpower (- x) y)
  else NaN.

Definition Real_pow (a b : Real) : Real :=
  match a, b with
  | _, Fin y =>
      if Reqb y 0 then Fin 1
      else match a with
           | Fin x => if Reqb x 1 then Fin 1 else pow_finite x y
           | PInf => if Rltb y 0 then Fin 0 else PInf
           | NInf => if Rltb y 0 then Fin 0
                     else if is_odd_integer y then NInf else PInf
           | NaN => NaN
           end
  | Fin x, PInf =>
      if Reqb (Rabs x) 1 then Fin 1
      else if Rltb (Rabs x) 1 then Fin 0 else PInf
  | Fin x, NInf =>
      if Reqb (Rabs x) 1 then Fin 1
      else if Rltb (Rabs x) 1 then PInf else Fin 0
  | Fin x, NaN => if Reqb x 1 then Fin 1 else NaN
  | PInf, PInf | NInf, PInf => PInf
  | PInf, NInf | NInf, NInf => Fin 0
  | PInf, NaN | NInf, NaN => NaN
  | NaN, _ => NaN
  end.

(** [static_cast<Real>(n)] for an integer [n]. *)
Definition Real_of_Z (n : Z) : Real := Fin (IZR n).

Declare Scope Real_scope.
Delimit Scope Real_scope with Real.
Bind Scope Real_scope with Real.
Infix "+" := Real_add : Real_scope.
Infix "-" := Real_sub : Real_scope.
Infix "*" := Real_mul : Real_scope.
Infix "/" := Real_div : Real_scope.

(** [std::numeric_limits<double>::epsilon()] *)
Definition Real_epsilon : R := (/ 2 ^ 52)%R.

(** ** Edge grading: [detail::create_mapped_coords] *)

(** [eps = 150*std::numeric_limits<Real>::epsilon()] *)
Definition eps : Real := Fin (150 * Real_epsilon).

(** The value stored in [mapped_coords[i][edge]] for the grading of [edge]. *)
Definition mapped_coord (segments : Z) (grading : Real) (i : Z) : Real :=
  if Real_gt (Real_fabs (grading - Fin 1)) (Fin (/ 10 ^ 6)) then
    let r := Real_pow grading (Fin 1 / Real_of_Z (wrap (segments - 1))) in
    (Fin 2 * (Fin 1 - Real_pow r (Real_of_Z (to_int i))) / (Fin 1 - grading * r) - Fin 1)%Real
  else
    let step := (Fin 2 / Real_of_Z segments)%Real in
    (Real_of_Z i * step - Fin 1)%Real.

(** The body of the loop over the edges: the column of one edge, with the
    assertions of the source in their order. *)
Definition edge_coords (segments : Z) (grading : Real) : Outcome (list Real) :=
  if wrap (segments + 1) =? 0 then Undefined else
  column ← for_each
    (fun i =>
       let result := mapped_coord segments grading i in
       _ ← cf3_assert (Real_lt (Real_fabs result) (Fin 1 + eps));
       Ok result)
    (indices (segments + 1));
  start ← at_ column 0;
  _ ← cf3_assert (Real_lt (Real_fabs (start + Fin 1)) eps);
  end_ ← at_ column segments;
  _ ← cf3_assert (Real_lt (Real_fabs (end_ - Fin 1)) eps);
  Ok column.

(** [create_mapped_coords(segments, gradings, mapped_coords, nb_edges)]:
    [gradings] is the array the pointer argument points into; the result is
    [mapped_coords], kept edge by edge. *)
Definition create_mapped_coords (segments : Z) (gradings : list Real) (nb_edges : Z)
  : Outcome (list (list Real)) :=
  for_each (fun edge => grading ← at_ gradings edge; edge_coords segments grading)
           (indices nb_edges).

(** [mapped_coords[i][edge]] *)
Definition mapped_at (mapped_coords : list (list Real)) (i edge : Z) : Outcome Real :=
  column ← at_ mapped_coords edge; at_ column i.

(** ** Block data and face connectivity *)

Definition XX : Z := 0.
Definition YY : Z := 1.
Definition ZZ : Z := 2.

Definition DIM_1D : Z := 1.
Definition DIM_2D : Z := 2.
Definition DIM_3D : Z := 3.

(** The fields of [BlockData] (as [BlockData::copy_to] lists them). *)
Record BlockData : Type := {
  scaling_factor : Real;
  dimension : Z;
  points : list (list Real);
  block_points : list (list Z);
  block_subdivisions : list (list Z);
  block_gradings : list (list Real);
  block_distribution : list Z;
  patch_names : list string;
  patch_types : list string;
  patch_points : list (list Z)
}.

(** What the generator reads of a [CFaceConnectivity::ElementReferenceT]:
    [first->element_type().dimensionality()], [first->parent()->name()] and
    [second]. *)
Record ElementReference : Type := {
  dimensionality : Z;
  parent_name : string;
  element_index : Z
}.

(** The two queries of [CFaceConnectivity]; the class itself is outside of
    the sources at hand, so a connectivity is an input of the model. *)
Record FaceConnectivity : Type := {
  adjacent_element : Z -> Z -> ElementReference;
  has_adjacent_element : Z -> Z -> bool
}.

(** Modelled from the spec: the face numbering of a hexahedron
    ([LagrangeP1::Hexa], declared outside of these sources), in the canonical
    face order -zeta, -eta, +xi, +eta, -xi, +zeta of the block adjacency. *)
Module Hexa.
Definition ZTA_NEG : Z := 0.
Definition ETA_NEG : Z := 1.
Definition KSI_POS : Z := 2.
Definition ETA_POS : Z := 3.
Definition KSI_NEG : Z := 4.
Definition ZTA_POS : Z := 5.
End Hexa.

(** The face numbering of a quadrilateral, as the source spells it out. *)
Module Quad.
Definition YNEG : Z := 0.
Definition XPOS : Z := 1.
Definition YPOS : Z := 2.
Definition XNEG : Z := 3.
End Quad.

(** [v.push_back(v.back() + n)] repeated over a list of increments. *)
Fixpoint accumulate (last : Z) (increments : list Z) : list Z :=
  match increments with
  | [] => []
  | n :: increments' =>
      let next := wrap (last + n) in next :: accumulate next increments'
  end.

(** The allocation of a local index for a global one, the body shared word
    for word by [BlockArrays::Implementation::to_local],
    [NodeIndices3D::operator()] and [NodeIndices2D::operator()]:
    the local index, the new ghost counter and the new ghost map. *)
Definition local_index (local_nodes_begin local_nodes_end : Z)
    (ghost_counter : Z) (global_to_local : gmap Z Z) (gid : Z)
  : Z * Z * gmap Z Z :=
  if (local_nodes_begin <=? gid) && (gid <? local_nodes_end) then
    (wrap (gid - local_nodes_begin), ghost_counter, global_to_local)
  else
    let lid := wrap (wrap (local_nodes_end - local_nodes_begin) + ghost_counter) in
    match global_to_local !! gid with
    | Some stored => (stored, ghost_counter, global_to_local)
    | None => (lid, wrap (ghost_counter + 1), <[gid := lid]> global_to_local)
    end.

(** ** The global index oracle in three dimensions *)

Module NodeIndices3D.

Definition XY : Z := 3.
Definition XZ : Z := 4.
Definition YZ : Z := 5.
Definition XYZ : Z := 6.

Record t : Type := {
  block_first_nodes : list Z;
  nodes_dist : list Z;
  bounded : list (list bool);
  global_to_local : gmap Z Z;
  ghost_counter : Z;
  m_face_connectivity : FaceConnectivity;
  m_block_data : BlockData;
  m_rank : Z;
  m_nb_procs : Z;
  m_local_nodes_begin : Z;
  m_local_nodes_end : Z
}.

(** The row [bounded[block]] the constructor fills in. *)
Definition bounded_row (fc : FaceConnectivity) (block : Z) : list bool :=
  let bx := dimensionality (adjacent_element fc block Hexa.KSI_POS) =? DIM_2D in
  let by_ := dimensionality (adjacent_element fc block Hexa.ETA_POS) =? DIM_2D in
  let bz := dimensionality (adjacent_element fc block Hexa.ZTA_POS) =? DIM_2D in
  [bx; by_; bz; bx && by_; bx && bz; by_ && bz; bx && by_ && bz].

(** [nb_nodes] of one block in the constructor. *)
Definition block_nb_nodes (row : list bool) (segments : list Z) : Outcome Z :=
  x_segs ← at_ segments XX;
  y_segs ← at_ segments YY;
  z_segs ← at_ segments ZZ;
  bx ← at_ row XX; by_ ← at_ row YY; bz ← at_ row ZZ;
  bxy ← at_ row XY; bxz ← at_ row XZ; byz ← at_ row YZ; bxyz ← at_ row XYZ;
  Ok (wrap (x_segs * y_segs * z_segs
            + Z.b2z bx * y_segs * z_segs
            + Z.b2z by_ * x_segs * z_segs
            + Z.b2z bz * x_segs * y_segs
            + Z.b2z bxy * z_segs
            + Z.b2z bxz * y_segs
            + Z.b2z byz * x_segs
            + Z.b2z bxyz)).

(** The loop that fills [nodes_dist] after its first entry 0. *)
Fixpoint nodes_distribution (first_nodes block_distribution : list Z)
    (last : Z) (procs : list Z) : Outcome (list Z) :=
  match procs with
  | [] => Ok []
  | proc :: procs' =>
      hi ← at_ block_distribution (proc + 1);
      lo ← at_ block_distribution proc;
      first_hi ← at_ first_nodes hi;
      first_lo ← at_ first_nodes lo;
      let next := wrap (last + first_hi - first_lo) in
      rest ← nodes_distribution first_nodes block_distribution next procs';
      Ok (next :: rest)
  end.

(** The constructor [NodeIndices3D(face_connectivity, block_data, rank, nb_procs)]. *)
Definition make (fc : FaceConnectivity) (block_data : BlockData) (rank nb_procs : Z)
  : Outcome t :=
  let nb_blocks := Z.of_nat (length (block_subdivisions block_data)) in
  let rows := map (bounded_row fc) (indices nb_blocks) in
  counts ← for_each (fun block =>
              segments ← at_ (block_subdivisions block_data) block;
              row ← at_ rows block;
              block_nb_nodes row segments)
            (indices nb_blocks);
  let first_nodes := 0 :: accumulate 0 counts in
  dist ← nodes_distribution first_nodes (block_distribution block_data) 0 (indices nb_procs);
  let nodes_dist := 0 :: dist in
  local_begin ← at_ nodes_dist rank;
  local_end ← at_ nodes_dist (rank + 1);
  Ok {| block_first_nodes := first_nodes;
        nodes_dist := nodes_dist;
        bounded := rows;
        global_to_local := ∅;
        ghost_counter := 0;
        m_face_connectivity := fc;
        m_block_data := block_data;
        m_rank := rank;
        m_nb_procs := nb_procs;
        m_local_nodes_begin := local_begin;
        m_local_nodes_end := local_end |}.

(** [global_idx(block, i, j, k)], with its assertions. The source recurses
    through the neighbours of corner and edge nodes; [depth] bounds the
    number of nested calls and the outcome is [Diverges] when it is used up. *)
Fixpoint global_idx (depth : nat) (n : t) (block i j k : Z) : Outcome Z :=
  match depth with
  | O => Diverges
  | S depth' =>
    let subdivisions := block_subdivisions (m_block_data n) in
    let fc := m_face_connectivity n in
    _ ← cf3_assert (block <? Z.of_nat (length subdivisions));
    segments ← at_ subdivisions block;
    x_segs ← at_ segments XX;
    y_segs ← at_ segments YY;
    z_segs ← at_ segments ZZ;
    _ ← cf3_assert (i <=? x_segs);
    _ ← cf3_assert (j <=? y_segs);
    _ ← cf3_assert (k <=? z_segs);
    let nb_internal_nodes := x_segs * y_segs * z_segs in
    first ← at_ (block_first_nodes n) block;
    row ← at_ (bounded n) block;
    bx ← at_ row XX; by_ ← at_ row YY; bz ← at_ row ZZ;
    bxy ← at_ row XY; bxz ← at_ row XZ; byz ← at_ row YZ; bxyz ← at_ row XYZ;
    let x_adj := element_index (adjacent_element fc block Hexa.KSI_POS) in
    let y_adj := element_index (adjacent_element fc block Hexa.ETA_POS) in
    let z_adj := element_index (adjacent_element fc block Hexa.ZTA_POS) in
    let X := i =? x_segs in
    let Y := j =? y_segs in
    let Z_ := k =? z_segs in
    match X, Y, Z_ with
    | false, false, false =>
        below_back (block_first_nodes n)
          (wrap (first + i + j * x_segs + k * x_segs * y_segs))
    | true, false, false =>
        if negb bx then
          adj_segs ← at_ subdivisions x_adj;
          ax ← at_ adj_segs XX; ay ← at_ adj_segs YY;
          adj_first ← at_ (block_first_nodes n) x_adj;
          below_back (block_first_nodes n)
            (wrap (adj_first + j * ax + k * ax * ay))
        else
          below_back (block_first_nodes n)
            (wrap (first + nb_internal_nodes + j + k * y_segs))
    | false, true, false =>
        if negb by_ then
          adj_segs ← at_ subdivisions y_adj;
          ax ← at_ adj_segs XX; ay ← at_ adj_segs YY;
          adj_first ← at_ (block_first_nodes n) y_adj;
          below_back (block_first_nodes n)
            (wrap (adj_first + i + k * ax * ay))
        else
          below_back (block_first_nodes n)
            (wrap (first + nb_internal_nodes + Z.b2z bx * y_segs * z_segs
                   + i + k * x_segs))
    | false, false, true =>
        if negb bz then
          adj_segs ← at_ subdivisions z_adj;
          ax ← at_ adj_segs XX;
          adj_first ← at_ (block_first_nodes n) z_adj;
          below_back (block_first_nodes n)
            (wrap (adj_first + i + j * ax))
        else
          below_back (block_first_nodes n)
            (wrap (first + nb_internal_nodes + Z.b2z bx * y_segs * z_segs
                   + Z.b2z by_ * x_segs * z_segs + i + j * x_segs))
    | true, true, false =>
        if negb bxy then
          if negb bx then
            (retval ← global_idx depth' n x_adj 0 j k;
             below_back (block_first_nodes n) retval)
          else
            (retval ← global_idx depth' n y_adj i 0 k;
             below_back (block_first_nodes n) retval)
        else
          below_back (block_first_nodes n)
            (wrap (first + nb_internal_nodes
                   + Z.b2z bx * y_segs * z_segs
                   + Z.b2z by_ * x_segs * z_segs
                   + Z.b2z bz * x_segs * y_segs
                   + k))
    | true, false, true =>
        if negb bxz then
          if negb bx then
            (retval ← global_idx depth' n x_adj 0 j k;
             below_back (block_first_nodes n) retval)
          else
            (retval ← global_idx depth' n z_adj i j 0;
             below_back (block_first_nodes n) retval)
        else
          below_back (block_first_nodes n)
            (wrap (first + nb_internal_nodes
                   + Z.b2z bx * y_segs * z_segs
                   + Z.b2z by_ * x_segs * z_segs
                   + Z.b2z bz * x_segs * y_segs
                   + Z.b2z bxy * z_segs
                   + j))
    | false, true, true =>
        if negb byz then
          if negb by_ then
            (retval ← global_idx depth' n y_adj i 0 k;
             below_back (block_first_nodes n) retval)
          else
            (retval ← global_idx depth' n z_adj i j 0;
             below_back (block_first_nodes n) retval)
        else
          below_back (block_first_nodes n)
            (wrap (first + nb_internal_nodes
                   + Z.b2z bx * y_segs * z_segs
                   + Z.b2z by_ * x_segs * z_segs
                   + Z.b2z bz * x_segs * y_segs
                   + Z.b2z bxy * z_segs
                   + Z.b2z bxz * y_segs
                   + i))
    | true, true, true =>
        if negb bxyz then
          if negb bx then
            (retval ← global_idx depth' n x_adj 0 j k;
             below_back (block_first_nodes n) retval)
          else if negb by_ then
            (retval ← global_idx depth' n y_adj i 0 k;
             below_back (block_first_nodes n) retval)
          else if negb bz then
            (retval ← global_idx depth' n z_adj i j 0;
             below_back (block_first_nodes n) retval)
          else Throws ShouldNotBeHere
        else
          below_back (block_first_nodes n)
            (wrap (first + nb_internal_nodes
                   + Z.b2z bx * y_segs * z_segs
                   + Z.b2z by_ * x_segs * z_segs
                   + Z.b2z bz * x_segs * y_segs
                   + Z.b2z bxy * z_segs
                   + Z.b2z bxz * y_segs
                   + Z.b2z byz * x_segs))
    end
  end.

(** The index [global_idx] arrives at, its assertions left aside. The
    proofs follow the lookups on it first and discharge the assertions
    afterwards; no statement of a property is about it. *)
Fixpoint unchecked_idx (depth : nat) (n : t) (block i j k : Z) : Outcome Z :=
  match depth with
  | O => Diverges
  | S depth' =>
    let subdivisions := block_subdivisions (m_block_data n) in
    let fc := m_face_connectivity n in
    segments ← at_ subdivisions block;
    x_segs ← at_ segments XX;
    y_segs ← at_ segments YY;
    z_segs ← at_ segments ZZ;
    let nb_internal_nodes := x_segs * y_segs * z_segs in
    first ← at_ (block_first_nodes n) block;
    row ← at_ (bounded n) block;
    bx ← at_ row XX; by_ ← at_ row YY; bz ← at_ row ZZ;
    bxy ← at_ row XY; bxz ← at_ row XZ; byz ← at_ row YZ; bxyz ← at_ row XYZ;
    let x_adj := element_index (adjacent_element fc block Hexa.KSI_POS) in
    let y_adj := element_index (adjacent_element fc block Hexa.ETA_POS) in
    let z_adj := element_index (adjacent_element fc block Hexa.ZTA_POS) in
    let X := i =? x_segs in
    let Y := j =? y_segs in
    let Z_ := k =? z_segs in
    match X, Y, Z_ with
    | false, false, false =>
        Ok (wrap (first + i + j * x_segs + k * x_segs * y_segs))
    | true, false, false =>
        if negb bx then
          adj_segs ← at_ subdivisions x_adj;
          ax ← at_ adj_segs XX; ay ← at_ adj_segs YY;
          adj_first ← at_ (block_first_nodes n) x_adj;
          Ok (wrap (adj_first + j * ax + k * ax * ay))
        else Ok (wrap (first + nb_internal_nodes + j + k * y_segs))
    | false, true, false =>
        if negb by_ then
          adj_segs ← at_ subdivisions y_adj;
          ax ← at_ adj_segs XX; ay ← at_ adj_segs YY;
          adj_first ← at_ (block_first_nodes n) y_adj;
          Ok (wrap (adj_first + i + k * ax * ay))
        else Ok (wrap (first + nb_internal_nodes + Z.b2z bx * y_segs * z_segs
                       + i + k * x_segs))
    | false, false, true =>
        if negb bz then
          adj_segs ← at_ subdivisions z_adj;
          ax ← at_ adj_segs XX;
          adj_first ← at_ (block_first_nodes n) z_adj;
          Ok (wrap (adj_first + i + j * ax))
        else Ok (wrap (first + nb_internal_nodes + Z.b2z bx * y_segs * z_segs
                       + Z.b2z by_ * x_segs * z_segs + i + j * x_segs))
    | true, true, false =>
        if negb bxy then
          if negb bx then unchecked_idx depth' n x_adj 0 j k
          else unchecked_idx depth' n y_adj i 0 k
        else Ok (wrap (first + nb_internal_nodes
                       + Z.b2z bx * y_segs * z_segs
                       + Z.b2z by_ * x_segs * z_segs
                       + Z.b2z bz * x_segs * y_segs
                       + k))
    | true, false, true =>
        if negb bxz then
          if negb bx then unchecked_idx depth' n x_adj 0 j k
          else unchecked_idx depth' n z_adj i j 0
        else Ok (wrap (first + nb_internal_nodes
                       + Z.b2z bx * y_segs * z_segs
                       + Z.b2z by_ * x_segs * z_segs
                       + Z.b2z bz * x_segs * y_segs
                       + Z.b2z bxy * z_segs
                       + j))
    | false, true, true =>
        if negb byz then
          if negb by_ then unchecked_idx depth' n y_adj i 0 k
          else unchecked_idx depth' n z_adj i j 0
        else Ok (wrap (first + nb_internal_nodes
                       + Z.b2z bx * y_segs * z_segs
                       + Z.b2z by_ * x_segs * z_segs
                       + Z.b2z bz * x_segs * y_segs
                       + Z.b2z bxy * z_segs
                       + Z.b2z bxz * y_segs
                       + i))
    | true, true, true =>
        if negb bxyz then
          if negb bx then unchecked_idx depth' n x_adj 0 j k
          else if negb by_ then unchecked_idx depth' n y_adj i 0 k
          else if negb bz then unchecked_idx depth' n z_adj i j 0
          else Throws ShouldNotBeHere
        else Ok (wrap (first + nb_internal_nodes
                       + Z.b2z bx * y_segs * z_segs
                       + Z.b2z by_ * x_segs * z_segs
                       + Z.b2z bz * x_segs * y_segs
                       + Z.b2z bxy * z_segs
                       + Z.b2z bxz * y_segs
                       + Z.b2z byz * x_segs))
    end
  end.

(** [operator()(block, i, j, k)]: the local index, and the oracle with its
    ghost map and ghost counter updated. *)
Definition call (depth : nat) (n : t) (block i j k : Z) : Outcome (Z * t) :=
  gid ← global_idx depth n block i j k;
  let '(lid, counter, ghosts) :=
    local_index (m_local_nodes_begin n) (m_local_nodes_end n)
                (ghost_counter n) (global_to_local n) gid in
  Ok (lid, {| block_first_nodes := block_first_nodes n;
              nodes_dist := nodes_dist n;
              bounded := bounded n;
              global_to_local := ghosts;
              ghost_counter := counter;
              m_face_connectivity := m_face_connectivity n;
              m_block_data := m_block_data n;
              m_rank := m_rank n;
              m_nb_procs := m_nb_procs n;
              m_local_nodes_begin := m_local_nodes_begin n;
              m_local_nodes_end := m_local_nodes_end n |}).

End NodeIndices3D.

(** ** The global index oracle in two dimensions *)

Module NodeIndices2D.

Definition XY : Z := 2.

Record t : Type := {
  block_first_nodes : list Z;
  nodes_dist : list Z;
  bounded : list (list bool);
  global_to_local : gmap Z Z;
  ghost_counter : Z;
  m_face_connectivity : FaceConnectivity;
  m_block_data : BlockData;
  m_rank : Z;
  m_nb_procs : Z;
  m_local_nodes_begin : Z;
  m_local_nodes_end : Z
}.

Definition bounded_row (fc : FaceConnectivity) (block : Z) : list bool :=
  let bx := dimensionality (adjacent_element fc block Quad.XPOS) =? DIM_1D in
  let by_ := dimensionality (adjacent_element fc block Quad.YPOS) =? DIM_1D in
  [bx; by_; bx && by_].

Definition block_nb_nodes (row : list bool) (segments : list Z) : Outcome Z :=
  x_segs ← at_ segments XX;
  y_segs ← at_ segments YY;
  bx ← at_ row XX; by_ ← at_ row YY; bxy ← at_ row XY;
  Ok (wrap (x_segs * y_segs
            + Z.b2z bx * y_segs
            + Z.b2z by_ * x_segs
            + Z.b2z bxy)).

(** The constructor [NodeIndices2D(face_connectivity, block_data, rank, nb_procs)];
    the loop over the processes is the one of [NodeIndices3D]. *)
Definition make (fc : FaceConnectivity) (block_data : BlockData) (rank nb_procs : Z)
  : Outcome t :=
  let nb_blocks := Z.of_nat (length (block_subdivisions block_data)) in
  let rows := map (bounded_row fc) (indices nb_blocks) in
  counts ← for_each (fun block =>
              segments ← at_ (block_subdivisions block_data) block;
              row ← at_ rows block;
              block_nb_nodes row segments)
            (indices nb_blocks);
  let first_nodes := 0 :: accumulate 0 counts in
  dist ← NodeIndices3D.nodes_distribution
            first_nodes (block_distribution block_data) 0 (indices nb_procs);
  let nodes_dist := 0 :: dist in
  local_begin ← at_ nodes_dist rank;
  local_end ← at_ nodes_dist (rank + 1);
  Ok {| block_first_nodes := first_nodes;
        nodes_dist := nodes_dist;
        bounded := rows;
        global_to_local := ∅;
        ghost_counter := 0;
        m_face_connectivity := fc;
        m_block_data := block_data;
        m_rank := rank;
        m_nb_procs := nb_procs;
        m_local_nodes_begin := local_begin;
        m_local_nodes_end := local_end |}.

(** [global_idx(block, i, j)], with its assertions. *)
Fixpoint global_idx (depth : nat) (n : t) (block i j : Z) : Outcome Z :=
  match depth with
  | O => Diverges
  | S depth' =>
    let subdivisions := block_subdivisions (m_block_data n) in
    let fc := m_face_connectivity n in
    _ ← cf3_assert (block <? Z.of_nat (length subdivisions));
    segments ← at_ subdivisions block;
    x_segs ← at_ segments XX;
    y_segs ← at_ segments YY;
    _ ← cf3_assert (i <=? x_segs);
    _ ← cf3_assert (j <=? y_segs);
    let nb_internal_nodes := x_segs * y_segs in
    first ← at_ (block_first_nodes n) block;
    row ← at_ (bounded n) block;
    bx ← at_ row XX; by_ ← at_ row YY; bxy ← at_ row XY;
    let x_adj := element_index (adjacent_element fc block Quad.XPOS) in
    let y_adj := element_index (adjacent_element fc block Quad.YPOS) in
    match i =? x_segs, j =? y_segs with
    | false, false => below_back (block_first_nodes n) (wrap (first + i + j * x_segs))
    | true, false =>
        if negb bx then
          adj_segs ← at_ subdivisions x_adj;
          ax ← at_ adj_segs XX;
          adj_first ← at_ (block_first_nodes n) x_adj;
          below_back (block_first_nodes n)
            (wrap (adj_first + j * ax))
        else
          below_back (block_first_nodes n)
            (wrap (first + nb_internal_nodes + j))
    | false, true =>
        if negb by_ then
          _ ← at_ subdivisions y_adj;
          adj_first ← at_ (block_first_nodes n) y_adj;
          below_back (block_first_nodes n)
            (wrap (adj_first + i))
        else
          below_back (block_first_nodes n)
            (wrap (first + nb_internal_nodes + Z.b2z bx * y_segs + i))
    | true, true =>
        if negb bxy then
          if negb bx then
            (retval ← global_idx depth' n x_adj 0 j;
             below_back (block_first_nodes n) retval)
          else if negb by_ then
            (retval ← global_idx depth' n y_adj i 0;
             below_back (block_first_nodes n) retval)
          else Throws ShouldNotBeHere
        else
          below_back (block_first_nodes n)
            (wrap (first + nb_internal_nodes
                   + Z.b2z bx * y_segs
                   + Z.b2z by_ * x_segs))
    end
  end.

(** The index [global_idx] arrives at, its assertions left aside (see
    [NodeIndices3D.unchecked_idx]). *)
Fixpoint unchecked_idx (depth : nat) (n : t) (block i j : Z) : Outcome Z :=
  match depth with
  | O => Diverges
  | S depth' =>
    let subdivisions := block_subdivisions (m_block_data n) in
    let fc := m_face_connectivity n in
    segments ← at_ subdivisions block;
    x_segs ← at_ segments XX;
    y_segs ← at_ segments YY;
    let nb_internal_nodes := x_segs * y_segs in
    first ← at_ (block_first_nodes n) block;
    row ← at_ (bounded n) block;
    bx ← at_ row XX; by_ ← at_ row YY; bxy ← at_ row XY;
    let x_adj := element_index (adjacent_element fc block Quad.XPOS) in
    let y_adj := element_index (adjacent_element fc block Quad.YPOS) in
    match i =? x_segs, j =? y_segs with
    | false, false => Ok (wrap (first + i + j * x_segs))
    | true, false =>
        if negb bx then
          adj_segs ← at_ subdivisions x_adj;
          ax ← at_ adj_segs XX;
          adj_first ← at_ (block_first_nodes n) x_adj;
          Ok (wrap (adj_first + j * ax))
        else Ok (wrap (first + nb_internal_nodes + j))
    | false, true =>
        if negb by_ then
          _ ← at_ subdivisions y_adj;
          adj_first ← at_ (block_first_nodes n) y_adj;
          Ok (wrap (adj_first + i))
        else Ok (wrap (first + nb_internal_nodes + Z.b2z bx * y_segs + i))
    | true, true =>
        if negb bxy then
          if negb bx then unchecked_idx depth' n x_adj 0 j
          else if negb by_ then unchecked_idx depth' n y_adj i 0
          else Throws ShouldNotBeHere
        else Ok (wrap (first + nb_internal_nodes
                       + Z.b2z bx * y_segs
                       + Z.b2z by_ * x_segs))
    end
  end.

(** [operator()(block, i, j)] *)
Definition call (depth : nat) (n : t) (block i j : Z) : Outcome (Z * t) :=
  gid ← global_idx depth n block i j;
  let '(lid, counter, ghosts) :=
    local_index (m_local_nodes_begin n) (m_local_nodes_end n)
                (ghost_counter n) (global_to_local n) gid in
  Ok (lid, {| block_first_nodes := block_first_nodes n;
              nodes_dist := nodes_dist n;
              bounded := bounded n;
              global_to_local := ghosts;
              ghost_counter := counter;
              m_face_connectivity := m_face_connectivity n;
              m_block_data := m_block_data n;
              m_rank := m_rank n;
              m_nb_procs := m_nb_procs n;
              m_local_nodes_begin := m_local_nodes_begin n;
              m_local_nodes_end := m_local_nodes_end n |}).

End NodeIndices2D.

(** ** [BlockArrays::Implementation] *)

Module BlockArrays.

(** [struct Block]. A pointer into [block_list] is the index of the block it
    points to; [None] is the null pointer. *)
Record Block : Type := {
  dimensions : Z;
  search_indices : list Z;
  nb_points : list Z;
  nb_elems : Z;
  segments : list Z;
  bounded : list bool;
  neighbors : list (option Z);
  strides : list Z;
  start_index : Z
}.

(** [struct Patch]; [block] is the index in [block_list] of the block the
    patch refers to. *)
Record Patch : Type := {
  block : Z;
  patch_nb_elems : Z;
  patch_segments : list Z;
  fixed_direction : Z;
  fixed_idx : Z
}.

Record Implementation : Type := {
  points : list (list Real);
  blocks : list (list Z);
  block_subdivisions : list (list Z);
  block_gradings : list (list Real);
  patches : list (string * list (list Z));
  face_connectivity : FaceConnectivity;
  block_list : list Block;
  patch_map : gmap string (list Patch);
  nodes_dist : list Z;
  local_nodes_begin : Z;
  local_nodes_end : Z;
  ghost_counter : Z;
  global_to_local : gmap Z Z
}.

Definition set_search_indices (b : Block) (s : list Z) : Block :=
  {| dimensions := dimensions b; search_indices := s; nb_points := nb_points b;
     nb_elems := nb_elems b; segments := segments b; bounded := bounded b;
     neighbors := neighbors b; strides := strides b; start_index := start_index b |}.

(** [Block::operator[](i)] *)
Definition Block_at (block_list : list Block) (b : Block) (i : Z) : Outcome Block :=
  let search_direction := Z.of_nat (length (search_indices b)) in
  _ ← cf3_assert (search_direction <? dimensions b);
  np ← at_ (nb_points b) search_direction;
  if i =? np then
    pointer ← at_ (neighbors b) search_direction;
    match pointer with
    | None => Undefined
    | Some idx =>
        neighbor ← at_ block_list idx;
        Ok (set_search_indices neighbor (search_indices b ++ [0]))
    end
  else Ok (set_search_indices b (search_indices b ++ [i])).

(** [Block::global_idx()] *)
Definition Block_global_idx (b : Block) : Outcome Z :=
  _ ← cf3_assert (Z.of_nat (length (search_indices b)) =? dimensions b);
  terms ← for_each (fun i =>
             stride ← at_ (strides b) i;
             idx ← at_ (search_indices b) i;
             Ok (stride * idx))
           (indices (dimensions b));
  Ok (wrap (start_index b + foldr Z.add 0 terms)).

(** [Patch::Patch(a_block, fixed_dir, idx)] *)
Definition make_patch (block_idx : Z) (b : Block) (fixed_dir idx : Z) : Patch :=
  let free := filter (fun i => i ≠ fixed_dir) (indices (dimensions b)) in
  let segs := omap (fun i => segments b !! Z.to_nat i) free in
  {| block := block_idx;
     patch_nb_elems := wrap (foldr Z.mul 1 segs);
     patch_segments := segs;
     fixed_direction := fixed_dir;
     fixed_idx := idx |}.

Definition positive_faces (dimensions : Z) : list Z :=
  if dimensions =? 3 then [Hexa.KSI_POS; Hexa.ETA_POS; Hexa.ZTA_POS]
  else [1; 2].

Definition negative_faces (dimensions : Z) : list Z :=
  if dimensions =? 3 then [Hexa.KSI_NEG; Hexa.ETA_NEG; Hexa.ZTA_NEG]
  else [3; 0].

(** The first loop over the axes of one block in [create_blocks]: the block
    after axes [axes], with the running [stride] and [nb_points]. *)
Fixpoint fill_axes (fc : FaceConnectivity) (dims block_idx : Z) (subdiv_row : list Z)
    (axes : list Z) (stride nb_points_ : Z) (b : Block) : Outcome (Z * Block) :=
  match axes with
  | [] => Ok (nb_points_, b)
  | i :: axes' =>
      face ← at_ (positive_faces dims) i;
      subdiv ← at_ subdiv_row i;
      let adj_elem := adjacent_element fc block_idx face in
      let is_bounded := negb (dimensionality adj_elem =? dims) in
      let points_i := wrap (subdiv + (if is_bounded then 1 else 0)) in
      fill_axes fc dims block_idx subdiv_row axes'
        (wrap (stride * points_i)) (wrap (nb_points_ * points_i))
        {| dimensions := dimensions b;
           search_indices := search_indices b;
           nb_points := nb_points b ++ [points_i];
           nb_elems := wrap (nb_elems b * subdiv);
           segments := segments b ++ [subdiv];
           bounded := bounded b ++ [is_bounded];
           neighbors := neighbors b ++
                          [if is_bounded then None else Some (element_index adj_elem)];
           strides := strides b ++ [stride];
           start_index := start_index b |}
  end.

(** The second loop over the axes: the patches a block contributes, in the
    order of the [push_back]s. *)
Definition block_patches (fc : FaceConnectivity) (dims block_idx : Z) (b : Block)
  : Outcome (list (string * Patch)) :=
  per_axis ← for_each (fun i =>
      neg ← at_ (negative_faces dims) i;
      pos ← at_ (positive_faces dims) i;
      np ← at_ (nb_points b) i;
      let adj_elems := [adjacent_element fc block_idx neg; adjacent_element fc block_idx pos] in
      Ok (omap (fun '(dir, adj) =>
                  if dimensionality adj =? dims - 1
                  then Some (parent_name adj,
                             make_patch block_idx b i (wrap (dir * wrap (np - 1))))
                  else None)
               (zip [0; 1] adj_elems)))
    (indices dims);
  Ok (concat per_axis).

Definition empty_block (dims : Z) (start : Z) : Block :=
  {| dimensions := dims; search_indices := []; nb_points := []; nb_elems := 1;
     segments := []; bounded := []; neighbors := []; strides := [];
     start_index := start |}.

(** The loop over the blocks in [create_blocks]. *)
Fixpoint fill_blocks (fc : FaceConnectivity) (dims : Z) (subdivs : list (list Z))
    (block_indices : list Z) (block_start : Z)
  : Outcome (list Block * list (string * Patch)) :=
  match block_indices with
  | [] => Ok ([], [])
  | block_idx :: rest =>
      subdiv_row ← at_ subdivs block_idx;
      '(nb_points_, b) ← fill_axes fc dims block_idx subdiv_row (indices dims) 1 1
                            (empty_block dims block_start);
      new_patches ← block_patches fc dims block_idx b;
      '(bs, ps) ← fill_blocks fc dims subdivs rest (wrap (block_start + nb_points_));
      Ok (b :: bs, new_patches ++ ps)
  end.

(** [patch_map[name].push_back(patch)] *)
Definition push_patch (m : gmap string (list Patch)) (entry : string * Patch)
  : gmap string (list Patch) :=
  <[entry.1 := default [] (m !! entry.1) ++ [entry.2]]> m.

(** [points->row_size()] *)
Definition row_size {A : Type} (table : list (list A)) : Z :=
  match table with
  | [] => 0
  | row :: _ => Z.of_nat (length row)
  end.

(** [create_blocks()] *)
Definition create_blocks (impl : Implementation) : Outcome Implementation :=
  let nb_blocks := Z.of_nat (length (blocks impl)) in
  let dims := row_size (points impl) in
  '(bs, ps) ← fill_blocks (face_connectivity impl) dims (block_subdivisions impl)
                 (indices nb_blocks) 0;
  Ok {| points := points impl; blocks := blocks impl;
        block_subdivisions := block_subdivisions impl;
        block_gradings := block_gradings impl;
        patches := patches impl;
        face_connectivity := face_connectivity impl;
        block_list := bs;
        patch_map := foldl push_patch (patch_map impl) ps;
        nodes_dist := nodes_dist impl;
        local_nodes_begin := local_nodes_begin impl;
        local_nodes_end := local_nodes_end impl;
        ghost_counter := 0;
        global_to_local := global_to_local impl |}.

(** The loop of [create_nodes_distribution]: [nodes_dist] after the
    [push_back]s for the processes [procs]. *)
Fixpoint push_nodes_dist (block_list : list Block) (block_distribution : list Z)
    (dist : list Z) (procs : list Z) : Outcome (list Z) :=
  match procs with
  | [] => Ok dist
  | proc :: procs' =>
      back ← at_ dist (Z.of_nat (length dist) - 1);
      hi ← at_ block_distribution (proc + 1);
      lo ← at_ block_distribution proc;
      block_hi ← at_ block_list hi;
      block_lo ← at_ block_list lo;
      push_nodes_dist block_list block_distribution
        (dist ++ [wrap (back + start_index block_hi - start_index block_lo)]) procs'
  end.

(** [create_nodes_distribution(nb_procs, rank, block_distribution)] *)
Definition create_nodes_distribution (impl : Implementation)
    (nb_procs rank : Z) (block_distribution : list Z) : Outcome Implementation :=
  _ ← cf3_assert (rank <? nb_procs);
  if negb (Z.of_nat (length block_distribution) =? wrap (nb_procs + 1))
  then Throws SetupError else
  dist ← push_nodes_dist (block_list impl) block_distribution
            (nodes_dist impl ++ [0]) (indices nb_procs);
  local_begin ← at_ dist rank;
  local_end ← at_ dist (wrap (rank + 1));
  Ok {| points := points impl; blocks := blocks impl;
        block_subdivisions := block_subdivisions impl;
        block_gradings := block_gradings impl;
        patches := patches impl;
        face_connectivity := face_connectivity impl;
        block_list := block_list impl;
        patch_map := patch_map impl;
        nodes_dist := dist;
        local_nodes_begin := local_begin;
        local_nodes_end := local_end;
        ghost_counter := ghost_counter impl;
        global_to_local := global_to_local impl |}.

Definition set_ghosts (impl : Implementation) (counter : Z) (ghosts : gmap Z Z)
  : Implementation :=
  {| points := points impl; blocks := blocks impl;
     block_subdivisions := block_subdivisions impl;
     block_gradings := block_gradings impl;
     patches := patches impl;
     face_connectivity := face_connectivity impl;
     block_list := block_list impl;
     patch_map := patch_map impl;
     nodes_dist := nodes_dist impl;
     local_nodes_begin := local_nodes_begin impl;
     local_nodes_end := local_nodes_end impl;
     ghost_counter := counter;
     global_to_local := ghosts |}.

(** [to_local(gid)]: the local index and the implementation with its ghost
    map and ghost counter updated. *)
Definition to_local (impl : Implementation) (gid : Z) : Z * Implementation :=
  let '(lid, counter, ghosts) :=
    local_index (local_nodes_begin impl) (local_nodes_end impl)
                (ghost_counter impl) (global_to_local impl) gid in
  (lid, set_ghosts impl counter ghosts).

(** [to_local(block_list[block_idx][i][j][k].global_idx())] *)
Definition local_node (impl : Implementation) (block_idx : Z) (node : list Z)
  : Outcome (Z * Implementation) :=
  b ← at_ (block_list impl) block_idx;
  found ← foldl (fun acc i => cur ← acc; Block_at (block_list impl) cur i) (Ok b) node;
  gid ← Block_global_idx found;
  Ok (to_local impl gid).

(** The nodes of the element at [(i, j, k)] ([(i, j)] in two dimensions), in
    the order [add_block] stores them. *)
Definition element_nodes (dims i j k : Z) : list (list Z) :=
  let i1 := wrap (i + 1) in
  let j1 := wrap (j + 1) in
  let k1 := wrap (k + 1) in
  if dims =? 3 then
    [[i; j; k]; [i1; j; k]; [i1; j1; k]; [i; j1; k];
     [i; j; k1]; [i1; j; k1]; [i1; j1; k1]; [i; j1; k1]]
  else [[i; j]; [i1; j]; [i1; j1]; [i; j1]].

(** Run [f] over a list, threading the implementation through. *)
Fixpoint thread {A B : Type} (f : Implementation -> A -> Outcome (B * Implementation))
    (impl : Implementation) (l : list A) : Outcome (list B * Implementation) :=
  match l with
  | [] => Ok ([], impl)
  | a :: l' =>
      '(b, impl1) ← f impl a;
      '(bs, impl2) ← thread f impl1 l';
      Ok (b :: bs, impl2)
  end.

(** The elements of a block in the order of the loops of [add_block]. *)
Definition block_elements (segments : list Z) : Outcome (list (Z * Z * Z)) :=
  x ← at_ segments XX;
  y ← at_ segments YY;
  if Z.of_nat (length segments) =? 3 then
    z ← at_ segments ZZ;
    Ok (k ← indices z; j ← indices y; i ← indices x; [(i, j, k)])
  else
    _ ← cf3_assert (Z.of_nat (length segments) =? 2);
    Ok (j ← indices y; i ← indices x; [(i, j, 0)]).

(** [add_block(segments, block_idx, volume_connectivity, element_idx)]: the
    rows written to the connectivity table. *)
Definition add_block (impl : Implementation) (segments : list Z) (block_idx : Z)
  : Outcome (list (list Z) * Implementation) :=
  elements ← block_elements segments;
  thread (fun impl1 '(i, j, k) =>
            thread (fun impl2 node => local_node impl2 block_idx node) impl1
                   (element_nodes (Z.of_nat (length segments)) i j k))
         impl elements.


(** The blocks distribution [create_mesh] works with: the option
    [blocks_distribution], or all blocks on the only process. *)
Definition blocks_distribution (impl : Implementation) (nb_procs : Z)
    (option_value : list Z) : Outcome (list Z) :=
  match option_value with
  | [] => if negb (nb_procs =? 1) then Throws SetupError
          else Ok [0; Z.of_nat (length (blocks impl))]
  | _ => Ok option_value
  end.

(** The blocks [begin, end) of a loop [for(block = begin; block != end; ++block)]. *)
Definition block_range (first last : Z) : Outcome (list Z) :=
  if first <=? last then Ok (seqZ first (last - first)) else Undefined.

(** [elements_dist] of [create_mesh] after its first entry. *)
Fixpoint elements_distribution (block_list : list Block) (distribution : list Z)
    (last : Z) (procs : list Z) : Outcome (list Z) :=
  match procs with
  | [] => Ok []
  | proc :: procs' =>
      proc_begin ← at_ distribution proc;
      proc_end ← at_ distribution (wrap (proc + 1));
      local_blocks ← block_range proc_begin proc_end;
      counts ← for_each (fun b => blk ← at_ block_list b; Ok (nb_elems blk)) local_blocks;
      let next := wrap (last + foldl (fun acc n => wrap (acc + n)) 0 counts) in
      rest ← elements_distribution block_list distribution next procs';
      Ok (next :: rest)
  end.

(** [block[a][b].global_idx()] and [block[a][b][c].global_idx()] *)
Definition Block_node (block_list : list Block) (b : Block) (node : list Z) : Outcome Z :=
  found ← foldl (fun acc i => cur ← acc; Block_at block_list cur i) (Ok b) node;
  Block_global_idx found.

(** [Patch::global_idx(i)], the version for two dimensions; [block] is the
    block in [block_list] the patch refers to. *)
Definition Patch_global_idx_2d (block_list : list Block) (patch : Patch) (i : Z)
  : Outcome Z :=
  b ← at_ block_list (block patch);
  _ ← cf3_assert (dimensions b =? 2);
  i ← (if negb (fixed_idx patch =? 0) then Ok i
       else s0 ← at_ (patch_segments patch) 0; Ok (wrap (s0 - i)));
  Block_node block_list b
    [if fixed_direction patch =? 0 then fixed_idx patch else i;
     if fixed_direction patch =? 1 then fixed_idx patch else i].

(** [Patch::global_idx(i, j)], the version for three dimensions. *)
Definition Patch_global_idx_3d (block_list : list Block) (patch : Patch) (i j : Z)
  : Outcome Z :=
  b ← at_ block_list (block patch);
  _ ← cf3_assert (dimensions b =? 3);
  let mirrored :=
    if negb (fixed_direction patch =? 2) then fixed_idx patch =? 0
    else negb (fixed_idx patch =? 0) in
  i ← (if mirrored then s0 ← at_ (patch_segments patch) 0; Ok (wrap (s0 - i))
       else Ok i);
  if fixed_direction patch =? 0 then Block_node block_list b [fixed_idx patch; i; j]
  else if fixed_direction patch =? 1 then Block_node block_list b [i; fixed_idx patch; j]
  else if fixed_direction patch =? 2 then Block_node block_list b [i; j; fixed_idx patch]
  else Ok 0.

(** The elements of a patch in the order of the loops of [add_patch], each
    with the nodes it gets. *)
Definition patch_elements (dims : Z) (patch : Patch) : Outcome (list (list (list Z))) :=
  s0 ← at_ (patch_segments patch) 0;
  if dims =? 3 then
    if s0 =? 0 then Ok [] else
    s1 ← at_ (patch_segments patch) 1;
    Ok (i ← indices s0; j ← indices s1;
        [[[i; j]; [wrap (i + 1); j]; [wrap (i + 1); wrap (j + 1)]; [i; wrap (j + 1)]]])
  else Ok (i ← indices s0; [[[i]; [wrap (i + 1)]]]).

(** [add_patch(name, patch_elems)]: the size the elements of the patch are
    given, the rows written to their connectivity table, and the
    implementation with its ghost nodes. A row written past the end of the
    table is undefined. *)
Definition add_patch (impl : Implementation) (name : string)
  : Outcome (Z * list (list Z) * Implementation) :=
  let dims := row_size (points impl) in
  let patch_list := default [] (patch_map impl !! name) in
  let size :=
    foldl (fun acc patch => wrap (acc + patch_nb_elems patch)) 0 patch_list in
  _ ← (if dims =? 3 then Ok tt else cf3_assert (dims =? 2));
  '(rows, impl') ←
    thread (fun impl1 patch =>
              elements ← patch_elements dims patch;
              thread (fun impl2 nodes =>
                        thread (fun impl3 node =>
                                  gid ← match node with
                                        | [i; j] =>
                                            Patch_global_idx_3d (block_list impl3) patch i j
                                        | [i] => Patch_global_idx_2d (block_list impl3) patch i
                                        | _ => Undefined
                                        end;
                                  Ok (to_local impl3 gid))
                               impl2 nodes)
                     impl1 elements)
           impl patch_list;
  if Z.of_nat (length (concat rows)) <=? size
  then Ok (size, concat rows, impl')
  else Undefined.

(** [fill_block_coordinates_3d(mesh_coords, block_idx)] and
    [fill_block_coordinates_2d(mesh_coords, block_idx)] as far as their
    outcome and the ghost nodes go: the corner points of the block are read,
    the mapped coordinates of its edges are made, and every node of the
    lattice of the block gets its local index, which is asserted to lie in
    the table of [nb_mesh_nodes] coordinates. The coordinates written there
    come from the shape functions of the element type, which are not part
    of the sources at hand, and are left out. *)
Definition fill_block_coordinates (impl : Implementation) (nb_mesh_nodes block_idx : Z)
  : Outcome Implementation :=
  let dims := row_size (points impl) in
  corners ← at_ (blocks impl) block_idx;
  _ ← for_each (fun c => p ← at_ corners c; at_ (points impl) p)
               (indices (if dims =? 3 then 8 else 4));
  segments ← at_ (block_subdivisions impl) block_idx;
  gradings ← at_ (block_gradings impl) block_idx;
  nodes ←
    (if dims =? 3 then
       x ← at_ segments XX;
       _ ← create_mapped_coords x gradings 4;
       y ← at_ segments YY;
       _ ← create_mapped_coords y (drop 4 gradings) 4;
       z ← at_ segments ZZ;
       _ ← create_mapped_coords z (drop 8 gradings) 4;
       Ok (k ← indices (z + 1); j ← indices (y + 1); i ← indices (x + 1); [[i; j; k]])
     else
       x ← at_ segments XX;
       _ ← create_mapped_coords x gradings 2;
       y ← at_ segments YY;
       _ ← create_mapped_coords y (drop 2 gradings) 2;
       Ok (j ← indices (y + 1); i ← indices (x + 1); [[i; j]]));
  '(_, impl') ←
    thread (fun impl1 node =>
              '(node_idx, impl2) ← local_node impl1 block_idx node;
              _ ← cf3_assert (node_idx <? nb_mesh_nodes);
              Ok (node_idx, impl2))
           impl nodes;
  Ok impl'.

(** The sizes of the tables [create_mesh] makes: the volume elements, the
    nodes and, patch by patch, the surface elements. *)
Record MeshSizes : Type := {
  nb_volume_elements : Z;
  nb_nodes : Z;
  surface_elements : list (string * Z)
}.

(** [create_mesh(mesh)] on [nb_procs] processes, as process [rank], in the
    order of the source. The four tables of the topology are there
    ([check_handle] passes), and [create_block_mesh] has made the face
    connectivity the implementation holds. A row of the volume connectivity
    written past the end of its table is undefined. *)
Definition create_mesh (impl : Implementation) (nb_procs rank : Z)
    (option_blocks_distribution : list Z) : Outcome MeshSizes :=
  let dims := row_size (points impl) in
  impl1 ← create_blocks impl;
  distribution ← blocks_distribution impl1 nb_procs option_blocks_distribution;
  impl2 ← create_nodes_distribution impl1 nb_procs rank distribution;
  dist ← elements_distribution (block_list impl2) distribution 0 (indices nb_procs);
  let elements_dist := 0 :: dist in
  blocks_begin ← at_ distribution rank;
  blocks_end ← at_ distribution (wrap (rank + 1));
  elements_end ← at_ elements_dist (wrap (rank + 1));
  elements_begin ← at_ elements_dist rank;
  let nb_elements := wrap (elements_end - elements_begin) in
  local_blocks ← block_range blocks_begin blocks_end;
  '(rows, impl3) ← thread (fun cur block_idx =>
                      segments ← at_ (block_subdivisions cur) block_idx;
                      add_block cur segments block_idx)
                    impl2 local_blocks;
  if negb (Z.of_nat (length (concat rows)) <=? nb_elements) then Undefined else
  nodes_begin ← at_ (nodes_dist impl3) rank;
  nodes_end ← at_ (nodes_dist impl3) (wrap (rank + 1));
  let nb_mesh_nodes := wrap (wrap (nodes_end - nodes_begin) + ghost_counter impl3) in
  '(_, impl4) ← thread (fun cur block_idx =>
                   if (dims =? 3) || (dims =? 2)
                   then cur' ← fill_block_coordinates cur nb_mesh_nodes block_idx;
                        Ok (tt, cur')
                   else Ok (tt, cur))
                 impl3 local_blocks;
  '(surfaces, _) ← thread (fun cur description =>
                      '(size, _, cur') ← add_patch cur description.1;
                      Ok ((description.1, size), cur'))
                    impl4 (patches impl4);
  Ok {| nb_volume_elements := nb_elements;
        nb_nodes := nb_mesh_nodes;
        surface_elements := surfaces |}.

End BlockArrays.

(** ** The block partitioner *)

(** [static_cast<Uint>(ceil(static_cast<Real>(a) / static_cast<Real>(b)))]
    for two [Uint]s. Both are exact as [double]s, and a quotient that is not
    an integer lies at least [1/b] above the integer below it, far more than
    a rounding error of the division: the result is the integer ceiling. A
    zero divisor gives an infinity or NaN, whose conversion is undefined. *)
Definition ceil_ratio (a b : Z) : Outcome Z :=
  if b =? 0 then Undefined else Ok ((a + b - 1) `div` b).

(** [v[i] = x] on a vector. *)
Definition set_at {A : Type} (v : list A) (i : Z) (x : A) : Outcome (list A) :=
  _ ← at_ v i; Ok (<[Z.to_nat i := x]> v).

(** What [partition_blocks_3d] and [partition_blocks_2d] leave in
    [blocks_out], as far as it is represented: the gradings and subdivisions
    of the new blocks, their number ([block_points.size()]) and the
    distribution. The corner points of the new blocks ([points],
    [block_points], [patch_points], the two node mappings and the
    coordinates of the block mesh) take no part in these and are left out. *)
Record Partitioned : Type := {
  out_block_gradings : list (list Real);
  out_block_subdivisions : list (list Z);
  out_nb_blocks : Z;
  out_block_distribution : list Z
}.

(** The variables of the two partition loops. *)
Record PartitionState : Type := {
  next_block_layer : list Z;
  to_partition_subdivisions : list (list Z);
  to_partition_gradings : list (list Real);
  nb_partitioned : Z;
  blocks_out : Partitioned
}.

Section Partition.

(** What differs between the two and the three dimensional partitioner:
    the number of edges along an axis, the dimensionality of a block and of
    a patch element, the faces at the start and the end of the direction,
    the transverse faces, the size of a slice of one block and the index of
    the grading that belongs to a node of the end face. *)
Variable nb_edges : Z.
Variable volume_dim patch_dim : Z.
Variable start_direction end_direction : Z -> Z.
Variable transverse_directions : Z -> list Z.
Variable slice_of_block : Z -> list Z -> Outcome Z.
Variable grading_idx : Z -> Z -> Z.
Variable block_nb_elements : list Z -> Outcome Z.

Variable fc : FaceConnectivity.
Variable blocks_in : BlockData.
Variable direction : Z.

(** "All the blocks at the start of the direction to partition in" *)
Definition is_start_block (block_idx : Z) : bool :=
  (dimensionality (adjacent_element fc block_idx (start_direction direction)) =? patch_dim)
  && forallb (fun transverse_direction =>
       let transverse_element := adjacent_element fc block_idx transverse_direction in
       (dimensionality transverse_element =? patch_dim)
       || negb (dimensionality
                  (adjacent_element fc (element_index transverse_element)
                                    (start_direction direction)) =? volume_dim))
     (transverse_directions direction).

Definition starting_layer (nb_blocks : Z) : list Z :=
  filter (fun block_idx => is_start_block block_idx = true) (indices nb_blocks).

(** The loop "for(Uint i = 0; i != nb_edges; ++i)" of a cut block, as far as
    the gradings go: [new_gradings] and the gradings of the block that
    remains to be partitioned, after the edges [edges]. *)
Fixpoint adjust_gradings (mapped_coords : list (list Real))
    (block_nb_slices partition_nb_slices : Z) (edges : list Z)
    (new_gradings remaining_gradings : list Real)
  : Outcome (list Real * list Real) :=
  match edges with
  | [] => Ok (new_gradings, remaining_gradings)
  | i :: edges' =>
      let g := grading_idx (end_direction direction) i in
      cut ← mapped_at mapped_coords partition_nb_slices g;
      before_cut ← mapped_at mapped_coords (wrap (partition_nb_slices - 1)) g;
      second ← mapped_at mapped_coords 1 g;
      first ← mapped_at mapped_coords 0 g;
      new_gradings' ← set_at new_gradings (wrap (nb_edges * direction + i))
                         ((cut - before_cut) / (second - first))%Real;
      last ← mapped_at mapped_coords block_nb_slices g;
      before_last ← mapped_at mapped_coords (wrap (block_nb_slices - 1)) g;
      after_cut ← mapped_at mapped_coords (wrap (partition_nb_slices + 1)) g;
      remaining' ← set_at remaining_gradings (wrap (nb_edges * direction + i))
                      ((last - before_last) / (after_cut - cut))%Real;
      adjust_gradings mapped_coords block_nb_slices partition_nb_slices edges'
                      new_gradings' remaining'
  end.

Definition push_block (out : Partitioned) (gradings : list Real) (subdivisions : list Z)
  : Partitioned :=
  {| out_block_gradings := out_block_gradings out ++ [gradings];
     out_block_subdivisions := out_block_subdivisions out ++ [subdivisions];
     out_nb_blocks := out_nb_blocks out;
     out_block_distribution := out_block_distribution out |}.

(** One block of the layer when "block is larger than the remaining number
    of slices". *)
Definition cut_block (block_nb_slices partition_nb_slices : Z)
    (st : PartitionState) (block_idx : Z) : Outcome PartitionState :=
  remaining_gradings ← at_ (to_partition_gradings st) block_idx;
  mapped_coords ← create_mapped_coords block_nb_slices
                     (drop (Z.to_nat (wrap (nb_edges * direction))) remaining_gradings)
                     nb_edges;
  new_gradings ← at_ (block_gradings blocks_in) block_idx;
  '(new_gradings', remaining') ←
    adjust_gradings mapped_coords block_nb_slices partition_nb_slices
                    (indices nb_edges) new_gradings remaining_gradings;
  subdivisions ← at_ (to_partition_subdivisions st) block_idx;
  new_block_subdivisions ← set_at subdivisions direction partition_nb_slices;
  slices ← at_ subdivisions direction;
  remaining_subdivisions ← set_at subdivisions direction (wrap (slices - partition_nb_slices));
  Ok {| next_block_layer := next_block_layer st;
        to_partition_subdivisions :=
          <[Z.to_nat block_idx := remaining_subdivisions]> (to_partition_subdivisions st);
        to_partition_gradings :=
          <[Z.to_nat block_idx := remaining']> (to_partition_gradings st);
        nb_partitioned := nb_partitioned st;
        blocks_out := push_block (blocks_out st) new_gradings' new_block_subdivisions |}.

(** One block of the layer when the "blocks fits entirely into the
    partition": its data goes to the output and the element next to it
    across the face [start_direction], when it is a block, to the next
    layer. *)
Definition whole_block (st : PartitionState) (block_idx : Z) : Outcome PartitionState :=
  gradings ← at_ (to_partition_gradings st) block_idx;
  subdivisions ← at_ (to_partition_subdivisions st) block_idx;
  let next_block := adjacent_element fc block_idx (start_direction direction) in
  Ok {| next_block_layer :=
          if dimensionality next_block =? volume_dim
          then next_block_layer st ++ [element_index next_block]
          else next_block_layer st;
        to_partition_subdivisions := to_partition_subdivisions st;
        to_partition_gradings := to_partition_gradings st;
        nb_partitioned := nb_partitioned st;
        blocks_out := push_block (blocks_out st) gradings subdivisions |}.

(** "grow the next layer in case any new spanwise blocks appear": the loop
    visits the blocks the layer holds when it starts. *)
Definition grow_layer (layer : list Z) : list Z :=
  foldl (fun acc block_idx =>
           foldl (fun acc' transverse_direction =>
                    let transverse_block := adjacent_element fc block_idx transverse_direction in
                    if (dimensionality transverse_block =? volume_dim)
                       && negb (bool_decide (element_index transverse_block ∈ acc'))
                    then acc' ++ [element_index transverse_block]
                    else acc')
                 acc (transverse_directions direction))
        layer layer.

Definition set_layer (st : PartitionState) (layer : list Z) : PartitionState :=
  {| next_block_layer := layer;
     to_partition_subdivisions := to_partition_subdivisions st;
     to_partition_gradings := to_partition_gradings st;
     nb_partitioned := nb_partitioned st;
     blocks_out := blocks_out st |}.

(** The last loop over the layer in the body of the [while]:
    [blocks_out.block_points.push_back(new_blocks[block_idx])], where
    [new_blocks] has one entry for each block of the layer. *)
Fixpoint push_block_points (layer_size : Z) (layer : list Z) (st : PartitionState)
  : Outcome PartitionState :=
  match layer with
  | [] => Ok st
  | block_idx :: layer' =>
      if (0 <=? block_idx) && (block_idx <? layer_size) then
        push_block_points layer_size layer'
          {| next_block_layer := next_block_layer st;
             to_partition_subdivisions := to_partition_subdivisions st;
             to_partition_gradings := to_partition_gradings st;
             nb_partitioned := nb_partitioned st;
             blocks_out :=
               {| out_block_gradings := out_block_gradings (blocks_out st);
                  out_block_subdivisions := out_block_subdivisions (blocks_out st);
                  out_nb_blocks := wrap (out_nb_blocks (blocks_out st) + 1);
                  out_block_distribution := out_block_distribution (blocks_out st) |} |}
      else Undefined
  end.

(** Fold a step over a list of blocks. *)
Fixpoint over_blocks (step : PartitionState -> Z -> Outcome PartitionState)
    (st : PartitionState) (layer : list Z) : Outcome PartitionState :=
  match layer with
  | [] => Ok st
  | block_idx :: layer' => st' ← step st block_idx; over_blocks step st' layer'
  end.

(** [while(partition_nb_slices)]. Every turn that does not end the loop takes
    at least one slice off [partition_nb_slices] unless the front block has
    no slice at all, so the loop is over after [partition_nb_slices] turns or
    never. *)
Fixpoint slices_loop (turns : nat) (current_block_layer : list Z)
    (partition_nb_slices : Z) (st : PartitionState) : Outcome PartitionState :=
  if partition_nb_slices =? 0 then Ok st else
  match turns with
  | O => Diverges
  | S turns' =>
      front ← at_ current_block_layer 0;
      front_subdivisions ← at_ (to_partition_subdivisions st) front;
      block_nb_slices ← at_ front_subdivisions direction;
      let layer_size := Z.of_nat (length current_block_layer) in
      if partition_nb_slices <? block_nb_slices then
        st1 ← over_blocks (cut_block block_nb_slices partition_nb_slices)
                 st current_block_layer;
        push_block_points layer_size current_block_layer st1
      else
        st1 ← over_blocks whole_block (set_layer st []) current_block_layer;
        let st2 := set_layer st1 (grow_layer (next_block_layer st1)) in
        st3 ← push_block_points layer_size current_block_layer st2;
        slices_loop turns' current_block_layer
                    (wrap (partition_nb_slices - block_nb_slices)) st3
  end.

Definition push_distribution (st : PartitionState) : PartitionState :=
  {| next_block_layer := next_block_layer st;
     to_partition_subdivisions := to_partition_subdivisions st;
     to_partition_gradings := to_partition_gradings st;
     nb_partitioned := nb_partitioned st;
     blocks_out :=
       {| out_block_gradings := out_block_gradings (blocks_out st);
          out_block_subdivisions := out_block_subdivisions (blocks_out st);
          out_nb_blocks := out_nb_blocks (blocks_out st);
          out_block_distribution :=
            out_block_distribution (blocks_out st) ++ [out_nb_blocks (blocks_out st)] |} |}.

Definition set_nb_partitioned (st : PartitionState) (n : Z) : PartitionState :=
  {| next_block_layer := next_block_layer st;
     to_partition_subdivisions := to_partition_subdivisions st;
     to_partition_gradings := to_partition_gradings st;
     nb_partitioned := n;
     blocks_out := blocks_out st |}.

(** [slice_size] of a layer *)
Definition layer_slice_size (st : PartitionState) (layer : list Z) : Outcome Z :=
  sizes ← for_each (fun block_idx =>
             segments ← at_ (to_partition_subdivisions st) block_idx;
             slice_of_block direction segments)
           layer;
  Ok (foldl (fun acc n => wrap (acc + n)) 0 sizes).

(** The number of slices of a partition: the size of a partition in slices,
    or what is left for the last partition. *)
Definition slices_of_partition (nb_partitions global_nb_elements partition_size : Z)
    (partition slice_size partitioned : Z) : Outcome Z :=
  partition_nb_slices ← ceil_ratio partition_size slice_size;
  if global_nb_elements <? wrap (partitioned + wrap (partition_nb_slices * slice_size)) then
    _ ← cf3_assert (partition =? wrap (nb_partitions - 1));
    let nb_remaining_elements := wrap (global_nb_elements - partitioned) in
    _ ← cf3_assert (nb_remaining_elements `mod` slice_size =? 0);
    Ok (nb_remaining_elements `div` slice_size)
  else Ok partition_nb_slices.

(** The body of "for(Uint partition = 0; partition != nb_partitions; ++partition)". *)
Definition partition_step (nb_partitions global_nb_elements partition_size : Z)
    (st : PartitionState) (partition : Z) : Outcome PartitionState :=
  let st1 := push_distribution st in
  let current_block_layer := next_block_layer st1 in
  slice_size ← layer_slice_size st1 current_block_layer;
  _ ← cf3_assert (negb (slice_size =? 0));
  partition_nb_slices ← slices_of_partition nb_partitions global_nb_elements partition_size
                           partition slice_size (nb_partitioned st1);
  let st2 := set_nb_partitioned st1
               (wrap (nb_partitioned st1 + wrap (partition_nb_slices * slice_size))) in
  slices_loop (Z.to_nat partition_nb_slices) current_block_layer partition_nb_slices st2.

(** [partition_blocks_3d], [partition_blocks_2d] *)
Definition partition_blocks_core (nb_partitions : Z) : Outcome Partitioned :=
  let nb_blocks := Z.of_nat (length (block_points blocks_in)) in
  counts ← for_each (fun block =>
              segments ← at_ (block_subdivisions blocks_in) block;
              block_nb_elements segments)
            (indices nb_blocks);
  let global_nb_elements := foldl (fun acc n => wrap (acc + n)) 0 counts in
  partition_size ← ceil_ratio global_nb_elements nb_partitions;
  st ← over_blocks (partition_step nb_partitions global_nb_elements partition_size)
         {| next_block_layer := starting_layer nb_blocks;
            to_partition_subdivisions := block_subdivisions blocks_in;
            to_partition_gradings := block_gradings blocks_in;
            nb_partitioned := 0;
            blocks_out := {| out_block_gradings := [];
                             out_block_subdivisions := [];
                             out_nb_blocks := 0;
                             out_block_distribution := [] |} |}
         (indices nb_partitions);
  Ok (blocks_out (push_distribution st)).

End Partition.

(** The tables of [partition_blocks_3d]: the faces of a hexahedron at the
    start and at the end of a direction and across it, the size of a slice
    of one block, the grading that belongs to a node of the end face, and
    the number of elements of a block. *)
Definition start_direction_3d (d : Z) : Z :=
  if d =? XX then Hexa.KSI_NEG else if d =? YY then Hexa.ETA_NEG else Hexa.ZTA_NEG.

Definition end_direction_3d (d : Z) : Z :=
  if d =? XX then Hexa.KSI_POS else if d =? YY then Hexa.ETA_POS else Hexa.ZTA_POS.

Definition transverse_directions_3d (d : Z) : list Z :=
  if d =? XX then [Hexa.ETA_NEG; Hexa.ETA_POS; Hexa.ZTA_NEG; Hexa.ZTA_POS]
  else if d =? YY then [Hexa.KSI_NEG; Hexa.KSI_POS; Hexa.ZTA_NEG; Hexa.ZTA_POS]
  else if d =? ZZ then [Hexa.ETA_NEG; Hexa.ETA_POS; Hexa.KSI_NEG; Hexa.KSI_POS]
  else [].

Definition slice_of_block_3d (d : Z) (segments : list Z) : Outcome Z :=
  transverse_axes ← (if d =? XX then Ok [YY; ZZ]
                     else if d =? YY then Ok [XX; ZZ]
                     else if d =? ZZ then Ok [YY; XX]
                     else Undefined);
  a0 ← at_ transverse_axes 0; a1 ← at_ transverse_axes 1;
  s0 ← at_ segments a0; s1 ← at_ segments a1;
  Ok (wrap (s0 * s1)).

Definition grading_idx_3d (end_dir i : Z) : Z :=
  if negb (end_dir =? Hexa.ETA_POS) || (i =? 0) || (i =? 3) then i
  else if i =? 1 then 3 else 2.

Definition block_nb_elements_3d (segments : list Z) : Outcome Z :=
  x ← at_ segments XX; y ← at_ segments YY; z ← at_ segments ZZ;
  Ok (wrap (x * y * z)).

(** [partition_blocks_3d(blocks_in, block_mesh, nb_partitions, direction, blocks_out)];
    the face connectivity is that of [block_mesh]. *)
Definition partition_blocks_3d (fc : FaceConnectivity) (blocks_in : BlockData)
    (nb_partitions direction : Z) : Outcome Partitioned :=
  partition_blocks_core 4 DIM_3D DIM_2D
    start_direction_3d end_direction_3d transverse_directions_3d
    slice_of_block_3d grading_idx_3d block_nb_elements_3d
    fc blocks_in direction nb_partitions.

(** The same tables of [partition_blocks_2d]. *)
Definition start_direction_2d (d : Z) : Z := if d =? XX then Quad.XNEG else Quad.YNEG.

Definition end_direction_2d (d : Z) : Z := if d =? XX then Quad.XPOS else Quad.YPOS.

Definition transverse_directions_2d (d : Z) : list Z :=
  if d =? XX then [Quad.YNEG; Quad.YPOS] else [Quad.XNEG; Quad.XPOS].

Definition slice_of_block_2d (d : Z) (segments : list Z) : Outcome Z :=
  at_ segments (if d =? XX then YY else XX).

Definition grading_idx_2d (end_dir i : Z) : Z :=
  if negb (end_dir =? Quad.YPOS) then i else if i =? 0 then 1 else 0.

Definition block_nb_elements_2d (segments : list Z) : Outcome Z :=
  x ← at_ segments XX; y ← at_ segments YY;
  Ok (wrap (x * y)).

(** [partition_blocks_2d(blocks_in, block_mesh, nb_partitions, direction, blocks_out)] *)
Definition partition_blocks_2d (fc : FaceConnectivity) (blocks_in : BlockData)
    (nb_partitions direction : Z) : Outcome Partitioned :=
  partition_blocks_core 2 DIM_2D DIM_1D
    start_direction_2d end_direction_2d transverse_directions_2d
    slice_of_block_2d grading_idx_2d block_nb_elements_2d
    fc blocks_in direction nb_partitions.

(** [partition_blocks(blocks_in, nb_partitions, direction, blocks_out)] *)
Definition partition_blocks (fc : FaceConnectivity) (blocks_in : BlockData)
    (nb_partitions direction : Z) : Outcome Partitioned :=
  if dimension blocks_in =? 3 then partition_blocks_3d fc blocks_in nb_partitions direction
  else if dimension blocks_in =? 2 then partition_blocks_2d fc blocks_in nb_partitions direction
  else Throws BadValue.

(** ** Vocabulary of the statements *)

(** The implementation after the global indices [gids] have been asked for
    with [to_local], one after the other. *)
Definition requested (impl : BlockArrays.Implementation) (gids : list Z)
  : BlockArrays.Implementation :=
  foldl (fun st gid => (BlockArrays.to_local st gid).2) impl gids.

(** The ghost counter and ghost map after the requests [gids]. *)
Definition ghost_requests (b e : Z) (gids : list Z) (table : Z * gmap Z Z)
  : Z * gmap Z Z :=
  foldl (fun '(c, m) gid => let '(_, c', m') := local_index b e c m gid in (c', m'))
        table gids.

(** The global indices among [gids] that lie outside of the local range. *)
Definition remote_gids (b e : Z) (gids : list Z) : gset Z :=
  list_to_set (filter (fun gid => ¬ (b <= gid < e)) gids).

(** The invariant of the ghost table: [seen] are the remote indices asked
    for so far and [n_local] is the number of local nodes. *)
Record ghost_inv (n_local : Z) (seen : gset Z) (c : Z) (m : gmap Z Z) : Prop := {
  inv_dom : dom m = seen;
  inv_count : c = Z.of_nat (size seen);
  inv_values : ∀ g l, m !! g = Some l → n_local <= l < n_local + c;
  inv_onto : ∀ l, n_local <= l < n_local + c → ∃ g, m !! g = Some l;
  inv_inj : ∀ g1 g2 l, m !! g1 = Some l → m !! g2 = Some l → g1 = g2
}.


(** [b] is the index of a block of [bd]. *)
Definition valid_block (bd : BlockData) (b : Z) : Prop :=
  0 <= b < Z.of_nat (length (block_subdivisions bd)).

(** The subdivisions of block [b], and its number of segments along [axis]. *)
Definition segments_of (bd : BlockData) (b : Z) : list Z :=
  default [] (block_subdivisions bd !! Z.to_nat b).

Definition seg_at (bd : BlockData) (b axis : Z) : Z :=
  default 0 (segments_of bd b !! Z.to_nat axis).

(** The face of a block in the positive direction of [axis], in [dim]
    dimensions. *)
Definition positive_face (dim axis : Z) : Z :=
  if dim =? 3 then
    (if axis =? XX then Hexa.KSI_POS else if axis =? YY then Hexa.ETA_POS else Hexa.ZTA_POS)
  else (if axis =? XX then Quad.XPOS else Quad.YPOS).

(** The oracle's reading of the connectivity: the positive face of [b]
    along [axis] is shared with a block (it is not a patch element), and the
    block on its other side. *)
Definition shares_face (dim : Z) (fc : FaceConnectivity) (b axis : Z) : bool :=
  negb (dimensionality (adjacent_element fc b (positive_face dim axis)) =? dim - 1).

Definition neighbor (dim : Z) (fc : FaceConnectivity) (b axis : Z) : Z :=
  element_index (adjacent_element fc b (positive_face dim axis)).

(** A conforming topology: every block has [dim] positive segment counts,
    and the block across a shared face exists and has the segment counts of
    the face. *)
Record conforming (dim : Z) (fc : FaceConnectivity) (bd : BlockData) : Prop := {
  conf_rows : forall b, valid_block bd b ->
    length (segments_of bd b) = Z.to_nat dim
    /\ forall axis, 0 <= axis < dim -> 0 < seg_at bd b axis;
  conf_neighbors : forall b axis, valid_block bd b -> 0 <= axis < dim ->
    shares_face dim fc b axis = true ->
    valid_block bd (neighbor dim fc b axis)
    /\ forall other, 0 <= other < dim -> other ≠ axis ->
         seg_at bd (neighbor dim fc b axis) other = seg_at bd b other
}.

(** The corners of the topology close up: where a block shares its positive
    faces along two axes, the two blocks across them share a face with one
    and the same fourth block. *)
Definition corners_closed (dim : Z) (fc : FaceConnectivity) (bd : BlockData) : Prop :=
  forall b d e, valid_block bd b -> 0 <= d < dim -> 0 <= e < dim -> d ≠ e ->
    shares_face dim fc b d = true -> shares_face dim fc b e = true ->
    shares_face dim fc (neighbor dim fc b d) e = true
    /\ neighbor dim fc (neighbor dim fc b d) e = neighbor dim fc (neighbor dim fc b e) d.

(** Two lookups of the oracle give one and the same global index. *)
Definition same_gid (o1 o2 : Outcome Z) : Prop :=
  exists gid, o1 = Ok gid /\ o2 = Ok gid.

(** The first global node of block [b] in an array of first nodes. *)
Definition first_node (block_first_nodes : list Z) (b : Z) : Z :=
  default 0 (block_first_nodes !! Z.to_nat b).

(** ** Sample inputs *)

(** A connectivity without any adjacent element. *)
Definition no_connectivity : FaceConnectivity :=
  {| adjacent_element := fun _ _ => {| dimensionality := 0; parent_name := EmptyString; element_index := 0 |};
     has_adjacent_element := fun _ _ => false |}.

(** An implementation whose local nodes are the global nodes 10 to 19. *)
Definition sample_implementation : BlockArrays.Implementation :=
  {| BlockArrays.points := []; BlockArrays.blocks := [];
     BlockArrays.block_subdivisions := []; BlockArrays.block_gradings := [];
     BlockArrays.patches := []; BlockArrays.face_connectivity := no_connectivity;
     BlockArrays.block_list := []; BlockArrays.patch_map := ∅;
     BlockArrays.nodes_dist := [0; 10; 20];
     BlockArrays.local_nodes_begin := 10; BlockArrays.local_nodes_end := 20;
     BlockArrays.ghost_counter := 0; BlockArrays.global_to_local := ∅ |}.

(** A block, and a patch element, as an adjacent element in [dim] dimensions. *)
Definition block_element (dim b : Z) : ElementReference :=
  {| dimensionality := dim; parent_name := "blocks"; element_index := b |}.

Definition patch_element (dim : Z) : ElementReference :=
  {| dimensionality := dim - 1; parent_name := "boundary"; element_index := 0 |}.

(** Four blocks in two rows of two (block [x + 2 y] at column [x] and row
    [y]), in [dim] dimensions; in three dimensions the faces in the zeta
    direction are on the boundary. *)
Definition grid_connectivity (dim : Z) : FaceConnectivity :=
  let xpos := if dim =? 3 then Hexa.KSI_POS else Quad.XPOS in
  let ypos := if dim =? 3 then Hexa.ETA_POS else Quad.YPOS in
  let xneg := if dim =? 3 then Hexa.KSI_NEG else Quad.XNEG in
  let yneg := if dim =? 3 then Hexa.ETA_NEG else Quad.YNEG in
  let adjacent b face :=
    if (face =? xpos) && ((b =? 0) || (b =? 2)) then Some (b + 1)
    else if (face =? xneg) && ((b =? 1) || (b =? 3)) then Some (b - 1)
    else if (face =? ypos) && ((b =? 0) || (b =? 1)) then Some (b + 2)
    else if (face =? yneg) && ((b =? 2) || (b =? 3)) then Some (b - 2)
    else None in
  {| adjacent_element := fun b face =>
       match adjacent b face with
       | Some b' => block_element dim b'
       | None => patch_element dim
       end;
     has_adjacent_element := fun b face => bool_decide (is_Some (adjacent b face)) |}.

Definition block_data (dim : Z) (subdivisions : list (list Z)) (distribution : list Z)
  : BlockData :=
  {| scaling_factor := Fin 1; dimension := dim; points := [];
     block_points := map (fun _ => []) subdivisions;
     block_subdivisions := subdivisions;
     block_gradings := map (fun _ => []) subdivisions;
     block_distribution := distribution;
     patch_names := []; patch_types := []; patch_points := [] |}.

Definition grid_2d : BlockData :=
  block_data 2 [[2; 3]; [1; 3]; [2; 2]; [1; 2]] [0; 2; 4].

Definition grid_3d : BlockData :=
  block_data 3 [[2; 3; 2]; [1; 3; 2]; [2; 2; 2]; [1; 2; 2]] [0; 2; 4].

(** Three blocks around a re-entrant corner: block 1 above and block 2 to
    the right of block 0, and no block above block 2. *)
Definition corner_connectivity : FaceConnectivity :=
  let adjacent b face :=
    if (b =? 0) && (face =? Quad.XPOS) then Some 2
    else if (b =? 0) && (face =? Quad.YPOS) then Some 1
    else if (b =? 1) && (face =? Quad.YNEG) then Some 0
    else if (b =? 2) && (face =? Quad.XNEG) then Some 0
    else None in
  {| adjacent_element := fun b face =>
       match adjacent b face with
       | Some b' => block_element 2 b'
       | None => patch_element 2
       end;
     has_adjacent_element := fun b face => bool_decide (is_Some (adjacent b face)) |}.

Definition corner_2d : BlockData :=
  block_data 2 [[1; 1]; [1; 1]; [1; 1]] [0; 3].

(** ** Owned nodes *)

(** The sum of [f] over the blocks [0, ..., n-1]. *)
Definition sum_over (n : Z) (f : Z -> Z) : Z := foldr Z.add 0 (map f (indices n)).

(** The nodes a block owns in the three dimensional oracle: the product
    over the axes of its segments, plus one where its positive face is on
    the boundary. *)
Definition owned_nodes_3d (fc : FaceConnectivity) (bd : BlockData) (b : Z) : Z :=
  (seg_at bd b XX + Z.b2z (negb (shares_face 3 fc b XX)))
  * (seg_at bd b YY + Z.b2z (negb (shares_face 3 fc b YY)))
  * (seg_at bd b ZZ + Z.b2z (negb (shares_face 3 fc b ZZ))).

(** The entry of a table of unsigned integers in row [b] and column [d]. *)
Definition table_at (table : list (list Z)) (b d : Z) : Z :=
  default 0 (default [] (table !! Z.to_nat b) !! Z.to_nat d).

(** The reading of the connectivity in [create_blocks]: the positive face
    of [b] along [axis] is on the boundary when the element next to it is
    not a block. *)
Definition block_bounded (dims : Z) (fc : FaceConnectivity) (b axis : Z) : bool :=
  negb (dimensionality (adjacent_element fc b (positive_face dims axis)) =? dims).

(** The points of block [b] along [axis], and the nodes the block owns, in
    [create_blocks]. *)
Definition axis_nodes (dims : Z) (fc : FaceConnectivity) (subdivs : list (list Z))
    (b axis : Z) : Z :=
  table_at subdivs b axis + Z.b2z (block_bounded dims fc b axis).

Definition owned_nodes (dims : Z) (fc : FaceConnectivity) (subdivs : list (list Z))
    (b : Z) : Z :=
  foldr Z.mul 1 (map (axis_nodes dims fc subdivs b) (indices dims)).

(** The nodes of the lattice of block [b]: the product over the axes of its
    segments plus one. *)
Definition lattice_nodes (dims : Z) (subdivs : list (list Z)) (b : Z) : Z :=
  foldr Z.mul 1 (map (fun d => table_at subdivs b d + 1) (indices dims)).

(** The grid of four blocks as an implementation before [create_blocks];
    of the points, [create_blocks] reads the number of coordinates only. *)
Definition grid_implementation : BlockArrays.Implementation :=
  {| BlockArrays.points := [[Fin 0; Fin 0; Fin 0]];
     BlockArrays.blocks := [[]; []; []; []];
     BlockArrays.block_subdivisions := block_subdivisions grid_3d;
     BlockArrays.block_gradings := [];
     BlockArrays.patches := []; BlockArrays.face_connectivity := grid_connectivity 3;
     BlockArrays.block_list := []; BlockArrays.patch_map := ∅;
     BlockArrays.nodes_dist := [];
     BlockArrays.local_nodes_begin := 0; BlockArrays.local_nodes_end := 0;
     BlockArrays.ghost_counter := 0; BlockArrays.global_to_local := ∅ |}.

(** ** Graded edges *)

(** The expansion ratio [q] between neighbouring segments of an edge of [n]
    segments and grading [r], and the coordinates of the graded and of the
    uniform edge, as the specification writes them, over the real numbers. *)
Definition expansion_ratio (n : Z) (r : R) : R := Rpower r (/ IZR (n - 1)).

Definition graded_coord (n : Z) (r : R) (i : Z) : R :=
  (2 * (1 - powerRZ (expansion_ratio n r) i) / (1 - r * expansion_ratio n r) - 1)%R.

Definition uniform_coord (n i : Z) : R := (-1 + 2 * IZR i / IZR n)%R.

(** ** The unit box *)

(** The unit box: one block of 2 x 2 x 2 segments with uniform gradings and
    no patches, on the connectivity [fc] of its block mesh. *)
Definition unit_box (fc : FaceConnectivity) : BlockArrays.Implementation :=
  {| BlockArrays.points :=
       [[Fin 0; Fin 0; Fin 0]; [Fin 1; Fin 0; Fin 0]; [Fin 1; Fin 1; Fin 0];
        [Fin 0; Fin 1; Fin 0]; [Fin 0; Fin 0; Fin 1]; [Fin 1; Fin 0; Fin 1];
        [Fin 1; Fin 1; Fin 1]; [Fin 0; Fin 1; Fin 1]];
     BlockArrays.blocks := [[0; 1; 2; 3; 4; 5; 6; 7]];
     BlockArrays.block_subdivisions := [[2; 2; 2]];
     BlockArrays.block_gradings := [replicate 12 (Fin 1)];
     BlockArrays.patches := [];
     BlockArrays.face_connectivity := fc;
     BlockArrays.block_list := []; BlockArrays.patch_map := ∅;
     BlockArrays.nodes_dist := [];
     BlockArrays.local_nodes_begin := 0; BlockArrays.local_nodes_end := 0;
     BlockArrays.ghost_counter := 0; BlockArrays.global_to_local := ∅ |}.

(** ** A graded strip *)

(** A single block in two dimensions whose four faces lie on patches. *)
Definition single_block_connectivity : FaceConnectivity :=
  {| adjacent_element := fun _ _ => patch_element 2;
     has_adjacent_element := fun _ _ => true |}.

(** A strip of one by three segments; the edge at its right is graded with
    the ratio 4 along the second axis, the other edges are uniform. *)
Definition graded_strip : BlockData :=
  {| scaling_factor := Fin 1; dimension := 2;
     points := [[Fin 0; Fin 0]; [Fin 1; Fin 0]; [Fin 1; Fin 3]; [Fin 0; Fin 3]];
     block_points := [[0; 1; 2; 3]];
     block_subdivisions := [[1; 3]];
     block_gradings := [[Fin 1; Fin 1; Fin 1; Fin 4]];
     block_distribution := [0; 1];
     patch_names := ["boundary"%string]; patch_types := ["wall"%string];
     patch_points := [[0; 1; 1; 2; 2; 3; 3; 0]] |}.

(** ** Cells and groups of blocks *)


(** The cells of a block of [dim] dimensions with the subdivisions
    [segments], the cells of a list of blocks, and the cells of one slice of
    a block across [direction]. *)
Definition nb_cells (dim : Z) (segments : list Z) : Z :=
  foldr Z.mul 1 (take (Z.to_nat dim) segments).

Definition total_cells (dim : Z) (rows : list (list Z)) : Z :=
  foldr Z.add 0 (map (nb_cells dim) rows).

Definition slice_cells (dim direction : Z) (segments : list Z) : Z :=
  nb_cells dim (<[Z.to_nat direction := 1]> segments).



(** In the subdivisions the partitioner still has to partition, the blocks
    of [layer] have their rows of [rows], with [n] segments along
    [direction]. *)
Definition layer_rows (rows : list (list Z)) (direction : Z) (layer : list Z) (n : Z)
    (st : PartitionState) : Prop :=
  forall b, b ∈ layer ->
    to_partition_subdivisions st !! Z.to_nat b
    = Some (<[Z.to_nat direction := n]> (default [] (rows !! Z.to_nat b))).


(** The positions in the list of output blocks at which the groups of
    [groups] start, as the partitioner counts them. *)
Definition starts {A : Type} (groups : list (list A)) : list Z :=
  map (fun q => wrap (Z.of_nat (length (concat (take q groups)))))
      (seq 0 (length groups)).

(** The cells of one slice across [direction] of the blocks of [layer]. *)
Definition layer_cells (dim direction : Z) (rows : list (list Z)) (layer : list Z) : Z :=
  foldr Z.add 0
        (map (fun b => slice_cells dim direction (default [] (rows !! Z.to_nat b))) layer).

(** The books of the partitioner between two partitions: [groups] holds,
    for each partition made so far, the subdivisions of its blocks. *)
Record partition_inv (dim : Z) (rows : list (list Z)) (direction : Z) (layer : list Z)
    (nb_partitions global partition_size : Z)
    (groups : list (list (list Z))) (st : PartitionState) : Prop := {
  books_rows : out_block_subdivisions (blocks_out st) = concat groups;
  books_distribution : out_block_distribution (blocks_out st) = starts groups;
  books_nb_blocks :
    out_nb_blocks (blocks_out st) = wrap (Z.of_nat (length (concat groups)));
  books_gradings :
    length (out_block_gradings (blocks_out st)) = length (concat groups);
  books_partitioned : nb_partitioned st = total_cells dim (concat groups);
  books_bound : nb_partitioned st <= global;
  books_progress :
    Z.of_nat (length groups) * partition_size <= nb_partitioned st
    \/ nb_partitioned st = global;
  books_groups : forall q g, groups !! q = Some g ->
    (partition_size <= total_cells dim g \/ Z.of_nat q = nb_partitions - 1)
    /\ total_cells dim g < partition_size + layer_cells dim direction rows layer;
  books_layer : next_block_layer st = layer \/ next_block_layer st = [];
  books_layer_rows : exists n, is_Uint n /\ layer_rows rows direction layer n st
}.

(** ** Owned nodes in two dimensions *)

(** The nodes a block owns in the two dimensional oracle: the product over
    the two axes of its segments, plus one where its positive face is on the
    boundary. *)
Definition owned_nodes_2d (fc : FaceConnectivity) (bd : BlockData) (b : Z) : Z :=
  (seg_at bd b XX + Z.b2z (negb (shares_face 2 fc b XX)))
  * (seg_at bd b YY + Z.b2z (negb (shares_face 2 fc b YY))).

(** ** Places of the owned nodes *)

(** The node [(i, j)] of block [b] is one the block owns in the two
    dimensional oracle: it lies on the lattice of the block, and not on a
    positive face the block shares with another block. *)
Definition owns_2d (fc : FaceConnectivity) (bd : BlockData) (b i j : Z) : Prop :=
  valid_block bd b
  /\ 0 <= i <= seg_at bd b XX /\ 0 <= j <= seg_at bd b YY
  /\ (i = seg_at bd b XX -> shares_face 2 fc b XX = false)
  /\ (j = seg_at bd b YY -> shares_face 2 fc b YY = false).

(** The place of an owned node among the nodes of its block in the two
    dimensional oracle: the nodes inside come first, then those of the two
    positive faces and the corner. *)
Definition offset_2d (fc : FaceConnectivity) (bd : BlockData) (b i j : Z) : Z :=
  if i =? seg_at bd b XX then
    (if j =? seg_at bd b YY
     then seg_at bd b XX * seg_at bd b YY + seg_at bd b YY + seg_at bd b XX
     else seg_at bd b XX * seg_at bd b YY + j)
  else
    (if j =? seg_at bd b YY
     then seg_at bd b XX * seg_at bd b YY
          + Z.b2z (negb (shares_face 2 fc b XX)) * seg_at bd b YY + i
     else i + j * seg_at bd b XX).

(** The node [(i, j, k)] of block [b] is one the block owns in the three
    dimensional oracle. *)
Definition owns_3d (fc : FaceConnectivity) (bd : BlockData) (b i j k : Z) : Prop :=
  valid_block bd b
  /\ 0 <= i <= seg_at bd b XX /\ 0 <= j <= seg_at bd b YY /\ 0 <= k <= seg_at bd b ZZ
  /\ (i = seg_at bd b XX -> shares_face 3 fc b XX = false)
  /\ (j = seg_at bd b YY -> shares_face 3 fc b YY = false)
  /\ (k = seg_at bd b ZZ -> shares_face 3 fc b ZZ = false).

(** The place of an owned node among the nodes of its block in the three
    dimensional oracle: the nodes inside come first, then those of the three
    positive faces, of the three edges between them, and the corner. *)
Definition offset_3d (fc : FaceConnectivity) (bd : BlockData) (b i j k : Z) : Z :=
  let sx := seg_at bd b XX in
  let sy := seg_at bd b YY in
  let sz := seg_at bd b ZZ in
  let bx := Z.b2z (negb (shares_face 3 fc b XX)) in
  let by_ := Z.b2z (negb (shares_face 3 fc b YY)) in
  let bz := Z.b2z (negb (shares_face 3 fc b ZZ)) in
  match i =? sx, j =? sy, k =? sz with
  | false, false, false => i + j * sx + k * sx * sy
  | true, false, false => sx * sy * sz + j + k * sy
  | false, true, false => sx * sy * sz + bx * sy * sz + i + k * sx
  | false, false, true => sx * sy * sz + bx * sy * sz + by_ * sx * sz + i + j * sx
  | true, true, false => sx * sy * sz + sy * sz + sx * sz + bz * sx * sy + k
  | true, false, true =>
      sx * sy * sz + sy * sz + by_ * sx * sz + sx * sy + by_ * sz + j
  | false, true, true =>
      sx * sy * sz + bx * sy * sz + sx * sz + sx * sy + bx * sz + bx * sy + i
  | true, true, true => sx * sy * sz + sy * sz + sx * sz + sx * sy + sz + sy + sx
  end.

(** ** Blocks glued face to face *)

(** The place, in a row of [block_points], of the corner of a block at the
    ends [ends] of its axes (0 for the negative and 1 for the positive end
    of an axis), in the node order of the elements [add_block] writes:
    counter-clockwise in the plane of the first two axes, the plane at the
    negative end of the third axis first. *)
Definition corner_place (ends : list Z) : Z :=
  match ends with
  | [x; y] => if y =? 0 then x else 3 - x
  | [x; y; z] => 4 * z + (if y =? 0 then x else 3 - x)
  | _ => 0
  end.

(** The point at a corner of block [b]. *)
Definition corner_point (bd : BlockData) (b : Z) (ends : list Z) : option Z :=
  row ← block_points bd !! Z.to_nat b;
  row !! Z.to_nat (corner_place ends).

(** The face of [A] in the positive direction of [axis] is, corner for
    corner, the face of [B] in the negative direction of the same axis: the
    two blocks are glued with their axes aligned. *)
Definition glued (dim : Z) (bd : BlockData) (A axis B : Z) : Prop :=
  forall ends,
    length ends = Z.to_nat dim -> Forall (fun e => e = 0 \/ e = 1) ends ->
    ends !! Z.to_nat axis = Some 1 ->
    exists p, corner_point bd A ends = Some p
              /\ corner_point bd B (<[Z.to_nat axis := 0]> ends) = Some p.

(** Every shared face of the topology is glued with the axes aligned. *)
Definition aligned (dim : Z) (fc : FaceConnectivity) (bd : BlockData) : Prop :=
  forall A axis, valid_block bd A -> 0 <= axis < dim ->
    shares_face dim fc A axis = true ->
    glued dim bd A axis (neighbor dim fc A axis).

(** The grids of four blocks with their corner points: the points of the
    plane are numbered row by row, three to a row, and the points of the
    second plane of the three dimensional grid follow those of the first. *)
Definition with_block_points (bd : BlockData) (corners : list (list Z)) : BlockData :=
  {| scaling_factor := scaling_factor bd; dimension := dimension bd;
     points := points bd;
     block_points := corners;
     block_subdivisions := block_subdivisions bd;
     block_gradings := block_gradings bd;
     block_distribution := block_distribution bd;
     patch_names := patch_names bd; patch_types := patch_types bd;
     patch_points := patch_points bd |}.

Definition grid_corners : list (list Z) :=
  [[0; 1; 4; 3]; [1; 2; 5; 4]; [3; 4; 7; 6]; [4; 5; 8; 7]].

Definition glued_grid_2d : BlockData := with_block_points grid_2d grid_corners.

Definition glued_grid_3d : BlockData :=
  with_block_points grid_3d (map (fun row => row ++ map (Z.add 9) row) grid_corners).

(** ** A face glued with a quarter turn *)

(** Two blocks of 2 x 2 segments, block 1 to the right of block 0 and turned
    by a quarter: the face of block 0 at the positive end of its first axis
    is the face of block 1 at the negative end of its second axis. The
    points are numbered row by row, three to a row. *)
Definition turned_connectivity : FaceConnectivity :=
  let adjacent b face :=
    if (b =? 0) && (face =? Quad.XPOS) then Some 1
    else if (b =? 1) && (face =? Quad.YNEG) then Some 0
    else None in
  {| adjacent_element := fun b face =>
       match adjacent b face with
       | Some b' => block_element 2 b'
       | None => patch_element 2
       end;
     has_adjacent_element := fun b face => bool_decide (is_Some (adjacent b face)) |}.

Definition turned_2d : BlockData :=
  with_block_points (block_data 2 [[2; 2]; [2; 2]] [0; 2]) [[0; 1; 4; 3]; [4; 1; 2; 5]].

(** * Properties *)

#[local] Set Warnings "-clear-no-such-hyp".

(** ** Unsigned arithmetic *)

Lemma wrap_small z : is_Uint z -> wrap z = z.
Proof. unfold is_Uint, wrap. intros. by apply Z.mod_small. Qed.

Lemma wrap_is_Uint z : is_Uint (wrap z).
Proof. unfold is_Uint, wrap, Uint_modulus. apply Z.mod_pos_bound. lia. Qed.

Lemma wrap_wrap z : wrap (wrap z) = wrap z.
Proof. unfold wrap, Uint_modulus. apply Z.mod_mod. lia. Qed.

Lemma wrap_add_l a b : wrap (wrap a + b) = wrap (a + b).
Proof. unfold wrap. apply Zplus_mod_idemp_l. Qed.

Lemma wrap_add_r a b : wrap (a + wrap b) = wrap (a + b).
Proof. unfold wrap. apply Zplus_mod_idemp_r. Qed.

Lemma wrap_sub_l a b : wrap (wrap a - b) = wrap (a - b).
Proof. unfold wrap. apply Zminus_mod_idemp_l. Qed.

Lemma wrap_sub_r a b : wrap (a - wrap b) = wrap (a - b).
Proof. unfold wrap. apply Zminus_mod_idemp_r. Qed.

Lemma wrap_mul_l a b : wrap (wrap a * b) = wrap (a * b).
Proof. unfold wrap. apply Zmult_mod_idemp_l. Qed.

Lemma wrap_mul_r a b : wrap (a * wrap b) = wrap (a * b).
Proof. unfold wrap. apply Zmult_mod_idemp_r. Qed.

(** ** Local indices and ghost nodes *)

Lemma set_ghosts_same impl :
  BlockArrays.set_ghosts impl (BlockArrays.ghost_counter impl)
                         (BlockArrays.global_to_local impl) = impl.
Proof. by destruct impl. Qed.

Lemma local_index_owned b e c m gid :
  b <= gid < e -> local_index b e c m gid = (wrap (gid - b), c, m).
Proof.
  intros [H1 H2]. unfold local_index.
  destruct (Z.leb_spec b gid); [|lia]. destruct (Z.ltb_spec gid e); [|lia]. done.
Qed.

Lemma local_index_remote b e c m gid :
  ¬ (b <= gid < e) ->
  local_index b e c m gid =
    match m !! gid with
    | Some l => (l, c, m)
    | None => (wrap (wrap (e - b) + c), wrap (c + 1),
               <[gid := wrap (wrap (e - b) + c)]> m)
    end.
Proof.
  intros H. unfold local_index.
  destruct (Z.leb_spec b gid), (Z.ltb_spec gid e); simpl; try done. lia.
Qed.

(** C4. [to_local] on a global index [gid]: inside the local range the
    local index is [gid - local_nodes_begin]; outside of it the ghost map
    answers, and on a miss the index
    [local_nodes_end - local_nodes_begin + ghost_counter] (in [Uint]
    arithmetic) is stored for [gid] and returned, and the ghost counter goes
    up by one. [NodeIndices3D::operator()] does the same with the index
    [global_idx] gives. *)
Theorem to_local_allocates (impl : BlockArrays.Implementation) (gid : Z) :
  let b := BlockArrays.local_nodes_begin impl in
  let e := BlockArrays.local_nodes_end impl in
  let c := BlockArrays.ghost_counter impl in
  let m := BlockArrays.global_to_local impl in
  is_Uint gid -> is_Uint b ->
  (b <= gid < e -> BlockArrays.to_local impl gid = (gid - b, impl))
  /\ (¬ (b <= gid < e) -> forall l, m !! gid = Some l ->
        BlockArrays.to_local impl gid = (l, impl))
  /\ (¬ (b <= gid < e) -> m !! gid = None ->
        let lid := wrap (wrap (e - b) + c) in
        BlockArrays.to_local impl gid
        = (lid, BlockArrays.set_ghosts impl (wrap (c + 1)) (<[gid := lid]> m)))
  /\ (forall depth n block i j k,
        NodeIndices3D.global_idx depth n block i j k = Ok gid ->
        NodeIndices3D.m_local_nodes_begin n = b ->
        NodeIndices3D.m_local_nodes_end n = e ->
        NodeIndices3D.ghost_counter n = c ->
        NodeIndices3D.global_to_local n = m ->
        exists n',
          NodeIndices3D.call depth n block i j k
          = Ok ((BlockArrays.to_local impl gid).1, n')
          /\ NodeIndices3D.ghost_counter n'
             = BlockArrays.ghost_counter (BlockArrays.to_local impl gid).2
          /\ NodeIndices3D.global_to_local n'
             = BlockArrays.global_to_local (BlockArrays.to_local impl gid).2).
Proof.
  intros b e c m Hgid Hb. unfold BlockArrays.to_local. fold b e c m.
  repeat split.
  - intros Hin. rewrite local_index_owned by done.
    rewrite wrap_small by (unfold is_Uint in *; lia).
    by rewrite set_ghosts_same.
  - intros Hout l Hl. rewrite local_index_remote, Hl by done.
    by rewrite set_ghosts_same.
  - intros Hout Hmiss. by rewrite local_index_remote, Hmiss by done.
  - intros depth n block i j k Hidx Hnb Hne Hnc Hnm.
    unfold NodeIndices3D.call. rewrite Hidx. simpl.
    rewrite Hnb, Hne, Hnc, Hnm.
    destruct (local_index b e c m gid) as [[lid c'] m']. simpl. eauto.
Qed.

(** The local node 12 and the remote node 25 on the sample implementation. *)
Lemma to_local_allocates_witness :
  is_Uint 12 /\ is_Uint 10
  /\ BlockArrays.to_local sample_implementation 12 = (2, sample_implementation)
  /\ BlockArrays.to_local sample_implementation 25
     = (10, BlockArrays.set_ghosts sample_implementation 1 {[25 := 10]}).
Proof.
  assert (H12 : is_Uint 12) by (unfold is_Uint, Uint_modulus; lia).
  assert (H25 : is_Uint 25) by (unfold is_Uint, Uint_modulus; lia).
  assert (H10 : is_Uint 10) by (unfold is_Uint, Uint_modulus; lia).
  split; [exact H12|]. split; [exact H10|]. split.
  - destruct (to_local_allocates sample_implementation 12 H12 H10) as (Howned & _).
    apply Howned. unfold sample_implementation; simpl; lia.
  - destruct (to_local_allocates sample_implementation 25 H25 H10) as (_ & _ & Hmiss & _).
    apply Hmiss; unfold sample_implementation; simpl; [lia|done].
Defined.

Lemma ghost_inv_empty n : ghost_inv n ∅ 0 ∅.
Proof.
  split.
  - apply dom_empty_L.
  - by rewrite size_empty.
  - intros g l H. by rewrite lookup_empty in H.
  - intros l H. lia.
  - intros g1 g2 l H. by rewrite lookup_empty in H.
Qed.

Lemma ghost_inv_step b e seen c m gid :
  is_Uint b -> is_Uint e -> b <= e ->
  ghost_inv (e - b) seen c m ->
  e - b + c + 1 < Uint_modulus ->
  let '(_, c', m') := local_index b e c m gid in
  ghost_inv (e - b) (if decide (b <= gid < e) then seen else {[gid]} ∪ seen) c' m'
  /\ c <= c' <= c + 1.
Proof.
  intros Hb He Hbe Hinv Hroom.
  assert (Hc : 0 <= c) by (rewrite (inv_count _ _ _ _ Hinv); lia).
  destruct (decide (b <= gid < e)) as [Hin|Hout].
  - rewrite local_index_owned by done. split; [done|lia].
  - rewrite local_index_remote by done.
    destruct (m !! gid) as [l|] eqn:Hlook.
    + split; [|lia].
      assert (gid ∈ seen) by (rewrite <- (inv_dom _ _ _ _ Hinv); apply elem_of_dom; eauto).
      replace ({[gid]} ∪ seen) with seen by set_solver. done.
    + assert (Hnew : gid ∉ seen).
      { rewrite <- (inv_dom _ _ _ _ Hinv). by apply not_elem_of_dom. }
      rewrite (wrap_small (e - b)) by (unfold is_Uint in *; lia).
      rewrite (wrap_small (e - b + c)) by (unfold is_Uint in *; lia).
      rewrite (wrap_small (c + 1)) by (unfold is_Uint in *; lia).
      split; [|lia]. split.
      * rewrite dom_insert_L. by rewrite (inv_dom _ _ _ _ Hinv).
      * rewrite size_union by set_solver. rewrite size_singleton.
        rewrite (inv_count _ _ _ _ Hinv). lia.
      * intros g l. rewrite lookup_insert. case_decide.
        -- intros [= <-]. lia.
        -- intros H'. apply (inv_values _ _ _ _ Hinv) in H'. lia.
      * intros l Hl. destruct (decide (l = e - b + c)) as [->|Hne].
        -- exists gid. by rewrite lookup_insert_eq.
        -- destruct (inv_onto _ _ _ _ Hinv l) as [g Hg]; [lia|].
           exists g. rewrite lookup_insert_ne; [done|]. intros <-. congruence.
      * intros g1 g2 l. rewrite !lookup_insert. repeat case_decide; subst.
        -- done.
        -- intros [= <-] H'. apply (inv_values _ _ _ _ Hinv) in H'. lia.
        -- intros H' [= <-]. apply (inv_values _ _ _ _ Hinv) in H'. lia.
        -- apply (inv_inj _ _ _ _ Hinv).
Qed.

Lemma remote_gids_cons b e gid gids :
  remote_gids b e (gid :: gids) =
  (if decide (b <= gid < e) then remote_gids b e gids else {[gid]} ∪ remote_gids b e gids).
Proof.
  unfold remote_gids. rewrite filter_cons.
  destruct (decide (b <= gid < e)); destruct (decide (¬ (b <= gid < e))); try done.
Qed.

Lemma ghost_requests_inv b e gids : forall seen c m,
  is_Uint b -> is_Uint e -> b <= e ->
  ghost_inv (e - b) seen c m ->
  e - b + c + Z.of_nat (length gids) < Uint_modulus ->
  let '(c', m') := ghost_requests b e gids (c, m) in
  ghost_inv (e - b) (remote_gids b e gids ∪ seen) c' m'.
Proof.
  induction gids as [|gid gids IH]; intros seen c m Hb He Hbe Hinv Hroom.
  - simpl. replace (remote_gids b e [] ∪ seen) with seen; [done|].
    unfold remote_gids. simpl. set_solver.
  - simpl. simpl in Hroom.
    pose proof (ghost_inv_step b e seen c m gid Hb He Hbe Hinv ltac:(lia)) as Hstep.
    destruct (local_index b e c m gid) as [[l c1] m1]. destruct Hstep as [Hinv1 Hc1].
    specialize (IH _ c1 m1 Hb He Hbe Hinv1 ltac:(lia)).
    fold (ghost_requests b e gids (c1, m1)).
    destruct (ghost_requests b e gids (c1, m1)) as [c' m'].
    rewrite remote_gids_cons.
    destruct (decide (b <= gid < e)); [done|].
    replace ({[gid]} ∪ remote_gids b e gids ∪ seen)
      with (remote_gids b e gids ∪ ({[gid]} ∪ seen)) by set_solver.
    done.
Qed.

Lemma requested_ghost_requests gids : forall impl,
  requested impl gids =
  let '(c, m) := ghost_requests (BlockArrays.local_nodes_begin impl)
                   (BlockArrays.local_nodes_end impl) gids
                   (BlockArrays.ghost_counter impl, BlockArrays.global_to_local impl) in
  BlockArrays.set_ghosts impl c m.
Proof.
  induction gids as [|gid gids IH]; intros impl.
  - simpl. by rewrite set_ghosts_same.
  - unfold requested, ghost_requests. simpl.
    fold (requested (BlockArrays.to_local impl gid).2 gids).
    rewrite IH. unfold BlockArrays.to_local.
    destruct (local_index _ _ _ _ gid) as [[l c1] m1]. simpl.
    fold (ghost_requests (BlockArrays.local_nodes_begin impl)
            (BlockArrays.local_nodes_end impl) gids (c1, m1)).
    by destruct (ghost_requests _ _ gids (c1, m1)).
Qed.

(** C10. After any sequence of requests to [to_local] that starts from an
    empty ghost map and leaves room in a [Uint] for the local indices: the
    ghost map is injective, its values are exactly the indices from the
    number of local nodes up to that number plus the ghost counter, a
    remote index that has been asked for before gets its stored local index
    back while the implementation stays as it is, and the ghost counter is
    the number of distinct remote indices asked for. *)
Theorem ghost_map_invariant (impl : BlockArrays.Implementation) (gids : list Z) :
  let b := BlockArrays.local_nodes_begin impl in
  let e := BlockArrays.local_nodes_end impl in
  BlockArrays.ghost_counter impl = 0 ->
  BlockArrays.global_to_local impl = ∅ ->
  is_Uint b -> is_Uint e -> b <= e ->
  e - b + Z.of_nat (length gids) < Uint_modulus ->
  let st := requested impl gids in
  let m := BlockArrays.global_to_local st in
  (forall g1 g2 l, m !! g1 = Some l -> m !! g2 = Some l -> g1 = g2)
  /\ (forall l, (exists g, m !! g = Some l)
                <-> e - b <= l < e - b + BlockArrays.ghost_counter st)
  /\ (forall gid, gid ∈ gids -> ¬ (b <= gid < e) ->
        exists l, m !! gid = Some l /\ BlockArrays.to_local st gid = (l, st))
  /\ BlockArrays.ghost_counter st = Z.of_nat (size (remote_gids b e gids)).
Proof.
  intros b e Hc Hm Hb He Hbe Hroom st m.
  pose proof (ghost_requests_inv b e gids ∅ 0 ∅ Hb He Hbe (ghost_inv_empty _) ltac:(lia)) as Hinv.
  assert (Hst : st = let '(c, m) := ghost_requests b e gids (0, ∅) in
                     BlockArrays.set_ghosts impl c m).
  { unfold st. rewrite requested_ghost_requests. fold b e. by rewrite Hc, Hm. }
  destruct (ghost_requests b e gids (0, ∅)) as [c' m'].
  replace (remote_gids b e gids ∪ ∅) with (remote_gids b e gids) in Hinv by set_solver.
  assert (Hm' : m = m') by (unfold m; by rewrite Hst).
  assert (Hc' : BlockArrays.ghost_counter st = c') by (by rewrite Hst).
  rewrite Hc', Hm'. split; [|split; [|split]].
  - apply (inv_inj _ _ _ _ Hinv).
  - intros l. split.
    + intros [g Hg]. by apply (inv_values _ _ _ _ Hinv) in Hg.
    + intros Hl. by apply (inv_onto _ _ _ _ Hinv).
  - intros gid Hin Hout.
    assert (Hdom : gid ∈ dom m').
    { rewrite (inv_dom _ _ _ _ Hinv). unfold remote_gids.
      apply elem_of_list_to_set, list_elem_of_filter. done. }
    apply elem_of_dom in Hdom as [l Hl]. exists l. split; [done|].
    unfold BlockArrays.to_local.
    assert (Hbs : BlockArrays.local_nodes_begin st = b) by (by rewrite Hst).
    assert (Hes : BlockArrays.local_nodes_end st = e) by (by rewrite Hst).
    assert (Hms : BlockArrays.global_to_local st = m') by (by rewrite Hst).
    rewrite Hbs, Hes, Hc', Hms.
    rewrite local_index_remote, Hl by done.
    rewrite <- Hc', <- Hms. by rewrite set_ghosts_same.
  - apply (inv_count _ _ _ _ Hinv).
Qed.

(** Four requests, two of them for the same remote node. *)
Lemma ghost_map_invariant_witness :
  BlockArrays.ghost_counter
    (requested sample_implementation [25; 12; 30; 25])
  = Z.of_nat (size (remote_gids 10 20 [25; 12; 30; 25])).
Proof.
  apply (ghost_map_invariant sample_implementation [25; 12; 30; 25]);
    try reflexivity; unfold sample_implementation, is_Uint, Uint_modulus; simpl; lia.
Defined.

(** ** Outcomes and vectors *)
Lemma bind_Ok {A B} (m : Outcome A) (f : A -> Outcome B) b :
  (x ← m; f x) = Ok b -> exists a, m = Ok a /\ f a = Ok b.
Proof. destruct m; simpl; try discriminate. eauto. Qed.

Lemma at_Ok {A} (v : list A) i a : at_ v i = Ok a <-> 0 <= i /\ v !! Z.to_nat i = Some a.
Proof.
  unfold at_. destruct (Z.ltb_spec i 0).
  - split; [discriminate|lia].
  - destruct (v !! Z.to_nat i); split; intros; try discriminate; try (split; [lia|congruence]).
    + destruct H0 as [_ [= ->]]. done.
    + destruct H0; discriminate.
Qed.

Lemma at_lookup {A} (v : list A) i a : 0 <= i -> v !! Z.to_nat i = Some a -> at_ v i = Ok a.
Proof. intros. by apply at_Ok. Qed.

Lemma for_each_length {A B} (f : A -> Outcome B) l r :
  for_each f l = Ok r -> length r = length l.
Proof.
  revert r. induction l as [|a l IH]; simpl; intros r H.
  - by injection H as <-.
  - apply bind_Ok in H as (b & Hb & H). apply bind_Ok in H as (bs & Hbs & H).
    injection H as <-. simpl. f_equal. eauto.
Qed.


Lemma indices_lookup n i : 0 <= i < n -> indices n !! Z.to_nat i = Some i.
Proof.
  intros. unfold indices. rewrite lookup_seqZ. split; lia.
Qed.

Lemma indices_length n : 0 <= n -> length (indices n) = Z.to_nat n.
Proof. intros. unfold indices. by rewrite length_seqZ. Qed.

Lemma accumulate_length last l : length (accumulate last l) = length l.
Proof. revert last. induction l; simpl; intros; [done|]. by rewrite IHl. Qed.
(** ** The global index oracles *)

Lemma at_indices_map {A} (f : Z -> A) n b :
  0 <= b < n -> at_ (map f (indices n)) b = Ok (f b).
Proof.
  intros. apply at_lookup; [lia|].
  rewrite list_lookup_fmap, indices_lookup by lia. done.
Qed.

Lemma at_first_node last counts b :
  0 <= b <= Z.of_nat (length counts) ->
  at_ (last :: accumulate last counts) b
  = Ok (first_node (last :: accumulate last counts) b).
Proof.
  intros. unfold first_node.
  destruct ((last :: accumulate last counts) !! Z.to_nat b) as [g|] eqn:E.
  - by apply at_lookup; [lia|].
  - apply lookup_ge_None in E. simpl in E. rewrite accumulate_length in E. lia.
Qed.

Lemma at_segments bd b :
  valid_block bd b -> at_ (block_subdivisions bd) b = Ok (segments_of bd b).
Proof.
  intros [H1 H2]. unfold segments_of.
  destruct (block_subdivisions bd !! Z.to_nat b) eqn:E.
  - by apply at_lookup.
  - apply lookup_ge_None in E. lia.
Qed.

Lemma segments_of_2 bd b :
  length (segments_of bd b) = 2%nat ->
  segments_of bd b = [seg_at bd b 0; seg_at bd b 1].
Proof.
  unfold seg_at. destruct (segments_of bd b) as [|x [|y [|]]]; simpl; try done.
Qed.

Lemma segments_of_3 bd b :
  length (segments_of bd b) = 3%nat ->
  segments_of bd b = [seg_at bd b 0; seg_at bd b 1; seg_at bd b 2].
Proof.
  unfold seg_at. destruct (segments_of bd b) as [|x [|y [|z [|]]]]; simpl; try done.
Qed.

Section Oracle2D.
Variable fc : FaceConnectivity.
Variable bd : BlockData.
Variable rank nb_procs : Z.
Variable n : NodeIndices2D.t.
Hypothesis Hmake : NodeIndices2D.make fc bd rank nb_procs = Ok n.
Hypothesis Hconf : conforming 2 fc bd.

Let F := NodeIndices2D.block_first_nodes n.
Let sx b := seg_at bd b 0.
Let sy b := seg_at bd b 1.
Let share b axis := shares_face 2 fc b axis.
Let nbr b axis := neighbor 2 fc b axis.

Lemma oracle2D_fields :
  NodeIndices2D.m_face_connectivity n = fc
  /\ NodeIndices2D.m_block_data n = bd
  /\ NodeIndices2D.bounded n
     = map (NodeIndices2D.bounded_row fc) (indices (Z.of_nat (length (block_subdivisions bd))))
  /\ exists counts,
       length counts = length (block_subdivisions bd)
       /\ F = 0 :: accumulate 0 counts.
Proof.
  unfold F. pose proof Hmake as H. unfold NodeIndices2D.make in H.
  apply bind_Ok in H as (counts & Hcounts & H).
  apply bind_Ok in H as (dist & Hdist & H).
  apply bind_Ok in H as (lb & Hlb & H).
  apply bind_Ok in H as (le & Hle & H).
  injection H as <-. simpl. repeat split; try done.
  exists counts. split; [|done].
  apply for_each_length in Hcounts. rewrite Hcounts, indices_length by lia. lia.
Qed.

Lemma oracle2D_block b :
  valid_block bd b ->
  at_ (block_subdivisions (NodeIndices2D.m_block_data n)) b = Ok [sx b; sy b]
  /\ at_ F b = Ok (first_node F b)
  /\ at_ (NodeIndices2D.bounded n) b
     = Ok [negb (share b XX); negb (share b YY); negb (share b XX) && negb (share b YY)].
Proof.
  intros Hb. destruct oracle2D_fields as (Hfc & Hbd & Hbnd & counts & Hlen & HF).
  split; [|split].
  - rewrite Hbd, at_segments by done. f_equal. apply segments_of_2.
    by apply (conf_rows _ _ _ Hconf).
  - rewrite HF. apply at_first_node. unfold valid_block in Hb. lia.
  - rewrite Hbnd, at_indices_map by apply Hb.
    unfold NodeIndices2D.bounded_row, share, shares_face. simpl.
    by rewrite !negb_involutive.
Qed.

Lemma global_idx2D_step depth b i j :
  valid_block bd b ->
  NodeIndices2D.unchecked_idx (S depth) n b i j =
  match i =? sx b, j =? sy b with
  | false, false => Ok (wrap (first_node F b + i + j * sx b))
  | true, false =>
      if share b XX then Ok (wrap (first_node F (nbr b XX) + j * sx (nbr b XX)))
      else Ok (wrap (first_node F b + sx b * sy b + j))
  | false, true =>
      if share b YY then Ok (wrap (first_node F (nbr b YY) + i))
      else Ok (wrap (first_node F b + sx b * sy b
                     + Z.b2z (negb (share b XX)) * sy b + i))
  | true, true =>
      if share b XX then NodeIndices2D.unchecked_idx depth n (nbr b XX) 0 j
      else if share b YY then NodeIndices2D.unchecked_idx depth n (nbr b YY) i 0
      else Ok (wrap (first_node F b + sx b * sy b + sy b + sx b))
  end.
Proof.
  intros Hb. destruct (oracle2D_block b Hb) as (Hs & Hf & Hr).
  destruct oracle2D_fields as (Hfc & Hbd & _).
  simpl. rewrite Hs. simpl. fold F. rewrite Hf. simpl. rewrite Hr. simpl.
  rewrite Hfc.
  change (element_index (adjacent_element fc b Quad.XPOS)) with (nbr b XX).
  change (element_index (adjacent_element fc b Quad.YPOS)) with (nbr b YY).
  change (seg_at bd b 0) with (sx b). change (seg_at bd b 1) with (sy b).
  destruct (i =? sx b), (j =? sy b); try done.
  - destruct (share b XX) eqn:Ex; simpl; [done|].
    destruct (share b YY) eqn:Ey; simpl; [done|]. do 2 f_equal. lia.
  - destruct (share b XX) eqn:Ex; simpl; [|done].
    assert (Hn : valid_block bd (nbr b XX)) by (apply (conf_neighbors _ _ _ Hconf); [done|unfold XX; lia|done]).
    destruct (oracle2D_block _ Hn) as (Hs' & Hf' & _).
    rewrite Hs'. simpl. rewrite Hf'. done.
  - destruct (share b YY) eqn:Ey; simpl; [|done].
    assert (Hn : valid_block bd (nbr b YY)) by (apply (conf_neighbors _ _ _ Hconf); [done|unfold YY; lia|done]).
    destruct (oracle2D_block _ Hn) as (Hs' & Hf' & _).
    rewrite Hs'. simpl. rewrite Hf'. done.
Qed.

Hypothesis Hcorners : corners_closed 2 fc bd.

Lemma seg_pos b axis : valid_block bd b -> 0 <= axis < 2 -> 0 < seg_at bd b axis.
Proof. intros Hb Ha. by apply (conf_rows _ _ _ Hconf). Qed.

Ltac same_wrap := eexists; split; [reflexivity | first [reflexivity | do 2 f_equal; lia]].
Ltac eqb_true := rewrite (proj2 (Z.eqb_eq _ _)) by lia.
Ltac eqb_false := rewrite (proj2 (Z.eqb_neq _ _)) by lia.

Lemma shared_face_2D_x depth A j :
  valid_block bd A -> share A XX = true -> 0 <= j <= sy A ->
  same_gid (NodeIndices2D.unchecked_idx (S (S depth)) n A (sx A) j)
           (NodeIndices2D.unchecked_idx (S (S depth)) n (nbr A XX) 0 j).
Proof.
  intros HA Hx Hj.
  destruct (conf_neighbors _ _ _ Hconf A XX HA ltac:(unfold XX; lia) Hx) as [HB Hsegs].
  pose proof (Hsegs YY ltac:(unfold YY; lia) ltac:(done)) as Hy. fold (nbr A XX) in HB, Hy.
  change (seg_at bd (nbr A XX) YY) with (sy (nbr A XX)) in Hy.
  change (seg_at bd A YY) with (sy A) in Hy.
  pose proof (seg_pos _ XX HB ltac:(unfold XX; lia)) as HxB.
  change (seg_at bd (nbr A XX) XX) with (sx (nbr A XX)) in HxB.
  rewrite (global_idx2D_step _ A) by done.
  rewrite Z.eqb_refl, Hx.
  destruct (Z.eqb_spec j (sy A)) as [->|Hne].
  - (* the corner: both sides are the lookup in the neighbour *)
    rewrite (global_idx2D_step depth (nbr A XX)) by done.
    rewrite (global_idx2D_step (S depth) (nbr A XX)) by done.
    rewrite <- Hy. rewrite Z.eqb_refl. eqb_false.
    destruct (share (nbr A XX) YY); eexists; done.
  - rewrite (global_idx2D_step _ (nbr A XX)) by done.
    do 2 eqb_false. same_wrap.
Qed.

Lemma shared_face_2D_y depth A i :
  valid_block bd A -> share A YY = true -> 0 <= i <= sx A ->
  same_gid (NodeIndices2D.unchecked_idx (S (S depth)) n A i (sy A))
           (NodeIndices2D.unchecked_idx (S (S depth)) n (nbr A YY) i 0).
Proof.
  intros HA Hy Hi.
  destruct (conf_neighbors _ _ _ Hconf A YY HA ltac:(unfold YY; lia) Hy) as [HB Hsegs].
  pose proof (Hsegs XX ltac:(unfold XX; lia) ltac:(done)) as Hx. fold (nbr A YY) in HB, Hx.
  change (seg_at bd (nbr A YY) XX) with (sx (nbr A YY)) in Hx.
  change (seg_at bd A XX) with (sx A) in Hx.
  pose proof (seg_pos _ YY HB ltac:(unfold YY; lia)) as HyB.
  change (seg_at bd (nbr A YY) YY) with (sy (nbr A YY)) in HyB.
  rewrite (global_idx2D_step _ A) by done.
  rewrite Z.eqb_refl, Hy.
  destruct (Z.eqb_spec i (sx A)) as [->|Hne].
  - destruct (share A XX) eqn:Hsx.
    + (* both faces shared: the corner closes up *)
      destruct (conf_neighbors _ _ _ Hconf A XX HA ltac:(unfold XX; lia) Hsx) as [HC HsegsC].
      pose proof (HsegsC YY ltac:(unfold YY; lia) ltac:(done)) as HyC.
      fold (nbr A XX) in HC, HyC.
      change (seg_at bd (nbr A XX) YY) with (sy (nbr A XX)) in HyC.
      change (seg_at bd A YY) with (sy A) in HyC.
      pose proof (seg_pos _ XX HC ltac:(unfold XX; lia)) as HxC.
      change (seg_at bd (nbr A XX) XX) with (sx (nbr A XX)) in HxC.
      destruct (Hcorners A XX YY HA ltac:(unfold XX; lia) ltac:(unfold YY; lia) ltac:(done) Hsx Hy)
        as [HCy Hsame].
      destruct (Hcorners A YY XX HA ltac:(unfold YY; lia) ltac:(unfold XX; lia) ltac:(done) Hy Hsx)
        as [HBx _].
      fold (nbr A XX) (nbr A YY) in HCy, HBx, Hsame.
      fold (nbr (nbr A XX) YY) (nbr (nbr A YY) XX) in Hsame.
      fold (share (nbr A XX) YY) in HCy. fold (share (nbr A YY) XX) in HBx.
      rewrite (global_idx2D_step depth (nbr A XX)) by done.
      rewrite (global_idx2D_step _ (nbr A YY)) by done.
      rewrite <- HyC, <- Hx, !Z.eqb_refl. do 2 eqb_false.
      rewrite HCy, HBx, Hsame. same_wrap.
    + rewrite (global_idx2D_step depth (nbr A YY)) by done.
      rewrite (global_idx2D_step (S depth) (nbr A YY)) by done.
      rewrite <- Hx, Z.eqb_refl. eqb_false.
      destruct (share (nbr A YY) XX); eexists; done.
  - rewrite (global_idx2D_step _ (nbr A YY)) by done.
    do 2 eqb_false. same_wrap.
Qed.
End Oracle2D.

Section Oracle3D.
Variable fc : FaceConnectivity.
Variable bd : BlockData.
Variable rank nb_procs : Z.
Variable n : NodeIndices3D.t.
Hypothesis Hmake : NodeIndices3D.make fc bd rank nb_procs = Ok n.
Hypothesis Hconf : conforming 3 fc bd.

Local Abbreviation F := (NodeIndices3D.block_first_nodes n).
Local Abbreviation sx b := (seg_at bd b XX).
Local Abbreviation sy b := (seg_at bd b YY).
Local Abbreviation sz b := (seg_at bd b ZZ).
Local Abbreviation share b axis := (shares_face 3 fc b axis).
Local Abbreviation nbr b axis := (neighbor 3 fc b axis).
Local Abbreviation G := NodeIndices3D.unchecked_idx.

Lemma oracle3D_fields :
  NodeIndices3D.m_face_connectivity n = fc
  /\ NodeIndices3D.m_block_data n = bd
  /\ NodeIndices3D.bounded n
     = map (NodeIndices3D.bounded_row fc) (indices (Z.of_nat (length (block_subdivisions bd))))
  /\ exists counts,
       length counts = length (block_subdivisions bd)
       /\ F = 0 :: accumulate 0 counts.
Proof.
  pose proof Hmake as H. unfold NodeIndices3D.make in H.
  apply bind_Ok in H as (counts & Hcounts & H).
  apply bind_Ok in H as (dist & Hdist & H).
  apply bind_Ok in H as (lb & Hlb & H).
  apply bind_Ok in H as (le & Hle & H).
  injection H as <-. simpl. repeat split; try done.
  exists counts. split; [|done].
  apply for_each_length in Hcounts. rewrite Hcounts, indices_length by lia. lia.
Qed.

Lemma oracle3D_block b :
  valid_block bd b ->
  at_ (block_subdivisions (NodeIndices3D.m_block_data n)) b = Ok [sx b; sy b; sz b]
  /\ at_ F b = Ok (first_node F b)
  /\ at_ (NodeIndices3D.bounded n) b
     = Ok [negb (share b XX); negb (share b YY); negb (share b ZZ);
           negb (share b XX) && negb (share b YY);
           negb (share b XX) && negb (share b ZZ);
           negb (share b YY) && negb (share b ZZ);
           negb (share b XX) && negb (share b YY) && negb (share b ZZ)].
Proof.
  intros Hb. destruct oracle3D_fields as (Hfc & Hbd & Hbnd & counts & Hlen & HF).
  split; [|split].
  - rewrite Hbd, at_segments by done. f_equal. apply segments_of_3.
    by apply (conf_rows _ _ _ Hconf).
  - rewrite HF. apply at_first_node. unfold valid_block in Hb. lia.
  - rewrite Hbnd, at_indices_map by apply Hb.
    unfold NodeIndices3D.bounded_row, shares_face. simpl.
    by rewrite !negb_involutive.
Qed.

Lemma global_idx3D_step depth b i j k :
  valid_block bd b ->
  G (S depth) n b i j k =
  match i =? sx b, j =? sy b, k =? sz b with
  | false, false, false =>
      Ok (wrap (first_node F b + i + j * sx b + k * sx b * sy b))
  | true, false, false =>
      if share b XX then
        Ok (wrap (first_node F (nbr b XX) + j * sx (nbr b XX)
                  + k * sx (nbr b XX) * sy (nbr b XX)))
      else Ok (wrap (first_node F b + sx b * sy b * sz b + j + k * sy b))
  | false, true, false =>
      if share b YY then
        Ok (wrap (first_node F (nbr b YY) + i + k * sx (nbr b YY) * sy (nbr b YY)))
      else Ok (wrap (first_node F b + sx b * sy b * sz b
                     + Z.b2z (negb (share b XX)) * sy b * sz b + i + k * sx b))
  | false, false, true =>
      if share b ZZ then
        Ok (wrap (first_node F (nbr b ZZ) + i + j * sx (nbr b ZZ)))
      else Ok (wrap (first_node F b + sx b * sy b * sz b
                     + Z.b2z (negb (share b XX)) * sy b * sz b
                     + Z.b2z (negb (share b YY)) * sx b * sz b + i + j * sx b))
  | true, true, false =>
      if share b XX then G depth n (nbr b XX) 0 j k
      else if share b YY then G depth n (nbr b YY) i 0 k
      else Ok (wrap (first_node F b + sx b * sy b * sz b
                     + sy b * sz b + sx b * sz b
                     + Z.b2z (negb (share b ZZ)) * sx b * sy b + k))
  | true, false, true =>
      if share b XX then G depth n (nbr b XX) 0 j k
      else if share b ZZ then G depth n (nbr b ZZ) i j 0
      else Ok (wrap (first_node F b + sx b * sy b * sz b
                     + sy b * sz b
                     + Z.b2z (negb (share b YY)) * sx b * sz b
                     + sx b * sy b
                     + Z.b2z (negb (share b YY)) * sz b + j))
  | false, true, true =>
      if share b YY then G depth n (nbr b YY) i 0 k
      else if share b ZZ then G depth n (nbr b ZZ) i j 0
      else Ok (wrap (first_node F b + sx b * sy b * sz b
                     + Z.b2z (negb (share b XX)) * sy b * sz b
                     + sx b * sz b + sx b * sy b
                     + Z.b2z (negb (share b XX)) * sz b
                     + Z.b2z (negb (share b XX)) * sy b + i))
  | true, true, true =>
      if share b XX then G depth n (nbr b XX) 0 j k
      else if share b YY then G depth n (nbr b YY) i 0 k
      else if share b ZZ then G depth n (nbr b ZZ) i j 0
      else Ok (wrap (first_node F b + sx b * sy b * sz b
                     + sy b * sz b + sx b * sz b + sx b * sy b
                     + sz b + sy b + sx b))
  end.
Proof.
  intros Hb. destruct (oracle3D_block b Hb) as (Hs & Hf & Hr).
  destruct oracle3D_fields as (Hfc & Hbd & _).
  assert (Hnbr : forall axis, 0 <= axis < 3 -> share b axis = true ->
            at_ (block_subdivisions (NodeIndices3D.m_block_data n)) (nbr b axis)
            = Ok [sx (nbr b axis); sy (nbr b axis); sz (nbr b axis)]
            /\ at_ F (nbr b axis) = Ok (first_node F (nbr b axis))).
  { intros axis Ha Hsh.
    assert (Hn : valid_block bd (nbr b axis)) by (by apply (conf_neighbors _ _ _ Hconf)).
    destruct (oracle3D_block _ Hn) as (Hs' & Hf' & _). done. }
  simpl. rewrite Hs. simpl. rewrite Hf. simpl. rewrite Hr. simpl.
  rewrite Hfc.
  change (element_index (adjacent_element fc b Hexa.KSI_POS)) with (nbr b XX).
  change (element_index (adjacent_element fc b Hexa.ETA_POS)) with (nbr b YY).
  change (element_index (adjacent_element fc b Hexa.ZTA_POS)) with (nbr b ZZ).
  destruct (i =? sx b), (j =? sy b), (k =? sz b);
    destruct (share b XX) eqn:Ex; destruct (share b YY) eqn:Ey;
    destruct (share b ZZ) eqn:Ez; simpl; try reflexivity;
    try (do 2 f_equal; lia);
    try (destruct (Hnbr XX ltac:(unfold XX; lia) Ex) as [-> ->]; reflexivity);
    try (destruct (Hnbr YY ltac:(unfold YY; lia) Ey) as [-> ->]; reflexivity);
    try (destruct (Hnbr ZZ ltac:(unfold ZZ; lia) Ez) as [-> ->]; reflexivity).
Qed.

Hypothesis Hcorners : corners_closed 3 fc bd.

Lemma axis_XX : 0 <= XX < 3. Proof. unfold XX; lia. Qed.
Lemma axis_YY : 0 <= YY < 3. Proof. unfold YY; lia. Qed.
Lemma axis_ZZ : 0 <= ZZ < 3. Proof. unfold ZZ; lia. Qed.

Lemma segments_positive b :
  valid_block bd b -> 0 < sx b /\ 0 < sy b /\ 0 < sz b.
Proof.
  intros Hb. destruct (conf_rows _ _ _ Hconf b Hb) as [_ H].
  auto using axis_XX, axis_YY, axis_ZZ.
Qed.

Lemma across_XX b :
  valid_block bd b -> share b XX = true ->
  valid_block bd (nbr b XX) /\ sy (nbr b XX) = sy b /\ sz (nbr b XX) = sz b.
Proof.
  intros Hb Hs. destruct (conf_neighbors _ _ _ Hconf b XX Hb axis_XX Hs) as [Hv H].
  split; [done|]. split; apply H; auto using axis_YY, axis_ZZ; done.
Qed.

Lemma across_YY b :
  valid_block bd b -> share b YY = true ->
  valid_block bd (nbr b YY) /\ sx (nbr b YY) = sx b /\ sz (nbr b YY) = sz b.
Proof.
  intros Hb Hs. destruct (conf_neighbors _ _ _ Hconf b YY Hb axis_YY Hs) as [Hv H].
  split; [done|]. split; apply H; auto using axis_XX, axis_ZZ; done.
Qed.

Lemma across_ZZ b :
  valid_block bd b -> share b ZZ = true ->
  valid_block bd (nbr b ZZ) /\ sx (nbr b ZZ) = sx b /\ sy (nbr b ZZ) = sy b.
Proof.
  intros Hb Hs. destruct (conf_neighbors _ _ _ Hconf b ZZ Hb axis_ZZ Hs) as [Hv H].
  split; [done|]. split; apply H; auto using axis_XX, axis_YY; done.
Qed.

(** What is known of a block: it is valid and its segments are positive;
    and of the block across a shared face. *)
Ltac know b :=
  match goal with
  | Hb : valid_block bd b |- _ =>
      let H := fresh "Hpos" in pose proof (segments_positive b Hb) as H;
      destruct H as (? & ? & ?)
  end.
Ltac cross_XX b :=
  match goal with
  | Hb : valid_block bd b, Hs : share b XX = true |- _ =>
      let H := fresh in pose proof (across_XX b Hb Hs) as H;
      destruct H as (? & ? & ?); know (nbr b XX)
  end.
Ltac cross_YY b :=
  match goal with
  | Hb : valid_block bd b, Hs : share b YY = true |- _ =>
      let H := fresh in pose proof (across_YY b Hb Hs) as H;
      destruct H as (? & ? & ?); know (nbr b YY)
  end.
Ltac cross_ZZ b :=
  match goal with
  | Hb : valid_block bd b, Hs : share b ZZ = true |- _ =>
      let H := fresh in pose proof (across_ZZ b Hb Hs) as H;
      destruct H as (? & ? & ?); know (nbr b ZZ)
  end.
(** The corner of [b] between two shared faces closes up. *)
Ltac corner b d e :=
  match goal with
  | Hb : valid_block bd b, Hd : share b d = true, He : share b e = true |- _ =>
      let H := fresh in
      let H' := fresh in
      assert (H : 0 <= d < 3) by (unfold XX, YY, ZZ; lia);
      assert (H' : 0 <= e < 3) by (unfold XX, YY, ZZ; lia);
      let C := fresh in
      pose proof (Hcorners b d e Hb H H' ltac:(done) Hd He) as C;
      destruct C as (? & ?); clear H H'
  end.
(** Unfold the lookups in the blocks that are known to be valid and decide
    the comparisons and the shared faces that are known. *)
Ltac decide_eqb :=
  repeat match goal with
  | |- context [?a =? ?b] =>
      first [ rewrite (proj2 (Z.eqb_eq a b)) by lia
            | rewrite (proj2 (Z.eqb_neq a b)) by lia ]
  end.
Ltac decide_share :=
  repeat match goal with
  | H : shares_face 3 fc ?b ?a = _ |- context [shares_face 3 fc ?b ?a] => rewrite H
  end.
Ltac lookup :=
  repeat match goal with
  | Hb : valid_block bd ?b |- context [G (S ?d) n ?b ?i ?j ?k] =>
      rewrite (global_idx3D_step d b i j k Hb); decide_eqb; decide_share
  end.
Ltac same_block :=
  match goal with
  | |- Ok (wrap ?e1) = Ok (wrap ?e2) =>
      match e1 with
      | context [first_node _ ?t1] =>
          match e2 with
          | context [first_node _ ?t2] =>
              let H := fresh in
              assert (H : t1 = t2) by congruence;
              rewrite H; do 2 f_equal; lia
          end
      end
  end.
Ltac same_wrap :=
  first
    [ exfalso; congruence
    | eexists; split;
      [ reflexivity | first [ reflexivity | do 2 f_equal; lia | same_block ] ] ].
(** Where two shared faces of a block are known, its corner closes up:
    the faces of the two neighbours are shared, and the neighbour across
    two faces is written with the lower axis first. *)
Ltac close_corner b d e :=
  lazymatch goal with
  | H : shares_face 3 fc (neighbor 3 fc b d) e = true |- _ => fail
  | Hb : valid_block bd b, Hd : shares_face 3 fc b d = true,
    He : shares_face 3 fc b e = true |- _ =>
      let Hd' := fresh in
      let He' := fresh in
      assert (Hd' : 0 <= d < 3) by (unfold XX, YY, ZZ; lia);
      assert (He' : 0 <= e < 3) by (unfold XX, YY, ZZ; lia);
      let C1 := fresh in
      let C2 := fresh in
      pose proof (Hcorners b d e Hb Hd' He' ltac:(done) Hd He) as C1;
      pose proof (Hcorners b e d Hb He' Hd' ltac:(done) He Hd) as C2;
      destruct C1 as (? & _); destruct C2 as (? & C2);
      rewrite ?C2 in *; clear Hd' He'
  end.
Ltac close_corners :=
  repeat match goal with
  | Hd : shares_face 3 fc ?b XX = true, He : shares_face 3 fc ?b YY = true |- _ =>
      close_corner b XX YY
  | Hd : shares_face 3 fc ?b XX = true, He : shares_face 3 fc ?b ZZ = true |- _ =>
      close_corner b XX ZZ
  | Hd : shares_face 3 fc ?b YY = true, He : shares_face 3 fc ?b ZZ = true |- _ =>
      close_corner b YY ZZ
  end.
Ltac cross b a :=
  lazymatch a with
  | XX => cross_XX b
  | YY => cross_YY b
  | ZZ => cross_ZZ b
  end.
Ltac cross_all :=
  repeat match goal with
  | H : shares_face 3 fc ?b ?a = true |- _ =>
      lazymatch goal with
      | Hv : valid_block bd (neighbor 3 fc b a) |- _ => fail
      | _ => cross b a
      end
  end.
(** Follow the lookups through the blocks, splitting on the faces whose
    sharing decides the way. *)
Ltac follow :=
  repeat (cross_all; close_corners; cross_all; lookup;
          try match goal with
          | |- context [if shares_face 3 fc ?b ?a then _ else _] =>
              let E := fresh "E" in
              destruct (shares_face 3 fc b a) eqn:E
          end).

Lemma shared_face_3D_x depth A j k :
  valid_block bd A -> share A XX = true -> 0 <= j <= sy A -> 0 <= k <= sz A ->
  same_gid (G (S (S (S depth))) n A (sx A) j k)
           (G (S (S (S depth))) n (nbr A XX) 0 j k).
Proof.
  intros HA Hx Hj Hk. know A. cross_XX A.
  destruct (Z.eqb_spec j (sy A)) as [->|Hj'];
    destruct (Z.eqb_spec k (sz A)) as [->|Hk']; follow; same_wrap.
Qed.

Lemma shared_face_3D_y depth A i k :
  valid_block bd A -> share A YY = true -> 0 <= i <= sx A -> 0 <= k <= sz A ->
  same_gid (G (S (S (S depth))) n A i (sy A) k)
           (G (S (S (S depth))) n (nbr A YY) i 0 k).
Proof.
  intros HA Hy Hi Hk. know A. cross_YY A.
  destruct (Z.eqb_spec i (sx A)) as [->|Hi'];
    destruct (Z.eqb_spec k (sz A)) as [->|Hk']; follow; same_wrap.
Qed.

Lemma shared_face_3D_z depth A i j :
  valid_block bd A -> share A ZZ = true -> 0 <= i <= sx A -> 0 <= j <= sy A ->
  same_gid (G (S (S (S depth))) n A i j (sz A))
           (G (S (S (S depth))) n (nbr A ZZ) i j 0).
Proof.
  intros HA Hz Hi Hj. know A. cross_ZZ A.
  destruct (Z.eqb_spec i (sx A)) as [->|Hi'];
    destruct (Z.eqb_spec j (sy A)) as [->|Hj']; follow; same_wrap.
Qed.
End Oracle3D.
(** ** Independence of the rank *)

Ltac same_scrutinee :=
  repeat match goal with
  | |- match ?x with _ => _ end = match ?x with _ => _ end =>
      destruct x; simpl; try reflexivity
  | |- (if ?x then _ else _) = (if ?x then _ else _) =>
      destruct x; simpl; try reflexivity
  end.

Lemma global_idx3D_ext n1 n2 :
  NodeIndices3D.block_first_nodes n1 = NodeIndices3D.block_first_nodes n2 ->
  NodeIndices3D.bounded n1 = NodeIndices3D.bounded n2 ->
  NodeIndices3D.m_face_connectivity n1 = NodeIndices3D.m_face_connectivity n2 ->
  NodeIndices3D.m_block_data n1 = NodeIndices3D.m_block_data n2 ->
  forall depth b i j k,
    NodeIndices3D.global_idx depth n1 b i j k = NodeIndices3D.global_idx depth n2 b i j k.
Proof.
  intros HF Hb Hfc Hbd. induction depth as [|depth IH]; intros b i j k; [done|].
  simpl. rewrite HF, Hb, Hfc, Hbd.
  unfold mbind, Outcome_bind, outcome_bind.
  same_scrutinee; by rewrite IH.
Qed.

Lemma global_idx2D_ext n1 n2 :
  NodeIndices2D.block_first_nodes n1 = NodeIndices2D.block_first_nodes n2 ->
  NodeIndices2D.bounded n1 = NodeIndices2D.bounded n2 ->
  NodeIndices2D.m_face_connectivity n1 = NodeIndices2D.m_face_connectivity n2 ->
  NodeIndices2D.m_block_data n1 = NodeIndices2D.m_block_data n2 ->
  forall depth b i j,
    NodeIndices2D.global_idx depth n1 b i j = NodeIndices2D.global_idx depth n2 b i j.
Proof.
  intros HF Hb Hfc Hbd. induction depth as [|depth IH]; intros b i j; [done|].
  simpl. rewrite HF, Hb, Hfc, Hbd.
  unfold mbind, Outcome_bind, outcome_bind.
  same_scrutinee; by rewrite IH.
Qed.

Lemma make3D_topology fc bd rank nb_procs n :
  NodeIndices3D.make fc bd rank nb_procs = Ok n ->
  NodeIndices3D.m_face_connectivity n = fc
  /\ NodeIndices3D.m_block_data n = bd
  /\ NodeIndices3D.bounded n
     = map (NodeIndices3D.bounded_row fc) (indices (Z.of_nat (length (block_subdivisions bd))))
  /\ exists counts,
       for_each (fun block =>
              segments ← at_ (block_subdivisions bd) block;
              row ← at_ (map (NodeIndices3D.bounded_row fc)
                             (indices (Z.of_nat (length (block_subdivisions bd))))) block;
              NodeIndices3D.block_nb_nodes row segments)
            (indices (Z.of_nat (length (block_subdivisions bd)))) = Ok counts
       /\ NodeIndices3D.block_first_nodes n = 0 :: accumulate 0 counts.
Proof.
  unfold NodeIndices3D.make. intros H.
  apply bind_Ok in H as (counts & Hcounts & H).
  apply bind_Ok in H as (dist & Hdist & H).
  apply bind_Ok in H as (lb & Hlb & H).
  apply bind_Ok in H as (le & Hle & H).
  injection H as <-. simpl. eauto 10.
Qed.

Lemma make2D_topology fc bd rank nb_procs n :
  NodeIndices2D.make fc bd rank nb_procs = Ok n ->
  NodeIndices2D.m_face_connectivity n = fc
  /\ NodeIndices2D.m_block_data n = bd
  /\ NodeIndices2D.bounded n
     = map (NodeIndices2D.bounded_row fc) (indices (Z.of_nat (length (block_subdivisions bd))))
  /\ exists counts,
       for_each (fun block =>
              segments ← at_ (block_subdivisions bd) block;
              row ← at_ (map (NodeIndices2D.bounded_row fc)
                             (indices (Z.of_nat (length (block_subdivisions bd))))) block;
              NodeIndices2D.block_nb_nodes row segments)
            (indices (Z.of_nat (length (block_subdivisions bd)))) = Ok counts
       /\ NodeIndices2D.block_first_nodes n = 0 :: accumulate 0 counts.
Proof.
  unfold NodeIndices2D.make. intros H.
  apply bind_Ok in H as (counts & Hcounts & H).
  apply bind_Ok in H as (dist & Hdist & H).
  apply bind_Ok in H as (lb & Hlb & H).
  apply bind_Ok in H as (le & Hle & H).
  injection H as <-. simpl. eauto 10.
Qed.

(** C9. The global index of a node is the same for the oracles of two
    processes: oracles built from one topology for the ranks [rank1] and
    [rank2] answer every lookup alike. *)
Theorem global_idx_rank_independent :
  (forall fc bd nb_procs rank1 rank2 n1 n2,
     NodeIndices3D.make fc bd rank1 nb_procs = Ok n1 ->
     NodeIndices3D.make fc bd rank2 nb_procs = Ok n2 ->
     forall depth block i j k,
       NodeIndices3D.global_idx depth n1 block i j k
       = NodeIndices3D.global_idx depth n2 block i j k)
  /\ (forall fc bd nb_procs rank1 rank2 n1 n2,
     NodeIndices2D.make fc bd rank1 nb_procs = Ok n1 ->
     NodeIndices2D.make fc bd rank2 nb_procs = Ok n2 ->
     forall depth block i j,
       NodeIndices2D.global_idx depth n1 block i j
       = NodeIndices2D.global_idx depth n2 block i j).
Proof.
  split; intros fc bd nb_procs rank1 rank2 n1 n2 H1 H2.
  - apply make3D_topology in H1 as (Hfc1 & Hbd1 & Hb1 & c1 & Hc1 & HF1).
    apply make3D_topology in H2 as (Hfc2 & Hbd2 & Hb2 & c2 & Hc2 & HF2).
    apply global_idx3D_ext; congruence.
  - apply make2D_topology in H1 as (Hfc1 & Hbd1 & Hb1 & c1 & Hc1 & HF1).
    apply make2D_topology in H2 as (Hfc2 & Hbd2 & Hb2 & c2 & Hc2 & HF2).
    apply global_idx2D_ext; congruence.
Qed.

(** The blocks and axes of a sample topology, one by one. *)
Ltac enumerate_block b :=
  match goal with
  | H : valid_block _ b |- _ =>
      unfold valid_block in H; simpl in H;
      let E := fresh in
      assert (E : b = 0 \/ b = 1 \/ b = 2 \/ b = 3) by lia;
      destruct E as [-> | [-> | [-> | ->]]]
  end.
Ltac enumerate_axis2 a :=
  let E := fresh in
  assert (E : a = 0 \/ a = 1) by lia; destruct E as [-> | ->].
Ltac enumerate_axis3 a :=
  let E := fresh in
  assert (E : a = 0 \/ a = 1 \/ a = 2) by lia; destruct E as [-> | [-> | ->]].

Lemma grid_2d_conforming : conforming 2 (grid_connectivity 2) grid_2d.
Proof.
  split.
  - intros b Hb. enumerate_block b; (split; [reflexivity|]);
      intros axis Ha; enumerate_axis2 axis; reflexivity.
  - intros b axis Hb Ha Hs. enumerate_block b; enumerate_axis2 axis;
      try discriminate Hs;
      (split; [unfold valid_block; simpl; vm_compute; split; congruence|]);
      intros other Ho Hne; enumerate_axis2 other; try congruence; reflexivity.
Qed.

Lemma grid_2d_closed : corners_closed 2 (grid_connectivity 2) grid_2d.
Proof.
  intros b d e Hb Hd He Hne Hsd Hse.
  enumerate_block b; enumerate_axis2 d; enumerate_axis2 e;
    try congruence; try discriminate Hsd; try discriminate Hse; split; reflexivity.
Qed.

Lemma grid_3d_conforming : conforming 3 (grid_connectivity 3) grid_3d.
Proof.
  split.
  - intros b Hb. enumerate_block b; (split; [reflexivity|]);
      intros axis Ha; enumerate_axis3 axis; reflexivity.
  - intros b axis Hb Ha Hs. enumerate_block b; enumerate_axis3 axis;
      try discriminate Hs;
      (split; [unfold valid_block; simpl; vm_compute; split; congruence|]);
      intros other Ho Hne; enumerate_axis3 other; try congruence; reflexivity.
Qed.

Lemma grid_3d_closed : corners_closed 3 (grid_connectivity 3) grid_3d.
Proof.
  intros b d e Hb Hd He Hne Hsd Hse.
  enumerate_block b; enumerate_axis3 d; enumerate_axis3 e;
    try congruence; try discriminate Hsd; try discriminate Hse; split; reflexivity.
Qed.

(** The oracles of the two processes of the sample grid. *)
Lemma global_idx_rank_independent_witness :
  exists n1 n2,
    NodeIndices3D.make (grid_connectivity 3) grid_3d 0 2 = Ok n1
    /\ NodeIndices3D.make (grid_connectivity 3) grid_3d 1 2 = Ok n2
    /\ NodeIndices3D.global_idx 3 n1 0 2 3 2 = NodeIndices3D.global_idx 3 n2 0 2 3 2.
Proof.
  eexists. eexists. split; [vm_compute; reflexivity|]. split; [vm_compute; reflexivity|].
  apply (proj1 global_idx_rank_independent (grid_connectivity 3) grid_3d 2 0 1);
    vm_compute; reflexivity.
Defined.

(** ** Node counts of the blocks *)

Lemma accumulate_lookup counts : forall last b,
  is_Uint last -> (b <= length counts)%nat ->
  (last :: accumulate last counts) !! b
  = Some (wrap (last + foldr Z.add 0 (take b counts))).
Proof.
  induction counts as [|c counts IH]; intros last b Hl Hb.
  - simpl in Hb. assert (b = 0%nat) as -> by lia. simpl.
    by rewrite Z.add_0_r, wrap_small.
  - destruct b as [|b]; simpl.
    + by rewrite Z.add_0_r, wrap_small.
    + simpl in Hb. rewrite IH by (auto using wrap_is_Uint; lia).
      f_equal. rewrite wrap_add_l. f_equal. lia.
Qed.

Lemma wrap_sum_map (f : Z -> Z) l :
  wrap (foldr Z.add 0 (map (fun b => wrap (f b)) l)) = wrap (foldr Z.add 0 (map f l)).
Proof.
  induction l as [|a l IH]; simpl; [done|].
  rewrite wrap_add_l. rewrite <- wrap_add_r, IH, wrap_add_r. done.
Qed.

Lemma for_each_map {A B} (f : A -> Outcome B) (g : A -> B) l r :
  for_each f l = Ok r -> (forall a b, a ∈ l -> f a = Ok b -> b = g a) -> r = map g l.
Proof.
  revert r. induction l as [|a l IH]; simpl; intros r H Hg.
  - by injection H as <-.
  - apply bind_Ok in H as (b & Hb & H). apply bind_Ok in H as (bs & Hbs & H).
    injection H as <-. f_equal.
    + apply Hg; [left|done].
    + apply IH; [done|]. intros a' b' Hin. apply Hg. by right.
Qed.

Lemma take_indices (b n : Z) : 0 <= b <= n -> take (Z.to_nat b) (indices n) = indices b.
Proof.
  intros. unfold indices, seqZ. rewrite <- fmap_take, take_seq. do 2 f_equal. lia.
Qed.

Lemma block_nb_nodes_3d fc bd b c :
  (segments ← at_ (block_subdivisions bd) b;
   row ← at_ (map (NodeIndices3D.bounded_row fc)
                  (indices (Z.of_nat (length (block_subdivisions bd))))) b;
   NodeIndices3D.block_nb_nodes row segments) = Ok c ->
  c = wrap (owned_nodes_3d fc bd b).
Proof.
  intros H. apply bind_Ok in H as (segs & Hsegs & H).
  apply bind_Ok in H as (row & Hrow & H).
  assert (Hb : valid_block bd b).
  { apply at_Ok in Hsegs as [? Hl]. apply lookup_lt_Some in Hl. unfold valid_block. lia. }
  rewrite at_indices_map in Hrow by apply Hb. injection Hrow as <-.
  rewrite at_segments in Hsegs by done. injection Hsegs as <-.
  unfold NodeIndices3D.block_nb_nodes in H.
  apply bind_Ok in H as (x & Hx & H). apply bind_Ok in H as (y & Hy & H).
  apply bind_Ok in H as (z & Hz & H).
  assert (Ex : x = seg_at bd b XX).
  { apply at_Ok in Hx as [_ Hx]. unfold seg_at. by rewrite Hx. }
  assert (Ey : y = seg_at bd b YY).
  { apply at_Ok in Hy as [_ Hy]. unfold seg_at. by rewrite Hy. }
  assert (Ez : z = seg_at bd b ZZ).
  { apply at_Ok in Hz as [_ Hz]. unfold seg_at. by rewrite Hz. }
  simpl in H. injection H as <-. subst x y z. f_equal.
  unfold owned_nodes_3d, shares_face. simpl. rewrite !negb_involutive.
  change (positive_face 3 XX) with Hexa.KSI_POS.
  change (positive_face 3 YY) with Hexa.ETA_POS.
  change (positive_face 3 ZZ) with Hexa.ZTA_POS.
  change (3 - 1) with DIM_2D.
  destruct (dimensionality (adjacent_element fc b Hexa.KSI_POS) =? DIM_2D),
           (dimensionality (adjacent_element fc b Hexa.ETA_POS) =? DIM_2D),
           (dimensionality (adjacent_element fc b Hexa.ZTA_POS) =? DIM_2D);
    simpl; ring.
Qed.

Lemma make3D_first_nodes fc bd rank nb_procs n b :
  NodeIndices3D.make fc bd rank nb_procs = Ok n ->
  0 <= b <= Z.of_nat (length (block_subdivisions bd)) ->
  NodeIndices3D.block_first_nodes n !! Z.to_nat b
  = Some (wrap (sum_over b (owned_nodes_3d fc bd))).
Proof.
  intros Hmake Hb.
  apply make3D_topology in Hmake as (_ & _ & _ & counts & Hcounts & ->).
  pose proof (for_each_length _ _ _ Hcounts) as Hlen.
  rewrite indices_length in Hlen by lia.
  apply (for_each_map _ (fun b => wrap (owned_nodes_3d fc bd b))) in Hcounts.
  2:{ intros a c _ H. by apply block_nb_nodes_3d. }
  rewrite accumulate_lookup by (unfold is_Uint, Uint_modulus; lia).
  rewrite Hcounts, firstn_map, take_indices by lia.
  rewrite Z.add_0_l. unfold sum_over. f_equal. apply wrap_sum_map.
Qed.

Lemma at_indices_map_lookup {A} (f : Z -> A) n d :
  0 <= d < n -> map f (indices n) !! Z.to_nat d = Some (f d).
Proof.
  intros Hd. change (map f (indices n)) with (f <$> indices n).
  by rewrite list_lookup_fmap, indices_lookup.
Qed.

Lemma positive_faces_at dims i face :
  at_ (BlockArrays.positive_faces dims) i = Ok face -> face = positive_face dims i.
Proof.
  intros H. apply at_Ok in H as [Hi H].
  unfold BlockArrays.positive_faces, positive_face in *.
  destruct (dims =? 3).
  - destruct (Z.to_nat i) as [|[|[|?]]] eqn:E; simpl in H; try done;
      injection H as <-.
    + by replace i with 0 by lia.
    + by replace i with 1 by lia.
    + by replace i with 2 by lia.
  - destruct (Z.to_nat i) as [|[|?]] eqn:E; simpl in H; try done;
      injection H as <-.
    + by replace i with 0 by lia.
    + by replace i with 1 by lia.
Qed.

Lemma fill_axes_spec fc dims b row axes : forall stride np blk np' blk',
  BlockArrays.fill_axes fc dims b row axes stride np blk = Ok (np', blk') ->
  BlockArrays.nb_points blk'
  = BlockArrays.nb_points blk
    ++ map (fun d => wrap (default 0 (row !! Z.to_nat d) + Z.b2z (block_bounded dims fc b d)))
           axes
  /\ wrap np'
     = wrap (np * foldr Z.mul 1
                    (map (fun d => default 0 (row !! Z.to_nat d)
                                   + Z.b2z (block_bounded dims fc b d)) axes))
  /\ BlockArrays.start_index blk' = BlockArrays.start_index blk.
Proof.
  induction axes as [|i axes IH]; simpl; intros stride np blk np' blk' H.
  - injection H as <- <-. by rewrite app_nil_r, Z.mul_1_r.
  - apply bind_Ok in H as (face & Hface & H).
    apply bind_Ok in H as (subdiv & Hsub & H).
    apply positive_faces_at in Hface as ->.
    apply at_Ok in Hsub as [_ Hsub].
    apply IH in H as (Hpts & Hnp & Hstart). simpl in *.
    rewrite Hsub. simpl.
    assert (Hb : (if negb (dimensionality (adjacent_element fc b (positive_face dims i))
                           =? dims) then 1 else 0)
                 = Z.b2z (block_bounded dims fc b i)).
    { unfold block_bounded. by destruct (negb _). }
    rewrite Hb in Hpts, Hnp.
    split; [|split; [|done]].
    + by rewrite Hpts, <- app_assoc.
    + rewrite Hnp, wrap_mul_l, <- Z.mul_assoc.
      rewrite <- wrap_mul_r, <- (wrap_mul_l (wrap _)), wrap_wrap, wrap_mul_l, wrap_mul_r.
      done.
Qed.

Lemma fill_blocks_spec fc dims subdivs idxs : forall start bs ps k b,
  BlockArrays.fill_blocks fc dims subdivs idxs start = Ok (bs, ps) ->
  is_Uint start ->
  idxs !! k = Some b ->
  exists blk,
    bs !! k = Some blk
    /\ BlockArrays.nb_points blk
       = map (fun d => wrap (axis_nodes dims fc subdivs b d)) (indices dims)
    /\ BlockArrays.start_index blk
       = wrap (start + foldr Z.add 0 (map (owned_nodes dims fc subdivs) (take k idxs))).
Proof.
  induction idxs as [|b0 idxs IH]; intros start bs ps k b H Hstart Hk; [done|].
  simpl in H.
  apply bind_Ok in H as (row & Hrow & H).
  apply bind_Ok in H as ([np blk] & Haxes & H).
  apply bind_Ok in H as (new_patches & _ & H).
  apply bind_Ok in H as ([bs' ps'] & Hrest & H).
  injection H as <- <-.
  apply at_Ok in Hrow as [_ Hrow].
  apply fill_axes_spec in Haxes as (Hpts & Hnp & Hst). simpl in *.
  assert (Hown : wrap np = wrap (owned_nodes dims fc subdivs b0)).
  { rewrite Hnp, Z.mul_1_l. unfold owned_nodes, axis_nodes, table_at. by rewrite Hrow. }
  destruct k as [|k]; simpl in *.
  - injection Hk as <-. exists blk. split; [done|]. split.
    + rewrite Hpts. unfold axis_nodes, table_at. by rewrite Hrow.
    + by rewrite Hst, Z.add_0_r, wrap_small.
  - destruct (IH _ _ _ _ _ Hrest (wrap_is_Uint _) Hk) as (blk' & Hl & Hp & Hs).
    exists blk'. split; [done|]. split; [done|].
    rewrite Hs, wrap_add_l, <- Z.add_assoc, (Z.add_comm np), Z.add_assoc.
    rewrite <- wrap_add_r, Hown, wrap_add_r. f_equal. lia.
Qed.

Lemma create_blocks_spec impl impl' b :
  BlockArrays.create_blocks impl = Ok impl' ->
  0 <= b < Z.of_nat (length (BlockArrays.blocks impl)) ->
  exists blk,
    BlockArrays.block_list impl' !! Z.to_nat b = Some blk
    /\ BlockArrays.nb_points blk
       = map (fun d => wrap (axis_nodes (BlockArrays.row_size (BlockArrays.points impl))
                               (BlockArrays.face_connectivity impl)
                               (BlockArrays.block_subdivisions impl) b d))
             (indices (BlockArrays.row_size (BlockArrays.points impl)))
    /\ BlockArrays.start_index blk
       = wrap (sum_over b (owned_nodes (BlockArrays.row_size (BlockArrays.points impl))
                             (BlockArrays.face_connectivity impl)
                             (BlockArrays.block_subdivisions impl))).
Proof.
  unfold BlockArrays.create_blocks. intros H Hb.
  apply bind_Ok in H as ([bs ps] & Hfill & H). injection H as <-. simpl.
  destruct (fill_blocks_spec _ _ _ _ _ _ _ (Z.to_nat b) b Hfill) as (blk & Hl & Hp & Hs).
  { unfold is_Uint, Uint_modulus. lia. }
  { by apply indices_lookup. }
  exists blk. split; [done|]. split; [done|].
  by rewrite Hs, take_indices by lia.
Qed.

(** The block at the place [proc] of a distribution, and the first node read
    there. *)
Lemma nodes_distribution_spec first_nodes dist_in len : forall p last dist k,
  NodeIndices3D.nodes_distribution first_nodes dist_in last (seqZ p (Z.of_nat len)) = Ok dist ->
  0 <= p -> (k < len)%nat ->
  dist !! k
  = Some (wrap (last
                + first_node first_nodes (first_node dist_in (p + Z.of_nat k + 1))
                - first_node first_nodes (first_node dist_in p))).
Proof.
  induction len as [|len IH]; intros p last dist k H Hp Hk; [lia|].
  rewrite seqZ_cons in H by lia. simpl in H.
  apply bind_Ok in H as (hi & Hhi & H). apply bind_Ok in H as (lo & Hlo & H).
  apply bind_Ok in H as (fhi & Hfhi & H). apply bind_Ok in H as (flo & Hflo & H).
  apply bind_Ok in H as (rest & Hrest & H). injection H as <-.
  replace (Z.pred (Z.of_nat (S len))) with (Z.of_nat len) in Hrest by lia.
  apply at_Ok in Hhi as [_ Hhi]. apply at_Ok in Hlo as [_ Hlo].
  apply at_Ok in Hfhi as [_ Hfhi]. apply at_Ok in Hflo as [_ Hflo].
  assert (Elo : first_node first_nodes (first_node dist_in p) = flo).
  { unfold first_node. rewrite Hlo. simpl. by rewrite Hflo. }
  assert (Ehi : first_node first_nodes (first_node dist_in (p + 1)) = fhi).
  { unfold first_node. rewrite Hhi. simpl. by rewrite Hfhi. }
  destruct k as [|k]; simpl.
  - replace (p + Z.of_nat 0 + 1) with (p + 1) by lia. by rewrite Elo, Ehi.
  - rewrite (IH _ _ _ k Hrest) by lia.
    replace (Z.succ p + Z.of_nat k + 1) with (p + Z.of_nat (S k) + 1) by lia.
    replace (Z.succ p) with (p + 1) by lia.
    rewrite Ehi, Elo, <- Z.add_sub_assoc, wrap_add_l. do 2 f_equal. lia.
Qed.

Lemma make3D_nodes_dist fc bd rank nb_procs n :
  NodeIndices3D.make fc bd rank nb_procs = Ok n ->
  block_distribution bd !! 0%nat = Some 0 ->
  block_distribution bd !! Z.to_nat nb_procs
  = Some (Z.of_nat (length (block_subdivisions bd))) ->
  NodeIndices3D.nodes_dist n !! Z.to_nat nb_procs
  = Some (wrap (sum_over (Z.of_nat (length (block_subdivisions bd)))
                         (owned_nodes_3d fc bd))).
Proof.
  intros Hmake Hfirst Hlast.
  pose proof (make3D_first_nodes _ _ _ _ _ 0 Hmake ltac:(lia)) as F0.
  pose proof (make3D_first_nodes _ _ _ _ _ (Z.of_nat (length (block_subdivisions bd)))
                Hmake ltac:(lia)) as Fn.
  unfold NodeIndices3D.make in Hmake.
  apply bind_Ok in Hmake as (counts & Hcounts & H).
  apply bind_Ok in H as (dist & Hdist & H).
  apply bind_Ok in H as (lb & Hlb & H).
  apply bind_Ok in H as (le & Hle & H).
  injection H as <-. simpl in *.
  apply at_Ok in Hlb as [Hrank _]. apply at_Ok in Hle as [_ Hle].
  unfold indices in Hdist.
  destruct (decide (0 < nb_procs)) as [Hpos|Hneg].
  - replace nb_procs with (Z.of_nat (Z.to_nat nb_procs)) in Hdist by lia.
    destruct (Z.to_nat nb_procs) as [|k] eqn:Ek; [lia|]. simpl.
    rewrite <- Ek in Hlast.
    rewrite (nodes_distribution_spec _ _ _ _ _ _ k Hdist) by lia.
    replace (0 + Z.of_nat k + 1) with nb_procs by lia.
    unfold first_node at 2 4. change (Z.to_nat 0) with 0%nat. rewrite Hlast, Hfirst. simpl.
    unfold first_node. rewrite Fn. simpl. unfold sum_over. simpl.
    by rewrite Z.sub_0_r, Z.add_0_l, wrap_wrap.
  - rewrite seqZ_nil in Hdist by lia. simpl in Hdist. injection Hdist as <-.
    apply lookup_lt_Some in Hle. simpl in Hle. lia.
Qed.

Lemma table_at_nonneg rows b d : Forall (Forall is_Uint) rows -> 0 <= table_at rows b d.
Proof.
  intros H. unfold table_at.
  destruct (rows !! Z.to_nat b) as [row|] eqn:E; simpl; [|done].
  eapply Forall_lookup_1 in H; [|done].
  destruct (row !! Z.to_nat d) as [x|] eqn:Ex; simpl; [|done].
  eapply Forall_lookup_1 in H; [|done]. by destruct H.
Qed.

Lemma product_between (f g : Z -> Z) (l : list Z) :
  (forall x, 0 <= f x <= g x) ->
  0 <= foldr Z.mul 1 (map f l) <= foldr Z.mul 1 (map g l).
Proof.
  intros H. induction l as [|x l IH]; simpl; [lia|]. specialize (H x). nia.
Qed.

Lemma factor_le_product (g : Z -> Z) (l : list Z) x :
  (forall y, 1 <= g y) -> x ∈ l -> g x <= foldr Z.mul 1 (map g l).
Proof.
  intros H Hx. induction l as [|y l IH]; [by apply elem_of_nil in Hx|]. simpl.
  assert (1 <= foldr Z.mul 1 (map g l)).
  { clear -H. induction l as [|z l IH]; simpl; [lia|]. specialize (H z). nia. }
  apply elem_of_cons in Hx as [->|Hx].
  - specialize (H y). nia.
  - specialize (IH Hx). specialize (H y). nia.
Qed.

Lemma sum_over_between (f g : Z -> Z) b n :
  (forall x, 0 <= f x <= g x) -> 0 <= b <= n ->
  0 <= sum_over b f <= sum_over n g.
Proof.
  intros H Hb. unfold sum_over, indices.
  replace n with (b + (n - b)) by lia. rewrite seqZ_app by lia.
  rewrite map_app, foldr_app.
  generalize (seqZ (0 + b) (n - b)) as rest. generalize (seqZ 0 b) as l.
  assert (Hrest : forall rest, 0 <= foldr Z.add 0 (map g rest)).
  { induction rest as [|x rest IH]; simpl; [lia|]. specialize (H x). lia. }
  induction l as [|x l IH]; intros rest; simpl.
  - specialize (Hrest rest). lia.
  - specialize (IH rest). specialize (H x). lia.
Qed.

Lemma term_le_sum_over (g : Z -> Z) b n :
  (forall x, 0 <= g x) -> 0 <= b < n -> g b <= sum_over n g.
Proof.
  intros H Hb. unfold sum_over.
  assert (Hin : b ∈ indices n) by (apply elem_of_seqZ; lia).
  induction (indices n) as [|x l IH]; [by apply elem_of_nil in Hin|]. simpl.
  assert (0 <= foldr Z.add 0 (map g l)).
  { clear -H. induction l as [|z l IH]; simpl; [lia|]. specialize (H z). lia. }
  apply elem_of_cons in Hin as [->|Hin]; [lia|]. specialize (IH Hin). specialize (H x). lia.
Qed.

Lemma owned_nodes_between dims fc rows b :
  Forall (Forall is_Uint) rows ->
  0 <= owned_nodes dims fc rows b <= lattice_nodes dims rows b.
Proof.
  intros H. apply product_between. intros d. unfold axis_nodes.
  pose proof (table_at_nonneg rows b d H). destruct (block_bounded dims fc b d); simpl; lia.
Qed.

Lemma owned_nodes_3d_between fc bd b :
  Forall (Forall is_Uint) (block_subdivisions bd) ->
  0 <= owned_nodes_3d fc bd b <= lattice_nodes 3 (block_subdivisions bd) b.
Proof.
  intros H. unfold owned_nodes_3d, lattice_nodes. change (indices 3) with [0; 1; 2].
  simpl.
  change (seg_at bd b XX) with (table_at (block_subdivisions bd) b 0).
  change (seg_at bd b YY) with (table_at (block_subdivisions bd) b 1).
  change (seg_at bd b ZZ) with (table_at (block_subdivisions bd) b 2).
  pose proof (table_at_nonneg _ b 0 H). pose proof (table_at_nonneg _ b 1 H).
  pose proof (table_at_nonneg _ b 2 H).
  destruct (shares_face 3 fc b XX), (shares_face 3 fc b YY), (shares_face 3 fc b ZZ);
    simpl; nia.
Qed.

(** C3. In [create_blocks], every block [b] has along every axis [d]
    [segments + 1] points where its positive face is on the boundary and
    [segments] points otherwise, and its [start_index] is the sum, over the
    blocks before it, of the nodes they own, the product of these counts
    over the axes.  In the constructor of the three dimensional oracle
    [block_first_nodes] holds the same prefix sums of products, and for a
    block distribution from block 0 to the last block the entry [nb_procs]
    of [nodes_dist] is the total number of nodes.  The lattices of the
    blocks together have fewer than 2^32 nodes, so that no count of the
    code wraps around. *)
Theorem owned_nodes_prefix_sums (impl impl' : BlockArrays.Implementation)
    (fc : FaceConnectivity) (bd : BlockData) (rank nb_procs : Z) (n : NodeIndices3D.t) :
  BlockArrays.create_blocks impl = Ok impl' ->
  NodeIndices3D.make fc bd rank nb_procs = Ok n ->
  block_distribution bd !! 0%nat = Some 0 ->
  block_distribution bd !! Z.to_nat nb_procs
  = Some (Z.of_nat (length (block_subdivisions bd))) ->
  Forall (Forall is_Uint) (BlockArrays.block_subdivisions impl) ->
  Forall (Forall is_Uint) (block_subdivisions bd) ->
  sum_over (Z.of_nat (length (BlockArrays.blocks impl)))
           (lattice_nodes (BlockArrays.row_size (BlockArrays.points impl))
                          (BlockArrays.block_subdivisions impl)) < Uint_modulus ->
  sum_over (Z.of_nat (length (block_subdivisions bd)))
           (lattice_nodes 3 (block_subdivisions bd)) < Uint_modulus ->
  (forall b, 0 <= b < Z.of_nat (length (BlockArrays.blocks impl)) ->
     exists blk,
       BlockArrays.block_list impl' !! Z.to_nat b = Some blk
       /\ (forall d, 0 <= d < BlockArrays.row_size (BlockArrays.points impl) ->
            BlockArrays.nb_points blk !! Z.to_nat d
            = Some (if block_bounded (BlockArrays.row_size (BlockArrays.points impl))
                         (BlockArrays.face_connectivity impl) b d
                    then table_at (BlockArrays.block_subdivisions impl) b d + 1
                    else table_at (BlockArrays.block_subdivisions impl) b d))
       /\ BlockArrays.start_index blk
          = sum_over b (owned_nodes (BlockArrays.row_size (BlockArrays.points impl))
                          (BlockArrays.face_connectivity impl)
                          (BlockArrays.block_subdivisions impl)))
  /\ (forall b, 0 <= b <= Z.of_nat (length (block_subdivisions bd)) ->
       NodeIndices3D.block_first_nodes n !! Z.to_nat b
       = Some (sum_over b (owned_nodes_3d fc bd)))
  /\ NodeIndices3D.nodes_dist n !! Z.to_nat nb_procs
     = Some (sum_over (Z.of_nat (length (block_subdivisions bd))) (owned_nodes_3d fc bd)).
Proof.
  intros Hblocks Hmake Hfirst Hlast Huint Huint3 Hsmall Hsmall3.
  assert (Hsum3 : forall b, 0 <= b <= Z.of_nat (length (block_subdivisions bd)) ->
            wrap (sum_over b (owned_nodes_3d fc bd)) = sum_over b (owned_nodes_3d fc bd)).
  { intros b Hb. apply wrap_small. unfold is_Uint.
    pose proof (sum_over_between (owned_nodes_3d fc bd)
                  (lattice_nodes 3 (block_subdivisions bd)) b
                  (Z.of_nat (length (block_subdivisions bd)))
                  (fun x => owned_nodes_3d_between fc bd x Huint3) Hb). lia. }
  split; [|split].
  - intros b Hb.
    destruct (create_blocks_spec _ _ b Hblocks Hb) as (blk & Hl & Hp & Hs).
    exists blk. split; [done|]. split.
    + intros d Hd. rewrite Hp. rewrite at_indices_map_lookup by done.
      f_equal. unfold axis_nodes.
      pose proof (table_at_nonneg (BlockArrays.block_subdivisions impl) b d Huint) as H0.
      pose proof (factor_le_product
                    (fun d => table_at (BlockArrays.block_subdivisions impl) b d + 1)
                    (indices (BlockArrays.row_size (BlockArrays.points impl))) d) as H1.
      pose proof (term_le_sum_over
                    (lattice_nodes (BlockArrays.row_size (BlockArrays.points impl))
                                   (BlockArrays.block_subdivisions impl)) b
                    (Z.of_nat (length (BlockArrays.blocks impl)))) as H2.
      unfold lattice_nodes in H2 at 2.
      rewrite wrap_small.
      * destruct (block_bounded _ _ _ _); simpl; lia.
      * unfold is_Uint. cut (table_at (BlockArrays.block_subdivisions impl) b d + 1
                             < Uint_modulus).
        { destruct (block_bounded _ _ _ _); simpl; lia. }
        eapply Z.le_lt_trans; [apply H1|].
        -- intros y. pose proof (table_at_nonneg _ b y Huint). lia.
        -- apply elem_of_seqZ. lia.
        -- eapply Z.le_lt_trans; [apply H2|done]; [|done].
           intros x. pose proof (owned_nodes_between
                                   (BlockArrays.row_size (BlockArrays.points impl))
                                   (BlockArrays.face_connectivity impl) _ x Huint). lia.
    + rewrite Hs. apply wrap_small. unfold is_Uint.
      pose proof (sum_over_between _ _ b (Z.of_nat (length (BlockArrays.blocks impl)))
                    (fun x => owned_nodes_between
                                (BlockArrays.row_size (BlockArrays.points impl))
                                (BlockArrays.face_connectivity impl) _ x Huint)
                    ltac:(lia)). lia.
  - intros b Hb. rewrite <- Hsum3 by done. by eapply make3D_first_nodes.
  - rewrite <- Hsum3 by lia. by eapply make3D_nodes_dist.
Qed.

Lemma owned_nodes_prefix_sums_witness :
  exists impl' n,
    BlockArrays.create_blocks grid_implementation = Ok impl'
    /\ NodeIndices3D.make (grid_connectivity 3) grid_3d 0 2 = Ok n
    /\ BlockArrays.start_index <$> BlockArrays.block_list impl' !! 3%nat = Some 54
    /\ NodeIndices3D.nodes_dist n !! 2%nat = Some 72.
Proof.
  assert (H1 : exists i, BlockArrays.create_blocks grid_implementation = Ok i)
    by (vm_compute; eauto).
  assert (H2 : exists n, NodeIndices3D.make (grid_connectivity 3) grid_3d 0 2 = Ok n)
    by (vm_compute; eauto).
  assert (Huint : Forall (Forall is_Uint) (block_subdivisions grid_3d))
    by (repeat constructor; unfold Uint_modulus; lia).
  destruct H1 as [impl' H1], H2 as [n H2]. exists impl', n.
  destruct (owned_nodes_prefix_sums _ _ _ _ _ _ _ H1 H2 eq_refl eq_refl Huint Huint)
    as (Hb & _ & Ht); [vm_compute; reflexivity|vm_compute; reflexivity|].
  split; [done|]. split; [done|]. split.
  - destruct (Hb 3 ltac:(simpl; lia)) as (blk & Hl & _ & Hs).
    change (Z.to_nat 3) with 3%nat in Hl. rewrite Hl. simpl. rewrite Hs. reflexivity.
  - exact Ht.
Defined.

(** ** Nodes of the processes *)

(** The blocks a node distribution is read at. *)
Lemma nodes_distribution_reads first_nodes dist_in len : forall p last dist k,
  NodeIndices3D.nodes_distribution first_nodes dist_in last (seqZ p (Z.of_nat len)) = Ok dist ->
  0 <= p -> (k < len)%nat ->
  exists blk, dist_in !! Z.to_nat (p + Z.of_nat k + 1) = Some blk
              /\ 0 <= blk /\ (Z.to_nat blk < length first_nodes)%nat.
Proof.
  induction len as [|len IH]; intros p last dist k H Hp Hk; [lia|].
  rewrite seqZ_cons in H by lia. simpl in H.
  apply bind_Ok in H as (hi & Hhi & H). apply bind_Ok in H as (lo & Hlo & H).
  apply bind_Ok in H as (fhi & Hfhi & H). apply bind_Ok in H as (flo & Hflo & H).
  apply bind_Ok in H as (rest & Hrest & H). injection H as <-.
  replace (Z.pred (Z.of_nat (S len))) with (Z.of_nat len) in Hrest by lia.
  destruct k as [|k].
  - exists hi. apply at_Ok in Hhi as [_ Hhi]. apply at_Ok in Hfhi as [? Hfhi].
    apply lookup_lt_Some in Hfhi.
    replace (p + Z.of_nat 0 + 1) with (p + 1) by lia. done.
  - destruct (IH _ _ _ k Hrest) as (blk & Hblk & Hb); [lia|lia|].
    exists blk. split; [|done].
    by replace (p + Z.of_nat (S k) + 1) with (Z.succ p + Z.of_nat k + 1) by lia.
Qed.

Lemma nodes_distribution_length first_nodes dist_in len : forall p last dist,
  NodeIndices3D.nodes_distribution first_nodes dist_in last (seqZ p (Z.of_nat len)) = Ok dist ->
  length dist = len.
Proof.
  induction len as [|len IH]; intros p last dist H.
  - simpl in H. by injection H as <-.
  - rewrite seqZ_cons in H by lia. simpl in H.
    apply bind_Ok in H as (hi & Hhi & H). apply bind_Ok in H as (lo & Hlo & H).
    apply bind_Ok in H as (fhi & Hfhi & H). apply bind_Ok in H as (flo & Hflo & H).
    apply bind_Ok in H as (rest & Hrest & H). injection H as <-.
    replace (Z.pred (Z.of_nat (S len))) with (Z.of_nat len) in Hrest by lia.
    simpl. f_equal. by eapply IH.
Qed.

(** The entries of [nodes_dist] for a distribution that starts at block 0:
    the first node of the block each process starts at. *)
Lemma nodes_dist_entries first_nodes dist_in nb_procs dist p blk :
  NodeIndices3D.nodes_distribution first_nodes dist_in 0 (indices nb_procs) = Ok dist ->
  first_nodes !! 0%nat = Some 0 ->
  dist_in !! 0%nat = Some 0 ->
  0 <= p <= nb_procs ->
  dist_in !! Z.to_nat p = Some blk ->
  0 <= blk /\ (Z.to_nat blk < length first_nodes)%nat
  /\ (0 :: dist) !! Z.to_nat p = Some (wrap (first_node first_nodes blk)).
Proof.
  intros Hdist HF0 Hd0 Hp Hblk. unfold indices in Hdist.
  destruct (decide (p = 0)) as [->|Hne].
  - change (Z.to_nat 0) with 0%nat in *. rewrite Hd0 in Hblk. injection Hblk as <-.
    split; [lia|]. split; [by apply lookup_lt_Some in HF0|].
    simpl. unfold first_node. change (Z.to_nat 0) with 0%nat. by rewrite HF0.
  - replace nb_procs with (Z.of_nat (Z.to_nat nb_procs)) in Hdist by lia.
    destruct (nodes_distribution_reads _ _ _ _ _ _ (Z.to_nat (p - 1)) Hdist)
      as (blk' & Hblk' & Hpos & Hlt); [lia|lia|].
    replace (0 + Z.of_nat (Z.to_nat (p - 1)) + 1) with p in Hblk' by lia.
    rewrite Hblk in Hblk'. injection Hblk' as <-.
    split; [done|]. split; [done|].
    replace (Z.to_nat p) with (S (Z.to_nat (p - 1))) by lia. simpl.
    rewrite (nodes_distribution_spec _ _ _ _ _ _ (Z.to_nat (p - 1)) Hdist) by lia.
    replace (0 + Z.of_nat (Z.to_nat (p - 1)) + 1) with p by lia.
    f_equal. f_equal.
    unfold first_node at 2 4. change (Z.to_nat 0) with 0%nat. rewrite Hblk, Hd0. simpl.
    unfold first_node at 2. change (Z.to_nat 0) with 0%nat. rewrite HF0. simpl. lia.
Qed.

Lemma sum_over_small (f g : Z -> Z) b n :
  (forall x, 0 <= f x <= g x) -> 0 <= b <= n -> sum_over n g < Uint_modulus ->
  wrap (sum_over b f) = sum_over b f.
Proof.
  intros H Hb Hsmall. apply wrap_small. unfold is_Uint.
  pose proof (sum_over_between f g b n H Hb). lia.
Qed.

(** The entries of [nodes_dist] and the local range, for prefix sums [own]
    in [block_first_nodes]. *)
Lemma process_nodes first_nodes dist_in rank nb_procs dist lb le (own : Z -> Z) nb :
  NodeIndices3D.nodes_distribution first_nodes dist_in 0 (indices nb_procs) = Ok dist ->
  at_ (0 :: dist) rank = Ok lb ->
  at_ (0 :: dist) (rank + 1) = Ok le ->
  length first_nodes = S nb ->
  (forall b, 0 <= b <= Z.of_nat nb -> first_nodes !! Z.to_nat b = Some (sum_over b own)) ->
  (forall b, 0 <= b <= Z.of_nat nb -> is_Uint (sum_over b own)) ->
  dist_in !! 0%nat = Some 0 ->
  0 <= rank < nb_procs
  /\ (forall p blk, 0 <= p <= nb_procs -> dist_in !! Z.to_nat p = Some blk ->
        0 <= blk <= Z.of_nat nb
        /\ (0 :: dist) !! Z.to_nat p = Some (sum_over blk own))
  /\ (0 :: dist) !! Z.to_nat rank = Some lb
  /\ (0 :: dist) !! Z.to_nat (rank + 1) = Some le.
Proof.
  intros Hdist Hlb Hle Hlen HF Huint Hfirst.
  apply at_Ok in Hlb as [Hrank Hlb]. apply at_Ok in Hle as [_ Hle].
  assert (Hdlen : length dist = Z.to_nat nb_procs).
  { unfold indices in Hdist. destruct (decide (0 <= nb_procs)).
    - replace nb_procs with (Z.of_nat (Z.to_nat nb_procs)) in Hdist by lia.
      by apply nodes_distribution_length in Hdist.
    - rewrite seqZ_nil in Hdist by lia. simpl in Hdist. injection Hdist as <-.
      simpl. lia. }
  assert (Hr : 0 <= rank < nb_procs).
  { apply lookup_lt_Some in Hle. simpl in Hle. lia. }
  split; [done|]. split; [|done].
  intros p blk Hp Hblk.
  destruct (nodes_dist_entries _ _ _ _ p blk Hdist (HF 0 ltac:(lia)) Hfirst Hp Hblk)
    as (Hpos & Hlt & ->).
  rewrite Hlen in Hlt. split; [lia|]. f_equal.
  unfold first_node. rewrite HF by lia. simpl.
  apply wrap_small, Huint. lia.
Qed.

(** X3. The constructor of the three dimensional oracle, for a block
    distribution that starts at block 0 and sizes within 32 bits: the entry
    of [nodes_dist] for a process is the number of nodes owned by the blocks
    before the block the process starts at, and the local nodes of the rank
    go from its entry to the entry of the next process: they are the nodes
    its own blocks own. *)
Theorem oracle3D_process_nodes (fc : FaceConnectivity) (bd : BlockData)
    (rank nb_procs : Z) (n : NodeIndices3D.t) :
  NodeIndices3D.make fc bd rank nb_procs = Ok n ->
  block_distribution bd !! 0%nat = Some 0 ->
  Forall (Forall is_Uint) (block_subdivisions bd) ->
  sum_over (Z.of_nat (length (block_subdivisions bd)))
           (lattice_nodes 3 (block_subdivisions bd)) < Uint_modulus ->
  0 <= rank < nb_procs
  /\ (forall p blk, 0 <= p <= nb_procs ->
        block_distribution bd !! Z.to_nat p = Some blk ->
        0 <= blk <= Z.of_nat (length (block_subdivisions bd))
        /\ NodeIndices3D.nodes_dist n !! Z.to_nat p
           = Some (sum_over blk (owned_nodes_3d fc bd)))
  /\ NodeIndices3D.nodes_dist n !! Z.to_nat rank = Some (NodeIndices3D.m_local_nodes_begin n)
  /\ NodeIndices3D.nodes_dist n !! Z.to_nat (rank + 1)
     = Some (NodeIndices3D.m_local_nodes_end n).
Proof.
  intros Hmake Hfirst Huint Hsmall.
  assert (Hown : forall b, 0 <= b <= Z.of_nat (length (block_subdivisions bd)) ->
            is_Uint (sum_over b (owned_nodes_3d fc bd))).
  { intros b Hb. unfold is_Uint.
    pose proof (sum_over_between (owned_nodes_3d fc bd)
                  (lattice_nodes 3 (block_subdivisions bd)) b _
                  (fun x => owned_nodes_3d_between fc bd x Huint) Hb). lia. }
  assert (HF : forall b, 0 <= b <= Z.of_nat (length (block_subdivisions bd)) ->
            NodeIndices3D.block_first_nodes n !! Z.to_nat b
            = Some (sum_over b (owned_nodes_3d fc bd))).
  { intros b Hb. rewrite (make3D_first_nodes _ _ _ _ _ b Hmake Hb). f_equal.
    by apply wrap_small, Hown. }
  assert (Hlen : length (NodeIndices3D.block_first_nodes n)
                 = S (length (block_subdivisions bd))).
  { apply make3D_topology in Hmake as (_ & _ & _ & counts & Hcounts & ->).
    apply for_each_length in Hcounts. rewrite indices_length in Hcounts by lia.
    simpl. rewrite accumulate_length. lia. }
  unfold NodeIndices3D.make in Hmake.
  apply bind_Ok in Hmake as (counts & Hcounts & H).
  apply bind_Ok in H as (dist & Hdist & H).
  apply bind_Ok in H as (lb & Hlb & H).
  apply bind_Ok in H as (le & Hle & H).
  injection H as <-.
  cbn [NodeIndices3D.nodes_dist NodeIndices3D.m_local_nodes_begin
       NodeIndices3D.m_local_nodes_end NodeIndices3D.block_first_nodes] in *.
  by eapply process_nodes.
Qed.

Lemma oracle3D_process_nodes_witness :
  exists n,
    NodeIndices3D.make (grid_connectivity 3) grid_3d 1 2 = Ok n
    /\ NodeIndices3D.nodes_dist n !! 1%nat = Some 36
    /\ NodeIndices3D.nodes_dist n !! 2%nat = Some 72
    /\ NodeIndices3D.m_local_nodes_begin n = 36
    /\ NodeIndices3D.m_local_nodes_end n = 72.
Proof.
  assert (H : exists n, NodeIndices3D.make (grid_connectivity 3) grid_3d 1 2 = Ok n)
    by (vm_compute; eauto).
  assert (Huint : Forall (Forall is_Uint) (block_subdivisions grid_3d))
    by (repeat constructor; unfold Uint_modulus; lia).
  destruct H as [n H]. exists n.
  destruct (oracle3D_process_nodes _ _ _ _ _ H eq_refl Huint) as (_ & Hd & Hb & He);
    [vm_compute; reflexivity|].
  destruct (Hd 1 2 ltac:(lia) eq_refl) as [_ H1].
  destruct (Hd 2 4 ltac:(lia) eq_refl) as [_ H2].
  change (Z.to_nat 1) with 1%nat in *. change (Z.to_nat 2) with 2%nat in *.
  change (Z.to_nat (1 + 1)) with 2%nat in *.
  rewrite H1 in Hb. rewrite H2 in He. injection Hb as Hb. injection He as He.
  split; [done|]. split; [exact H1|]. split; [exact H2|]. split; [by rewrite <- Hb|by rewrite <- He].
Defined.

Lemma block_nb_nodes_2d fc bd b c :
  (segments ← at_ (block_subdivisions bd) b;
   row ← at_ (map (NodeIndices2D.bounded_row fc)
                  (indices (Z.of_nat (length (block_subdivisions bd))))) b;
   NodeIndices2D.block_nb_nodes row segments) = Ok c ->
  c = wrap (owned_nodes_2d fc bd b).
Proof.
  intros H. apply bind_Ok in H as (segs & Hsegs & H).
  apply bind_Ok in H as (row & Hrow & H).
  assert (Hb : valid_block bd b).
  { apply at_Ok in Hsegs as [? Hl]. apply lookup_lt_Some in Hl. unfold valid_block. lia. }
  rewrite at_indices_map in Hrow by apply Hb. injection Hrow as <-.
  rewrite at_segments in Hsegs by done. injection Hsegs as <-.
  unfold NodeIndices2D.block_nb_nodes in H.
  apply bind_Ok in H as (x & Hx & H). apply bind_Ok in H as (y & Hy & H).
  assert (Ex : x = seg_at bd b XX).
  { apply at_Ok in Hx as [_ Hx]. unfold seg_at. by rewrite Hx. }
  assert (Ey : y = seg_at bd b YY).
  { apply at_Ok in Hy as [_ Hy]. unfold seg_at. by rewrite Hy. }
  simpl in H. injection H as <-. subst x y. f_equal.
  unfold owned_nodes_2d, shares_face. simpl. rewrite !negb_involutive.
  change (positive_face 2 XX) with Quad.XPOS.
  change (positive_face 2 YY) with Quad.YPOS.
  change (2 - 1) with DIM_1D.
  destruct (dimensionality (adjacent_element fc b Quad.XPOS) =? DIM_1D),
           (dimensionality (adjacent_element fc b Quad.YPOS) =? DIM_1D);
    simpl; ring.
Qed.

Lemma make2D_first_nodes fc bd rank nb_procs n b :
  NodeIndices2D.make fc bd rank nb_procs = Ok n ->
  0 <= b <= Z.of_nat (length (block_subdivisions bd)) ->
  NodeIndices2D.block_first_nodes n !! Z.to_nat b
  = Some (wrap (sum_over b (owned_nodes_2d fc bd))).
Proof.
  intros Hmake Hb.
  apply make2D_topology in Hmake as (_ & _ & _ & counts & Hcounts & ->).
  pose proof (for_each_length _ _ _ Hcounts) as Hlen.
  rewrite indices_length in Hlen by lia.
  apply (for_each_map _ (fun b => wrap (owned_nodes_2d fc bd b))) in Hcounts.
  2:{ intros a c _ H. by apply block_nb_nodes_2d. }
  rewrite accumulate_lookup by (unfold is_Uint, Uint_modulus; lia).
  rewrite Hcounts, firstn_map, take_indices by lia.
  rewrite Z.add_0_l. unfold sum_over. f_equal. apply wrap_sum_map.
Qed.

Lemma owned_nodes_2d_between fc bd b :
  Forall (Forall is_Uint) (block_subdivisions bd) ->
  0 <= owned_nodes_2d fc bd b <= lattice_nodes 2 (block_subdivisions bd) b.
Proof.
  intros H. unfold owned_nodes_2d, lattice_nodes. change (indices 2) with [0; 1].
  simpl.
  change (seg_at bd b XX) with (table_at (block_subdivisions bd) b 0).
  change (seg_at bd b YY) with (table_at (block_subdivisions bd) b 1).
  pose proof (table_at_nonneg _ b 0 H). pose proof (table_at_nonneg _ b 1 H).
  destruct (shares_face 2 fc b XX), (shares_face 2 fc b YY); simpl; nia.
Qed.

(** X4. The constructor of the two dimensional oracle, for a block
    distribution that starts at block 0 and sizes within 32 bits:
    [block_first_nodes] holds the prefix sums of the nodes the blocks own
    (for each block the product over the two axes of its segments, plus one
    where its positive face is on the boundary), the entry of [nodes_dist]
    for a process is the first node of the block the process starts at, and
    the local nodes of the rank go from its entry to the next one. *)
Theorem oracle2D_prefix_sums (fc : FaceConnectivity) (bd : BlockData)
    (rank nb_procs : Z) (n : NodeIndices2D.t) :
  NodeIndices2D.make fc bd rank nb_procs = Ok n ->
  block_distribution bd !! 0%nat = Some 0 ->
  Forall (Forall is_Uint) (block_subdivisions bd) ->
  sum_over (Z.of_nat (length (block_subdivisions bd)))
           (lattice_nodes 2 (block_subdivisions bd)) < Uint_modulus ->
  (forall b, 0 <= b <= Z.of_nat (length (block_subdivisions bd)) ->
     NodeIndices2D.block_first_nodes n !! Z.to_nat b
     = Some (sum_over b (owned_nodes_2d fc bd)))
  /\ 0 <= rank < nb_procs
  /\ (forall p blk, 0 <= p <= nb_procs ->
        block_distribution bd !! Z.to_nat p = Some blk ->
        0 <= blk <= Z.of_nat (length (block_subdivisions bd))
        /\ NodeIndices2D.nodes_dist n !! Z.to_nat p
           = Some (sum_over blk (owned_nodes_2d fc bd)))
  /\ NodeIndices2D.nodes_dist n !! Z.to_nat rank = Some (NodeIndices2D.m_local_nodes_begin n)
  /\ NodeIndices2D.nodes_dist n !! Z.to_nat (rank + 1)
     = Some (NodeIndices2D.m_local_nodes_end n).
Proof.
  intros Hmake Hfirst Huint Hsmall.
  assert (Hown : forall b, 0 <= b <= Z.of_nat (length (block_subdivisions bd)) ->
            is_Uint (sum_over b (owned_nodes_2d fc bd))).
  { intros b Hb. unfold is_Uint.
    pose proof (sum_over_between (owned_nodes_2d fc bd)
                  (lattice_nodes 2 (block_subdivisions bd)) b _
                  (fun x => owned_nodes_2d_between fc bd x Huint) Hb). lia. }
  assert (HF : forall b, 0 <= b <= Z.of_nat (length (block_subdivisions bd)) ->
            NodeIndices2D.block_first_nodes n !! Z.to_nat b
            = Some (sum_over b (owned_nodes_2d fc bd))).
  { intros b Hb. rewrite (make2D_first_nodes _ _ _ _ _ b Hmake Hb). f_equal.
    by apply wrap_small, Hown. }
  split; [done|].
  assert (Hlen : length (NodeIndices2D.block_first_nodes n)
                 = S (length (block_subdivisions bd))).
  { apply make2D_topology in Hmake as (_ & _ & _ & counts & Hcounts & ->).
    apply for_each_length in Hcounts. rewrite indices_length in Hcounts by lia.
    simpl. rewrite accumulate_length. lia. }
  unfold NodeIndices2D.make in Hmake.
  apply bind_Ok in Hmake as (counts & Hcounts & H).
  apply bind_Ok in H as (dist & Hdist & H).
  apply bind_Ok in H as (lb & Hlb & H).
  apply bind_Ok in H as (le & Hle & H).
  injection H as <-.
  cbn [NodeIndices2D.nodes_dist NodeIndices2D.m_local_nodes_begin
       NodeIndices2D.m_local_nodes_end NodeIndices2D.block_first_nodes] in *.
  by eapply process_nodes.
Qed.

Lemma oracle2D_prefix_sums_witness :
  exists n,
    NodeIndices2D.make (grid_connectivity 2) grid_2d 0 2 = Ok n
    /\ NodeIndices2D.block_first_nodes n !! 4%nat = Some 24
    /\ NodeIndices2D.nodes_dist n !! 1%nat = Some 12.
Proof.
  assert (H : exists n, NodeIndices2D.make (grid_connectivity 2) grid_2d 0 2 = Ok n)
    by (vm_compute; eauto).
  assert (Huint : Forall (Forall is_Uint) (block_subdivisions grid_2d))
    by (repeat constructor; unfold Uint_modulus; lia).
  destruct H as [n H]. exists n.
  destruct (oracle2D_prefix_sums _ _ _ _ _ H eq_refl Huint) as (HF & _ & Hd & _);
    [vm_compute; reflexivity|].
  destruct (Hd 1 2 ltac:(lia) eq_refl) as [_ H1].
  split; [done|]. split; [exact (HF 4 ltac:(simpl; lia))|exact H1].
Defined.

(** ** Owned nodes of the two dimensional oracle *)

Lemma sum_over_succ (f : Z -> Z) b : 0 <= b -> sum_over (b + 1) f = sum_over b f + f b.
Proof.
  intros Hb. unfold sum_over, indices. rewrite seqZ_app by lia.
  rewrite map_app, foldr_app. change (seqZ (0 + b) 1) with [0 + b].
  replace (0 + b) with b by lia. simpl foldr at 2.
  generalize (seqZ 0 b). intros l. induction l as [|x l IH]; simpl; lia.
Qed.

Lemma sum_over_mono (f : Z -> Z) a b :
  (forall x, 0 <= f x) -> 0 <= a <= b -> sum_over a f <= sum_over b f.
Proof.
  intros H Hab.
  pose proof (sum_over_between f f a b (fun x => conj (H x) (Z.le_refl _)) Hab). lia.
Qed.

(** Prefix sums of positive counts tell the blocks apart. *)
Lemma sum_over_separates (f : Z -> Z) b b' g :
  (forall x, 0 <= f x) -> 0 <= b -> 0 <= b' ->
  sum_over b f <= g < sum_over (b + 1) f ->
  sum_over b' f <= g < sum_over (b' + 1) f ->
  b = b'.
Proof.
  intros H Hb Hb' Hg Hg'.
  destruct (Z.lt_trichotomy b b') as [Hlt | [-> | Hlt]]; [|done|].
  - pose proof (sum_over_mono f (b + 1) b' H ltac:(lia)). lia.
  - pose proof (sum_over_mono f (b' + 1) b H ltac:(lia)). lia.
Qed.

Lemma row_major_range x y i j :
  0 <= i < x -> 0 <= j < y -> 0 <= i + j * x < x * y.
Proof. intros. nia. Qed.

Lemma row_major_inj x i j i' j' :
  0 <= i < x -> 0 <= i' < x -> i + j * x = i' + j' * x -> i = i' /\ j = j'.
Proof. intros. destruct (Z.lt_trichotomy j j') as [|[|]]; nia. Qed.

Section Owned2D.
Variable fc : FaceConnectivity.
Variable bd : BlockData.
Variable rank nb_procs : Z.
Variable n : NodeIndices2D.t.
Hypothesis Hmake : NodeIndices2D.make fc bd rank nb_procs = Ok n.
Hypothesis Hconf : conforming 2 fc bd.
Hypothesis Huint : Forall (Forall is_Uint) (block_subdivisions bd).
Hypothesis Hsmall :
  sum_over (Z.of_nat (length (block_subdivisions bd)))
           (lattice_nodes 2 (block_subdivisions bd)) < Uint_modulus.

Local Abbreviation nb := (Z.of_nat (length (block_subdivisions bd))).
Local Abbreviation own := (owned_nodes_2d fc bd).
Local Abbreviation sx b := (seg_at bd b XX).
Local Abbreviation sy b := (seg_at bd b YY).
Local Abbreviation off := (offset_2d fc bd).

Lemma own_nonneg x : 0 <= own x.
Proof. by apply owned_nodes_2d_between. Qed.

Lemma first_node_2d b :
  0 <= b <= nb ->
  first_node (NodeIndices2D.block_first_nodes n) b = sum_over b own
  /\ 0 <= sum_over b own <= sum_over nb own
  /\ sum_over nb own < Uint_modulus.
Proof.
  intros Hb.
  pose proof (sum_over_between own (lattice_nodes 2 (block_subdivisions bd)) b nb
                (fun x => owned_nodes_2d_between fc bd x Huint) Hb) as H1.
  pose proof (sum_over_between own (lattice_nodes 2 (block_subdivisions bd)) nb nb
                (fun x => owned_nodes_2d_between fc bd x Huint) ltac:(lia)) as H2.
  pose proof (sum_over_mono own b nb own_nonneg Hb).
  split; [|lia].
  unfold first_node. rewrite (make2D_first_nodes _ _ _ _ _ b Hmake Hb). simpl.
  apply wrap_small. unfold is_Uint. lia.
Qed.

Lemma offset_2d_range b i j :
  owns_2d fc bd b i j -> 0 <= off b i j < own b.
Proof.
  intros (Hb & Hi & Hj & Hx & Hy).
  destruct (conf_rows _ _ _ Hconf b Hb) as [_ Hpos].
  pose proof (Hpos XX ltac:(unfold XX; lia)). pose proof (Hpos YY ltac:(unfold YY; lia)).
  unfold offset_2d, owned_nodes_2d.
  destruct (Z.eqb_spec i (sx b)) as [Ei|Ei], (Z.eqb_spec j (sy b)) as [Ej|Ej].
  - rewrite (Hx Ei), (Hy Ej). simpl. nia.
  - rewrite (Hx Ei). simpl. destruct (shares_face 2 fc b YY); simpl; nia.
  - rewrite (Hy Ej). simpl. destruct (shares_face 2 fc b XX); simpl; nia.
  - destruct (shares_face 2 fc b XX), (shares_face 2 fc b YY); simpl; nia.
Qed.

Lemma offset_2d_inj b i j i' j' :
  owns_2d fc bd b i j -> owns_2d fc bd b i' j' ->
  off b i j = off b i' j' -> i = i' /\ j = j'.
Proof.
  intros (Hb & Hi & Hj & Hx & Hy) (_ & Hi' & Hj' & Hx' & Hy').
  destruct (conf_rows _ _ _ Hconf b Hb) as [_ Hpos].
  pose proof (Hpos XX ltac:(unfold XX; lia)). pose proof (Hpos YY ltac:(unfold YY; lia)).
  pose proof (row_major_range (sx b) (sy b) i j) as HA.
  pose proof (row_major_range (sx b) (sy b) i' j') as HA'.
  unfold offset_2d.
  destruct (Z.eqb_spec i (sx b)) as [Ei|Ei], (Z.eqb_spec j (sy b)) as [Ej|Ej],
           (Z.eqb_spec i' (sx b)) as [Ei'|Ei'], (Z.eqb_spec j' (sy b)) as [Ej'|Ej'];
    try rewrite (Hx Ei); try rewrite (Hx' Ei');
    try specialize (HA ltac:(lia) ltac:(lia));
    try specialize (HA' ltac:(lia) ltac:(lia));
    destruct (shares_face 2 fc b XX); cbn [Z.b2z negb]; intros E;
    first [lia | apply (row_major_inj (sx b)); lia].
Qed.

Lemma unchecked_2d_owned depth b i j :
  owns_2d fc bd b i j ->
  NodeIndices2D.unchecked_idx (S depth) n b i j = Ok (sum_over b own + off b i j).
Proof.
  intros Hown. pose proof (offset_2d_range b i j Hown) as Hrange.
  destruct Hown as (Hb & Hi & Hj & Hx & Hy).
  destruct (first_node_2d b ltac:(unfold valid_block in Hb; lia)) as (HF & Hle & Hlt).
  pose proof (sum_over_succ own b ltac:(unfold valid_block in Hb; lia)) as Hsucc.
  pose proof (sum_over_mono own (b + 1) nb own_nonneg
                ltac:(unfold valid_block in Hb; lia)) as Hmono.
  rewrite (global_idx2D_step fc bd rank nb_procs n Hmake Hconf depth b i j Hb).
  rewrite HF. change (seg_at bd b 0) with (sx b). change (seg_at bd b 1) with (sy b).
  revert Hrange. unfold offset_2d.
  destruct (Z.eqb_spec i (sx b)) as [Ei|Ei], (Z.eqb_spec j (sy b)) as [Ej|Ej];
    intros Hrange.
  - rewrite (Hx Ei), (Hy Ej). f_equal. rewrite wrap_small; [lia|unfold is_Uint; lia].
  - rewrite (Hx Ei). f_equal. rewrite wrap_small; [lia|unfold is_Uint; lia].
  - rewrite (Hy Ej). f_equal. rewrite wrap_small; [lia|unfold is_Uint; lia].
  - f_equal. rewrite wrap_small; [lia|unfold is_Uint; lia].
Qed.



Lemma back_2d :
  back (NodeIndices2D.block_first_nodes n) = Ok (sum_over nb own).
Proof.
  destruct (first_node_2d nb ltac:(lia)) as (HF & _).
  pose proof (make2D_first_nodes _ _ _ _ _ nb Hmake ltac:(lia)) as Hl.
  assert (Hlen : length (NodeIndices2D.block_first_nodes n)
                 = S (length (block_subdivisions bd))).
  { pose proof Hmake as H.
    apply make2D_topology in H as (_ & _ & _ & counts & Hcounts & ->).
    apply for_each_length in Hcounts. rewrite indices_length in Hcounts by lia.
    simpl. rewrite accumulate_length. lia. }
  unfold back. rewrite Hlen.
  replace (Z.of_nat (S (length (block_subdivisions bd))) - 1) with nb by lia.
  apply at_lookup; [lia|]. rewrite Hl. f_equal.
  unfold first_node in HF. rewrite Hl in HF. done.
Qed.

Lemma below_back_2d g :
  below_back (NodeIndices2D.block_first_nodes n) g
  = if g <? sum_over nb own then Ok g else FailedAssertion.
Proof. unfold below_back. rewrite back_2d. simpl. by destruct (g <? _). Qed.

Lemma below_back_twice F (o : Outcome Z) :
  (retval ← (g ← o; below_back F g); below_back F retval) = (g ← o; below_back F g).
Proof.
  destruct o as [g| | |]; simpl; try done.
  unfold below_back. destruct (back F) as [last| | |]; simpl; try done.
  destruct (g <? last) eqn:E; simpl; [|done]. by rewrite E.
Qed.

(** On the nodes of the lattice of a block the assertions on the block and
    on the node pass, and what is left of them is the assertion on the
    index the lookup arrives at. *)
Lemma global_idx_2d_checked depth : forall b i j,
  valid_block bd b -> 0 <= i <= sx b -> 0 <= j <= sy b ->
  NodeIndices2D.global_idx depth n b i j
  = (g ← NodeIndices2D.unchecked_idx depth n b i j;
     below_back (NodeIndices2D.block_first_nodes n) g).
Proof.
  induction depth as [|depth IH]; intros b i j Hb Hi Hj; [done|].
  destruct (oracle2D_block fc bd rank nb_procs n Hmake Hconf b Hb) as (Hs & Hf & Hr).
  destruct (oracle2D_fields fc bd rank nb_procs n Hmake) as (Hfc & Hbd & _).
  destruct (conf_rows _ _ _ Hconf b Hb) as [_ Hpos].
  simpl. rewrite Hbd.
  rewrite (proj2 (Z.ltb_lt b nb)) by (unfold valid_block in Hb; lia). simpl.
  rewrite Hbd in Hs. rewrite Hs. simpl.
  change (seg_at bd b 0) with (sx b). change (seg_at bd b 1) with (sy b).
  rewrite (proj2 (Z.leb_le i (sx b))) by lia.
  rewrite (proj2 (Z.leb_le j (sy b))) by lia. simpl.
  rewrite Hf. simpl. rewrite Hr. simpl. rewrite Hfc.
  destruct (Z.eqb_spec i (sx b)) as [Ei|Ei], (Z.eqb_spec j (sy b)) as [Ej|Ej];
    destruct (shares_face 2 fc b XX) eqn:Ex; destruct (shares_face 2 fc b YY) eqn:Ey;
    simpl; try reflexivity.
  all: try (destruct (conf_neighbors _ _ _ Hconf b XX Hb ltac:(unfold XX; lia) Ex)
              as [Hn Hsame];
            pose proof (Hsame YY ltac:(unfold YY; lia) ltac:(done)) as Hy;
            destruct (conf_rows _ _ _ Hconf _ Hn) as [_ Hposn];
            pose proof (Hposn XX ltac:(unfold XX; lia));
            destruct (oracle2D_block fc bd rank nb_procs n Hmake Hconf _ Hn)
              as (Hs' & Hf' & _); rewrite Hbd in Hs').
  all: try (destruct (conf_neighbors _ _ _ Hconf b YY Hb ltac:(unfold YY; lia) Ey)
              as [Hn2 Hsame2];
            pose proof (Hsame2 XX ltac:(unfold XX; lia) ltac:(done)) as Hx2;
            destruct (conf_rows _ _ _ Hconf _ Hn2) as [_ Hposn2];
            pose proof (Hposn2 YY ltac:(unfold YY; lia));
            destruct (oracle2D_block fc bd rank nb_procs n Hmake Hconf _ Hn2)
              as (Hs2 & Hf2 & _); rewrite Hbd in Hs2).
  all: change (element_index (adjacent_element fc b Quad.XPOS)) with (neighbor 2 fc b XX);
       change (element_index (adjacent_element fc b Quad.YPOS)) with (neighbor 2 fc b YY).
  all: try (rewrite IH by (first [done | lia]); apply below_back_twice).
  all: try (rewrite Hs'; simpl; rewrite Hf'; reflexivity).
  all: try (rewrite Hs2; simpl; rewrite Hf2; reflexivity).
Qed.

(** The index of a node inside a block is below the number of nodes. *)
Lemma inside_2d_below b i j :
  valid_block bd b -> 0 <= i < sx b -> 0 <= j < sy b ->
  0 <= first_node (NodeIndices2D.block_first_nodes n) b + i + j * sx b < sum_over nb own
  /\ sum_over nb own < Uint_modulus.
Proof.
  intros Hb Hi Hj.
  destruct (first_node_2d b ltac:(unfold valid_block in Hb; lia)) as (HF & Hle & Hlt).
  pose proof (sum_over_succ own b ltac:(unfold valid_block in Hb; lia)) as Hsucc.
  pose proof (sum_over_mono own (b + 1) nb own_nonneg
                ltac:(unfold valid_block in Hb; lia)) as Hmono.
  assert (Hown : owns_2d fc bd b i j).
  { unfold owns_2d. split; [done|]. repeat split; first [lia | intros; lia]. }
  pose proof (offset_2d_range b i j Hown) as Hr.
  unfold offset_2d in Hr.
  rewrite (proj2 (Z.eqb_neq i (sx b))), (proj2 (Z.eqb_neq j (sy b))) in Hr by lia.
  rewrite HF. lia.
Qed.

(** The index a lookup arrives at is below the number of nodes, so that
    the assertion on it passes. *)
Lemma unchecked_2d_below depth : forall b i j g,
  valid_block bd b -> 0 <= i <= sx b -> 0 <= j <= sy b ->
  NodeIndices2D.unchecked_idx depth n b i j = Ok g ->
  0 <= g < sum_over nb own.
Proof.
  induction depth as [|depth IH]; intros b i j g Hb Hi Hj H; [done|].
  destruct (first_node_2d b ltac:(unfold valid_block in Hb; lia)) as (HF & Hle & Hlt).
  pose proof (sum_over_succ own b ltac:(unfold valid_block in Hb; lia)) as Hsucc.
  pose proof (sum_over_mono own (b + 1) nb own_nonneg
                ltac:(unfold valid_block in Hb; lia)) as Hmono.
  destruct (conf_rows _ _ _ Hconf b Hb) as [_ Hpos].
  pose proof (Hpos XX ltac:(unfold XX; lia)). pose proof (Hpos YY ltac:(unfold YY; lia)).
  assert (Howned : owns_2d fc bd b i j -> 0 <= g < sum_over nb own).
  { intros Hown. rewrite (unchecked_2d_owned depth b i j Hown) in H. injection H as <-.
    pose proof (offset_2d_range b i j Hown). lia. }
  rewrite (global_idx2D_step fc bd rank nb_procs n Hmake Hconf depth b i j Hb) in H.
  change (seg_at bd b 0) with (sx b) in H. change (seg_at bd b 1) with (sy b) in H.
  destruct (Z.eqb_spec i (sx b)) as [Ei|Ei], (Z.eqb_spec j (sy b)) as [Ej|Ej];
    destruct (shares_face 2 fc b XX) eqn:Ex; destruct (shares_face 2 fc b YY) eqn:Ey;
    try (apply Howned; unfold owns_2d; split; [done|]; repeat split;
         first [lia | congruence | intros; lia]).
  all: try (destruct (conf_neighbors _ _ _ Hconf b XX Hb ltac:(unfold XX; lia) Ex)
              as [Hn Hsame];
            pose proof (Hsame YY ltac:(unfold YY; lia) ltac:(done)) as Hy;
            destruct (conf_rows _ _ _ Hconf _ Hn) as [_ Hposn];
            pose proof (Hposn XX ltac:(unfold XX; lia))).
  all: try (destruct (conf_neighbors _ _ _ Hconf b YY Hb ltac:(unfold YY; lia) Ey)
              as [Hn2 Hsame2];
            pose proof (Hsame2 XX ltac:(unfold XX; lia) ltac:(done)) as Hx2;
            destruct (conf_rows _ _ _ Hconf _ Hn2) as [_ Hposn2];
            pose proof (Hposn2 YY ltac:(unfold YY; lia))).
  all: try (eapply IH; [| | |exact H]; first [done | lia]).
  all: injection H as <-.
  all: try (destruct (inside_2d_below (neighbor 2 fc b XX) 0 j Hn ltac:(lia) ltac:(lia));
            change (seg_at bd (neighbor 2 fc b XX) 0) with (sx (neighbor 2 fc b XX));
            rewrite wrap_small; [lia|unfold is_Uint; lia]).
  all: try (destruct (inside_2d_below (neighbor 2 fc b YY) i 0 Hn2 ltac:(lia) ltac:(lia));
            rewrite wrap_small; [lia|unfold is_Uint; lia]).
Qed.

(** Where the lookup without the assertions gives an index for a node of
    the lattice of a block, [global_idx] gives the same. *)
Lemma global_idx_2d_Ok depth b i j g :
  valid_block bd b -> 0 <= i <= sx b -> 0 <= j <= sy b ->
  NodeIndices2D.unchecked_idx depth n b i j = Ok g ->
  NodeIndices2D.global_idx depth n b i j = Ok g.
Proof.
  intros Hb Hi Hj H. rewrite global_idx_2d_checked by done. rewrite H. simpl.
  rewrite below_back_2d.
  pose proof (unchecked_2d_below depth b i j g Hb Hi Hj H).
  by rewrite (proj2 (Z.ltb_lt g _)) by lia.
Qed.

End Owned2D.

(** ** Owned nodes of the three dimensional oracle *)

Lemma row_major_range_3 x y z i j k :
  0 <= i < x -> 0 <= j < y -> 0 <= k < z -> 0 <= i + j * x + k * x * y < x * y * z.
Proof.
  intros Hi Hj Hk.
  pose proof (row_major_range x y i j Hi Hj).
  assert (0 <= k * (x * y) <= (z - 1) * (x * y)) by nia.
  nia.
Qed.

Lemma row_major_inj_3 x y i j k i' j' k' :
  0 <= i < x -> 0 <= i' < x -> 0 <= j < y -> 0 <= j' < y ->
  i + j * x + k * x * y = i' + j' * x + k' * x * y -> i = i' /\ j = j' /\ k = k'.
Proof.
  intros Hi Hi' Hj Hj' E.
  destruct (row_major_inj x i (j + k * y) i' (j' + k' * y) Hi Hi' ltac:(lia)) as [-> E'].
  destruct (row_major_inj y j k j' k' Hj Hj' E') as [-> ->]. done.
Qed.

Section Owned3D.
Variable fc : FaceConnectivity.
Variable bd : BlockData.
Variable rank nb_procs : Z.
Variable n : NodeIndices3D.t.
Hypothesis Hmake : NodeIndices3D.make fc bd rank nb_procs = Ok n.
Hypothesis Hconf : conforming 3 fc bd.
Hypothesis Huint : Forall (Forall is_Uint) (block_subdivisions bd).
Hypothesis Hsmall :
  sum_over (Z.of_nat (length (block_subdivisions bd)))
           (lattice_nodes 3 (block_subdivisions bd)) < Uint_modulus.

Local Abbreviation nb := (Z.of_nat (length (block_subdivisions bd))).
Local Abbreviation own := (owned_nodes_3d fc bd).
Local Abbreviation sx b := (seg_at bd b XX).
Local Abbreviation sy b := (seg_at bd b YY).
Local Abbreviation sz b := (seg_at bd b ZZ).
Local Abbreviation off := (offset_3d fc bd).

Lemma own_nonneg_3d x : 0 <= own x.
Proof. by apply owned_nodes_3d_between. Qed.

Lemma first_node_3d b :
  0 <= b <= nb ->
  first_node (NodeIndices3D.block_first_nodes n) b = sum_over b own
  /\ 0 <= sum_over b own <= sum_over nb own
  /\ sum_over nb own < Uint_modulus.
Proof.
  intros Hb.
  pose proof (sum_over_between own (lattice_nodes 3 (block_subdivisions bd)) b nb
                (fun x => owned_nodes_3d_between fc bd x Huint) Hb) as H1.
  pose proof (sum_over_between own (lattice_nodes 3 (block_subdivisions bd)) nb nb
                (fun x => owned_nodes_3d_between fc bd x Huint) ltac:(lia)) as H2.
  pose proof (sum_over_mono own b nb own_nonneg_3d Hb).
  split; [|lia].
  unfold first_node. rewrite (make3D_first_nodes _ _ _ _ _ b Hmake Hb). simpl.
  apply wrap_small. unfold is_Uint. lia.
Qed.

(** The segments of a block and their products are positive. *)
Lemma block_products b :
  valid_block bd b ->
  0 < sx b /\ 0 < sy b /\ 0 < sz b
  /\ 0 < sx b * sy b /\ 0 < sx b * sz b /\ 0 < sy b * sz b /\ 0 < sx b * sy b * sz b.
Proof.
  intros Hb. destruct (conf_rows _ _ _ Hconf b Hb) as [_ Hpos].
  pose proof (Hpos XX ltac:(unfold XX; lia)). pose proof (Hpos YY ltac:(unfold YY; lia)).
  pose proof (Hpos ZZ ltac:(unfold ZZ; lia)). repeat split; nia.
Qed.

Ltac regions b i j k :=
  let HA := fresh "HA" in
  let HB := fresh "HB" in
  let HC := fresh "HC" in
  let HD := fresh "HD" in
  pose proof (row_major_range_3 (sx b) (sy b) (sz b) i j k) as HA;
  pose proof (row_major_range (sy b) (sz b) j k) as HB;
  pose proof (row_major_range (sx b) (sz b) i k) as HC;
  pose proof (row_major_range (sx b) (sy b) i j) as HD;
  try specialize (HA ltac:(lia) ltac:(lia) ltac:(lia));
  try specialize (HB ltac:(lia) ltac:(lia));
  try specialize (HC ltac:(lia) ltac:(lia));
  try specialize (HD ltac:(lia) ltac:(lia)).

Lemma offset_3d_range b i j k :
  owns_3d fc bd b i j k -> 0 <= off b i j k < own b.
Proof.
  intros (Hb & Hi & Hj & Hk & Hx & Hy & Hz).
  destruct (block_products b Hb) as (? & ? & ? & ? & ? & ? & ?).
  unfold offset_3d, owned_nodes_3d. cbv zeta.
  destruct (Z.eqb_spec i (sx b)) as [Ei|Ei], (Z.eqb_spec j (sy b)) as [Ej|Ej],
           (Z.eqb_spec k (sz b)) as [Ek|Ek];
    try rewrite (Hx Ei); try rewrite (Hy Ej); try rewrite (Hz Ek);
    regions b i j k;
    destruct (shares_face 3 fc b XX), (shares_face 3 fc b YY), (shares_face 3 fc b ZZ);
    cbn [Z.b2z negb]; lia.
Qed.


Lemma unchecked_3d_owned depth b i j k :
  owns_3d fc bd b i j k ->
  NodeIndices3D.unchecked_idx (S depth) n b i j k = Ok (sum_over b own + off b i j k).
Proof.
  intros Hown. pose proof (offset_3d_range b i j k Hown) as Hrange.
  destruct Hown as (Hb & Hi & Hj & Hk & Hx & Hy & Hz).
  destruct (first_node_3d b ltac:(unfold valid_block in Hb; lia)) as (HF & Hle & Hlt).
  pose proof (sum_over_succ own b ltac:(unfold valid_block in Hb; lia)) as Hsucc.
  pose proof (sum_over_mono own (b + 1) nb own_nonneg_3d
                ltac:(unfold valid_block in Hb; lia)) as Hmono.
  rewrite (global_idx3D_step fc bd rank nb_procs n Hmake Hconf depth b i j k Hb).
  rewrite HF. revert Hrange. unfold offset_3d. cbv zeta.
  destruct (Z.eqb_spec i (sx b)) as [Ei|Ei], (Z.eqb_spec j (sy b)) as [Ej|Ej],
           (Z.eqb_spec k (sz b)) as [Ek|Ek];
    intros Hrange;
    try rewrite (Hx Ei); try rewrite (Hy Ej); try rewrite (Hz Ek);
    try rewrite (Hx Ei) in Hrange; try rewrite (Hy Ej) in Hrange;
    try rewrite (Hz Ek) in Hrange;
    cbn [Z.b2z negb] in *;
    f_equal; (rewrite wrap_small; [lia|unfold is_Uint; lia]).
Qed.

Lemma back_3d :
  back (NodeIndices3D.block_first_nodes n) = Ok (sum_over nb own).
Proof.
  destruct (first_node_3d nb ltac:(lia)) as (HF & _).
  pose proof (make3D_first_nodes _ _ _ _ _ nb Hmake ltac:(lia)) as Hl.
  assert (Hlen : length (NodeIndices3D.block_first_nodes n)
                 = S (length (block_subdivisions bd))).
  { pose proof Hmake as H.
    apply make3D_topology in H as (_ & _ & _ & counts & Hcounts & ->).
    apply for_each_length in Hcounts. rewrite indices_length in Hcounts by lia.
    simpl. rewrite accumulate_length. lia. }
  unfold back. rewrite Hlen.
  replace (Z.of_nat (S (length (block_subdivisions bd))) - 1) with nb by lia.
  apply at_lookup; [lia|]. rewrite Hl. f_equal.
  unfold first_node in HF. rewrite Hl in HF. done.
Qed.

Lemma below_back_3d g :
  below_back (NodeIndices3D.block_first_nodes n) g
  = if g <? sum_over nb own then Ok g else FailedAssertion.
Proof. unfold below_back. rewrite back_3d. simpl. by destruct (g <? _). Qed.

(** What the lookups read of the block across a shared face. *)
Lemma across_3d b axis :
  valid_block bd b -> 0 <= axis < 3 -> shares_face 3 fc b axis = true ->
  valid_block bd (neighbor 3 fc b axis)
  /\ (forall other, 0 <= other < 3 -> other <> axis ->
        seg_at bd (neighbor 3 fc b axis) other = seg_at bd b other)
  /\ 0 < seg_at bd (neighbor 3 fc b axis) axis
  /\ at_ (block_subdivisions bd) (neighbor 3 fc b axis)
     = Ok [sx (neighbor 3 fc b axis); sy (neighbor 3 fc b axis); sz (neighbor 3 fc b axis)]
  /\ at_ (NodeIndices3D.block_first_nodes n) (neighbor 3 fc b axis)
     = Ok (first_node (NodeIndices3D.block_first_nodes n) (neighbor 3 fc b axis)).
Proof.
  intros Hb Ha Hs.
  destruct (conf_neighbors _ _ _ Hconf b axis Hb Ha Hs) as [Hn Hsame].
  destruct (conf_rows _ _ _ Hconf _ Hn) as [_ Hposn].
  destruct (oracle3D_block fc bd rank nb_procs n Hmake Hconf _ Hn) as (Hs' & Hf' & _).
  destruct (oracle3D_fields fc bd rank nb_procs n Hmake) as (_ & Hbd & _).
  rewrite Hbd in Hs'. split; [done|]. split; [done|]. split; [by apply Hposn|]. by split.
Qed.

(** On the nodes of the lattice of a block the assertions on the block and
    on the node pass, and what is left of them is the assertion on the
    index the lookup arrives at. *)
Lemma global_idx_3d_checked depth : forall b i j k,
  valid_block bd b -> 0 <= i <= sx b -> 0 <= j <= sy b -> 0 <= k <= sz b ->
  NodeIndices3D.global_idx depth n b i j k
  = (g ← NodeIndices3D.unchecked_idx depth n b i j k;
     below_back (NodeIndices3D.block_first_nodes n) g).
Proof.
  induction depth as [|depth IH]; intros b i j k Hb Hi Hj Hk; [done|].
  destruct (oracle3D_block fc bd rank nb_procs n Hmake Hconf b Hb) as (Hs & Hf & Hr).
  destruct (oracle3D_fields fc bd rank nb_procs n Hmake) as (Hfc & Hbd & _).
  pose proof (across_3d b XX Hb ltac:(unfold XX; lia)) as HX.
  pose proof (across_3d b YY Hb ltac:(unfold YY; lia)) as HY.
  pose proof (across_3d b ZZ Hb ltac:(unfold ZZ; lia)) as HZ.
  simpl. rewrite Hbd.
  rewrite (proj2 (Z.ltb_lt b nb)) by (unfold valid_block in Hb; lia). simpl.
  rewrite Hbd in Hs. rewrite Hs. simpl.
  rewrite (proj2 (Z.leb_le i (sx b))) by lia.
  rewrite (proj2 (Z.leb_le j (sy b))) by lia.
  rewrite (proj2 (Z.leb_le k (sz b))) by lia. simpl.
  rewrite Hf. simpl. rewrite Hr. simpl. rewrite Hfc.
  change (element_index (adjacent_element fc b Hexa.KSI_POS)) with (neighbor 3 fc b XX).
  change (element_index (adjacent_element fc b Hexa.ETA_POS)) with (neighbor 3 fc b YY).
  change (element_index (adjacent_element fc b Hexa.ZTA_POS)) with (neighbor 3 fc b ZZ).
  destruct (Z.eqb_spec i (sx b)) as [Ei|Ei], (Z.eqb_spec j (sy b)) as [Ej|Ej],
           (Z.eqb_spec k (sz b)) as [Ek|Ek];
    destruct (shares_face 3 fc b XX) eqn:Ex; destruct (shares_face 3 fc b YY) eqn:Ey;
    destruct (shares_face 3 fc b ZZ) eqn:Ez;
    simpl; try reflexivity;
    try (destruct (HX eq_refl) as (HnX & HsX & HpX & HrX & HfX);
         pose proof (HsX YY ltac:(unfold YY; lia) ltac:(done));
         pose proof (HsX ZZ ltac:(unfold ZZ; lia) ltac:(done)));
    try (destruct (HY eq_refl) as (HnY & HsY & HpY & HrY & HfY);
         pose proof (HsY XX ltac:(unfold XX; lia) ltac:(done));
         pose proof (HsY ZZ ltac:(unfold ZZ; lia) ltac:(done)));
    try (destruct (HZ eq_refl) as (HnZ & HsZ & HpZ & HrZ & HfZ);
         pose proof (HsZ XX ltac:(unfold XX; lia) ltac:(done));
         pose proof (HsZ YY ltac:(unfold YY; lia) ltac:(done)));
    first [ rewrite IH by (first [done | lia]); apply below_back_twice
          | rewrite HrX; simpl; rewrite HfX; reflexivity
          | rewrite HrY; simpl; rewrite HfY; reflexivity
          | rewrite HrZ; simpl; rewrite HfZ; reflexivity ].
Qed.

(** The index of a node inside a block is below the number of nodes. *)
Lemma inside_3d_below b i j k :
  valid_block bd b -> 0 <= i < sx b -> 0 <= j < sy b -> 0 <= k < sz b ->
  0 <= first_node (NodeIndices3D.block_first_nodes n) b + i + j * sx b + k * sx b * sy b
    < sum_over nb own
  /\ sum_over nb own < Uint_modulus.
Proof.
  intros Hb Hi Hj Hk.
  destruct (first_node_3d b ltac:(unfold valid_block in Hb; lia)) as (HF & Hle & Hlt).
  pose proof (sum_over_succ own b ltac:(unfold valid_block in Hb; lia)) as Hsucc.
  pose proof (sum_over_mono own (b + 1) nb own_nonneg_3d
                ltac:(unfold valid_block in Hb; lia)) as Hmono.
  assert (Hown : owns_3d fc bd b i j k).
  { unfold owns_3d. split; [done|]. repeat split; first [lia | intros; lia]. }
  pose proof (offset_3d_range b i j k Hown) as Hr.
  unfold offset_3d in Hr. cbv zeta in Hr.
  rewrite (proj2 (Z.eqb_neq i (sx b))), (proj2 (Z.eqb_neq j (sy b))),
    (proj2 (Z.eqb_neq k (sz b))) in Hr by lia.
  rewrite HF. lia.
Qed.

(** The index a lookup arrives at is below the number of nodes, so that
    the assertion on it passes. *)
Lemma unchecked_3d_below depth : forall b i j k g,
  valid_block bd b -> 0 <= i <= sx b -> 0 <= j <= sy b -> 0 <= k <= sz b ->
  NodeIndices3D.unchecked_idx depth n b i j k = Ok g ->
  0 <= g < sum_over nb own.
Proof.
  induction depth as [|depth IH]; intros b i j k g Hb Hi Hj Hk H; [done|].
  destruct (block_products b Hb) as (? & ? & ? & _).
  pose proof (across_3d b XX Hb ltac:(unfold XX; lia)) as HX.
  pose proof (across_3d b YY Hb ltac:(unfold YY; lia)) as HY.
  pose proof (across_3d b ZZ Hb ltac:(unfold ZZ; lia)) as HZ.
  assert (Howned : owns_3d fc bd b i j k -> 0 <= g < sum_over nb own).
  { intros Hown. rewrite (unchecked_3d_owned depth b i j k Hown) in H. injection H as <-.
    pose proof (offset_3d_range b i j k Hown).
    destruct (first_node_3d b ltac:(unfold valid_block in Hb; lia)) as (HF & Hle & Hlt).
    pose proof (sum_over_succ own b ltac:(unfold valid_block in Hb; lia)) as Hsucc.
    pose proof (sum_over_mono own (b + 1) nb own_nonneg_3d
                  ltac:(unfold valid_block in Hb; lia)) as Hmono.
    lia. }
  rewrite (global_idx3D_step fc bd rank nb_procs n Hmake Hconf depth b i j k Hb) in H.
  destruct (Z.eqb_spec i (sx b)) as [Ei|Ei], (Z.eqb_spec j (sy b)) as [Ej|Ej],
           (Z.eqb_spec k (sz b)) as [Ek|Ek];
    destruct (shares_face 3 fc b XX) eqn:Ex; destruct (shares_face 3 fc b YY) eqn:Ey;
    destruct (shares_face 3 fc b ZZ) eqn:Ez;
    try (apply Howned; unfold owns_3d; split; [done|]; repeat split;
         first [lia | congruence | intros; lia]);
    try (destruct (HX eq_refl) as (HnX & HsX & HpX & HrX & HfX);
         pose proof (HsX YY ltac:(unfold YY; lia) ltac:(done));
         pose proof (HsX ZZ ltac:(unfold ZZ; lia) ltac:(done)));
    try (destruct (HY eq_refl) as (HnY & HsY & HpY & HrY & HfY);
         pose proof (HsY XX ltac:(unfold XX; lia) ltac:(done));
         pose proof (HsY ZZ ltac:(unfold ZZ; lia) ltac:(done)));
    try (destruct (HZ eq_refl) as (HnZ & HsZ & HpZ & HrZ & HfZ);
         pose proof (HsZ XX ltac:(unfold XX; lia) ltac:(done));
         pose proof (HsZ YY ltac:(unfold YY; lia) ltac:(done)));
    first
      [ eapply IH; [| | | |exact H]; first [done | lia]
      | injection H as <-;
        first
          [ destruct (inside_3d_below (neighbor 3 fc b XX) 0 j k HnX
                        ltac:(lia) ltac:(lia) ltac:(lia));
            rewrite wrap_small; [lia|unfold is_Uint; lia]
          | destruct (inside_3d_below (neighbor 3 fc b YY) i 0 k HnY
                        ltac:(lia) ltac:(lia) ltac:(lia));
            rewrite wrap_small; [lia|unfold is_Uint; lia]
          | destruct (inside_3d_below (neighbor 3 fc b ZZ) i j 0 HnZ
                        ltac:(lia) ltac:(lia) ltac:(lia));
            rewrite wrap_small; [lia|unfold is_Uint; lia] ] ].
Qed.

(** Where the lookup without the assertions gives an index for a node of
    the lattice of a block, [global_idx] gives the same. *)
Lemma global_idx_3d_Ok depth b i j k g :
  valid_block bd b -> 0 <= i <= sx b -> 0 <= j <= sy b -> 0 <= k <= sz b ->
  NodeIndices3D.unchecked_idx depth n b i j k = Ok g ->
  NodeIndices3D.global_idx depth n b i j k = Ok g.
Proof.
  intros Hb Hi Hj Hk H. rewrite global_idx_3d_checked by done. rewrite H. simpl.
  rewrite below_back_3d.
  pose proof (unchecked_3d_below depth b i j k g Hb Hi Hj Hk H).
  by rewrite (proj2 (Z.ltb_lt g _)) by lia.
Qed.

End Owned3D.

(** ** Shared faces *)

(** C1. In a conforming topology whose blocks are glued with
    their axes aligned, whose corners close up and whose sizes stay within
    32 bits, a node of a face shared by the blocks [A] and [B] (the face of
    [A] in the positive direction of an axis, which is, corner for corner,
    the face of [B] where its index along that axis is 0) has the same
    global index whether it is looked up in [A] or in [B], in the two
    dimensional and in the three dimensional oracle: both lookups return,
    with all the assertions of [global_idx] passed, at every depth of
    recursion the lookup needs (two nested calls in two dimensions, three in
    three). *)
Theorem shared_face_same_gid :
  (forall fc bd rank nb_procs n depth A,
     NodeIndices2D.make fc bd rank nb_procs = Ok n ->
     conforming 2 fc bd -> corners_closed 2 fc bd -> aligned 2 fc bd ->
     Forall (Forall is_Uint) (block_subdivisions bd) ->
     sum_over (Z.of_nat (length (block_subdivisions bd)))
              (lattice_nodes 2 (block_subdivisions bd)) < Uint_modulus ->
     valid_block bd A ->
     (shares_face 2 fc A XX = true -> forall j, 0 <= j <= seg_at bd A YY ->
        same_gid (NodeIndices2D.global_idx (S (S depth)) n A (seg_at bd A XX) j)
                 (NodeIndices2D.global_idx (S (S depth)) n (neighbor 2 fc A XX) 0 j))
     /\ (shares_face 2 fc A YY = true -> forall i, 0 <= i <= seg_at bd A XX ->
        same_gid (NodeIndices2D.global_idx (S (S depth)) n A i (seg_at bd A YY))
                 (NodeIndices2D.global_idx (S (S depth)) n (neighbor 2 fc A YY) i 0)))
  /\ (forall fc bd rank nb_procs n depth A,
     NodeIndices3D.make fc bd rank nb_procs = Ok n ->
     conforming 3 fc bd -> corners_closed 3 fc bd -> aligned 3 fc bd ->
     Forall (Forall is_Uint) (block_subdivisions bd) ->
     sum_over (Z.of_nat (length (block_subdivisions bd)))
              (lattice_nodes 3 (block_subdivisions bd)) < Uint_modulus ->
     valid_block bd A ->
     (shares_face 3 fc A XX = true ->
        forall j k, 0 <= j <= seg_at bd A YY -> 0 <= k <= seg_at bd A ZZ ->
        same_gid (NodeIndices3D.global_idx (S (S (S depth))) n A (seg_at bd A XX) j k)
                 (NodeIndices3D.global_idx (S (S (S depth))) n (neighbor 3 fc A XX) 0 j k))
     /\ (shares_face 3 fc A YY = true ->
        forall i k, 0 <= i <= seg_at bd A XX -> 0 <= k <= seg_at bd A ZZ ->
        same_gid (NodeIndices3D.global_idx (S (S (S depth))) n A i (seg_at bd A YY) k)
                 (NodeIndices3D.global_idx (S (S (S depth))) n (neighbor 3 fc A YY) i 0 k))
     /\ (shares_face 3 fc A ZZ = true ->
        forall i j, 0 <= i <= seg_at bd A XX -> 0 <= j <= seg_at bd A YY ->
        same_gid (NodeIndices3D.global_idx (S (S (S depth))) n A i j (seg_at bd A ZZ))
                 (NodeIndices3D.global_idx (S (S (S depth))) n (neighbor 3 fc A ZZ) i j 0))).
Proof.
  split.
  - intros fc bd rank nb_procs n depth A Hmake Hconf Hcorners _ Huint Hsmall HA.
    destruct (conf_rows _ _ _ Hconf A HA) as [_ Hpos].
    pose proof (Hpos XX ltac:(unfold XX; lia)). pose proof (Hpos YY ltac:(unfold YY; lia)).
    split.
    + intros Hx j Hj.
      destruct (conf_neighbors _ _ _ Hconf A XX HA ltac:(unfold XX; lia) Hx) as [Hn Hsame].
      pose proof (Hsame YY ltac:(unfold YY; lia) ltac:(done)).
      destruct (conf_rows _ _ _ Hconf _ Hn) as [_ Hposn].
      pose proof (Hposn XX ltac:(unfold XX; lia)).
      destruct (shared_face_2D_x fc bd rank nb_procs n Hmake Hconf depth A j
                  HA Hx Hj) as (g & Hg1 & Hg2).
      exists g.
      split; apply (global_idx_2d_Ok fc bd rank nb_procs n Hmake Hconf Huint Hsmall);
        first [done | lia].
    + intros Hy i Hi.
      destruct (conf_neighbors _ _ _ Hconf A YY HA ltac:(unfold YY; lia) Hy) as [Hn Hsame].
      pose proof (Hsame XX ltac:(unfold XX; lia) ltac:(done)).
      destruct (conf_rows _ _ _ Hconf _ Hn) as [_ Hposn].
      pose proof (Hposn YY ltac:(unfold YY; lia)).
      destruct (shared_face_2D_y fc bd rank nb_procs n Hmake Hconf Hcorners depth A i
                  HA Hy Hi) as (g & Hg1 & Hg2).
      exists g.
      split; apply (global_idx_2d_Ok fc bd rank nb_procs n Hmake Hconf Huint Hsmall);
        first [done | lia].
  - intros fc bd rank nb_procs n depth A Hmake Hconf Hcorners _ Huint Hsmall HA.
    destruct (conf_rows _ _ _ Hconf A HA) as [_ Hpos].
    pose proof (Hpos XX ltac:(unfold XX; lia)). pose proof (Hpos YY ltac:(unfold YY; lia)).
    pose proof (Hpos ZZ ltac:(unfold ZZ; lia)).
    split; [|split].
    + intros Hx j k Hj Hk.
      destruct (conf_neighbors _ _ _ Hconf A XX HA ltac:(unfold XX; lia) Hx) as [Hn Hsame].
      pose proof (Hsame YY ltac:(unfold YY; lia) ltac:(done)).
      pose proof (Hsame ZZ ltac:(unfold ZZ; lia) ltac:(done)).
      destruct (conf_rows _ _ _ Hconf _ Hn) as [_ Hposn].
      pose proof (Hposn XX ltac:(unfold XX; lia)).
      destruct (shared_face_3D_x fc bd rank nb_procs n Hmake Hconf depth A j k
                  HA Hx Hj Hk) as (g & Hg1 & Hg2).
      exists g.
      split; apply (global_idx_3d_Ok fc bd rank nb_procs n Hmake Hconf Huint Hsmall);
        first [done | lia].
    + intros Hy i k Hi Hk.
      destruct (conf_neighbors _ _ _ Hconf A YY HA ltac:(unfold YY; lia) Hy) as [Hn Hsame].
      pose proof (Hsame XX ltac:(unfold XX; lia) ltac:(done)).
      pose proof (Hsame ZZ ltac:(unfold ZZ; lia) ltac:(done)).
      destruct (conf_rows _ _ _ Hconf _ Hn) as [_ Hposn].
      pose proof (Hposn YY ltac:(unfold YY; lia)).
      destruct (shared_face_3D_y fc bd rank nb_procs n Hmake Hconf Hcorners depth A i k
                  HA Hy Hi Hk) as (g & Hg1 & Hg2).
      exists g.
      split; apply (global_idx_3d_Ok fc bd rank nb_procs n Hmake Hconf Huint Hsmall);
        first [done | lia].
    + intros Hz i j Hi Hj.
      destruct (conf_neighbors _ _ _ Hconf A ZZ HA ltac:(unfold ZZ; lia) Hz) as [Hn Hsame].
      pose proof (Hsame XX ltac:(unfold XX; lia) ltac:(done)).
      pose proof (Hsame YY ltac:(unfold YY; lia) ltac:(done)).
      destruct (conf_rows _ _ _ Hconf _ Hn) as [_ Hposn].
      pose proof (Hposn ZZ ltac:(unfold ZZ; lia)).
      destruct (shared_face_3D_z fc bd rank nb_procs n Hmake Hconf Hcorners depth A i j
                  HA Hz Hi Hj) as (g & Hg1 & Hg2).
      exists g.
      split; apply (global_idx_3d_Ok fc bd rank nb_procs n Hmake Hconf Huint Hsmall);
        first [done | lia].
Qed.

Lemma glued_grid_2d_conforming : conforming 2 (grid_connectivity 2) glued_grid_2d.
Proof.
  split.
  - apply (conf_rows _ _ _ grid_2d_conforming).
  - apply (conf_neighbors _ _ _ grid_2d_conforming).
Qed.

Lemma glued_grid_3d_conforming : conforming 3 (grid_connectivity 3) glued_grid_3d.
Proof.
  split.
  - apply (conf_rows _ _ _ grid_3d_conforming).
  - apply (conf_neighbors _ _ _ grid_3d_conforming).
Qed.

(** The ends of the axes of a corner, one by one. *)
Ltac enumerate_ends ends :=
  repeat match goal with
  | H : length ends = _ |- _ => simpl in H
  end;
  repeat (let e := fresh "e" in destruct ends as [|e ends]; try discriminate);
  repeat match goal with
  | H : Forall _ (_ :: _) |- _ => apply Forall_cons in H as [[-> | ->] H]
  end.

Lemma glued_grid_2d_aligned : aligned 2 (grid_connectivity 2) glued_grid_2d.
Proof.
  intros A axis HA Ha Hs ends Hlen Hends Hone.
  enumerate_block A; enumerate_axis2 axis; try discriminate Hs;
    enumerate_ends ends; try discriminate Hone; eexists; split; reflexivity.
Qed.

Lemma glued_grid_3d_aligned : aligned 3 (grid_connectivity 3) glued_grid_3d.
Proof.
  intros A axis HA Ha Hs ends Hlen Hends Hone.
  enumerate_block A; enumerate_axis3 axis; try discriminate Hs;
    enumerate_ends ends; try discriminate Hone; eexists; split; reflexivity.
Qed.

(** The node at the corner of four blocks, seen from block 0 and from the
    block above it. *)
Lemma shared_face_same_gid_witness :
  (exists n, NodeIndices2D.make (grid_connectivity 2) glued_grid_2d 0 2 = Ok n
     /\ same_gid (NodeIndices2D.global_idx 2 n 0 2 3)
                 (NodeIndices2D.global_idx 2 n 2 2 0))
  /\ (exists n, NodeIndices3D.make (grid_connectivity 3) glued_grid_3d 1 2 = Ok n
     /\ same_gid (NodeIndices3D.global_idx 3 n 0 2 3 2)
                 (NodeIndices3D.global_idx 3 n 2 2 0 2)).
Proof.
  split.
  - eexists. split; [vm_compute; reflexivity|].
    refine (proj2 (proj1 shared_face_same_gid (grid_connectivity 2) glued_grid_2d 0 2 _ 0%nat 0
              _ glued_grid_2d_conforming grid_2d_closed glued_grid_2d_aligned _ _ _) _ 2 _).
    + vm_compute; reflexivity.
    + repeat constructor; unfold Uint_modulus; lia.
    + vm_compute; reflexivity.
    + unfold valid_block; simpl; lia.
    + reflexivity.
    + vm_compute. split; congruence.
  - eexists. split; [vm_compute; reflexivity|].
    refine (proj1 (proj2 (proj2 shared_face_same_gid (grid_connectivity 3) glued_grid_3d 1 2 _
              0%nat 0 _ glued_grid_3d_conforming grid_3d_closed glued_grid_3d_aligned _ _ _))
              _ 2 2 _ _).
    + vm_compute; reflexivity.
    + repeat constructor; unfold Uint_modulus; lia.
    + vm_compute; reflexivity.
    + unfold valid_block; simpl; lia.
    + reflexivity.
    + vm_compute. split; congruence.
    + vm_compute. split; congruence.
Defined.

(** C1 as stated fails: around a re-entrant corner the node shared by the
    three blocks has the global index 7 seen from block 0 and the index 2
    seen from block 1, across the face the two blocks share. *)
Lemma shared_face_counterexample :
  (n ← NodeIndices2D.make corner_connectivity corner_2d 0 1;
   from_A ← NodeIndices2D.global_idx 2 n 0 (seg_at corner_2d 0 XX) (seg_at corner_2d 0 YY);
   from_B ← NodeIndices2D.global_idx 2 n (neighbor 2 corner_connectivity 0 YY)
                                     (seg_at corner_2d 0 XX) 0;
   Ok (shares_face 2 corner_connectivity 0 YY, from_A, from_B))
  = Ok (true, 7, 2).
Proof. vm_compute. reflexivity. Qed.

(** ** A face glued with a quarter turn *)

(** Where a face is glued with a quarter turn the oracle is not stable,
    though the segment counts conform and the corners close up: the middle
    of the face block 0 shares with block 1 is the node (2, 1) of block 0
    and the node (1, 0) of block 1, and the oracle, which takes the face
    across for the negative face of the same axis, gives it the index 8 from
    block 0 and the index 7 from block 1. *)
Lemma turned_face_two_ids :
  conforming 2 turned_connectivity turned_2d
  /\ corners_closed 2 turned_connectivity turned_2d
  /\ ¬ glued 2 turned_2d 0 XX 1
  /\ (n ← NodeIndices2D.make turned_connectivity turned_2d 0 1;
      from_A ← NodeIndices2D.global_idx 2 n 0 2 1;
      from_B ← NodeIndices2D.global_idx 2 n 1 1 0;
      Ok (shares_face 2 turned_connectivity 0 XX, neighbor 2 turned_connectivity 0 XX,
          from_A, from_B))
     = Ok (true, 1, 8, 7).
Proof.
  split; [|split; [|split]].
  - split.
    + intros b Hb. unfold valid_block in Hb. simpl in Hb.
      assert (b = 0 \/ b = 1) as [-> | ->] by lia; (split; [reflexivity|]);
        intros axis Ha; enumerate_axis2 axis; reflexivity.
    + intros b axis Hb Ha Hs. unfold valid_block in Hb. simpl in Hb.
      assert (b = 0 \/ b = 1) as [-> | ->] by lia; enumerate_axis2 axis;
        try discriminate Hs;
        (split; [unfold valid_block; simpl; vm_compute; split; congruence|]);
        intros other Ho Hne; enumerate_axis2 other; try congruence; reflexivity.
  - intros b d e Hb Hd He Hne Hsd Hse. unfold valid_block in Hb. simpl in Hb.
    assert (b = 0 \/ b = 1) as [-> | ->] by lia; enumerate_axis2 d; enumerate_axis2 e;
      try congruence; try discriminate Hsd; try discriminate Hse.
  - intros H. destruct (H [1; 1]) as (p & Hp & Hq); [done| |done|].
    + repeat constructor; by right.
    + vm_compute in Hp, Hq. congruence.
  - vm_compute. reflexivity.
Qed.

(** ** The owned nodes, one to one *)

Lemma global_idx_2d_owned fc bd rank nb_procs n depth b i j :
  NodeIndices2D.make fc bd rank nb_procs = Ok n ->
  conforming 2 fc bd ->
  Forall (Forall is_Uint) (block_subdivisions bd) ->
  sum_over (Z.of_nat (length (block_subdivisions bd)))
           (lattice_nodes 2 (block_subdivisions bd)) < Uint_modulus ->
  owns_2d fc bd b i j ->
  NodeIndices2D.global_idx (S depth) n b i j
  = Ok (sum_over b (owned_nodes_2d fc bd) + offset_2d fc bd b i j).
Proof.
  intros Hmake Hconf Huint Hsmall Hown.
  pose proof Hown as (Hb & Hi & Hj & _).
  apply (global_idx_2d_Ok fc bd rank nb_procs n Hmake Hconf Huint Hsmall); try done.
  by apply (unchecked_2d_owned fc bd rank nb_procs n Hmake Hconf Huint Hsmall).
Qed.

(** X5. The two dimensional oracle numbers the nodes a block owns (the
    nodes of its lattice that do not lie on a positive face shared with
    another block) one to one within the range of the block: the lookup of
    an owned node of block [b] passes the assertions of [global_idx], its
    global index lies between [block_first_nodes[b]] and
    [block_first_nodes[b+1]], and two owned nodes with one and the same
    global index are one and the same node of one and the same block. *)
Theorem oracle2D_owned_one_to_one (fc : FaceConnectivity) (bd : BlockData)
    (rank nb_procs : Z) (n : NodeIndices2D.t) :
  NodeIndices2D.make fc bd rank nb_procs = Ok n ->
  conforming 2 fc bd ->
  Forall (Forall is_Uint) (block_subdivisions bd) ->
  sum_over (Z.of_nat (length (block_subdivisions bd)))
           (lattice_nodes 2 (block_subdivisions bd)) < Uint_modulus ->
  (forall depth b i j, owns_2d fc bd b i j ->
     exists g, NodeIndices2D.global_idx (S depth) n b i j = Ok g
               /\ first_node (NodeIndices2D.block_first_nodes n) b <= g
                  < first_node (NodeIndices2D.block_first_nodes n) (b + 1))
  /\ (forall depth depth' b i j b' i' j' g,
        owns_2d fc bd b i j -> owns_2d fc bd b' i' j' ->
        NodeIndices2D.global_idx (S depth) n b i j = Ok g ->
        NodeIndices2D.global_idx (S depth') n b' i' j' = Ok g ->
        b = b' /\ i = i' /\ j = j').
Proof.
  intros Hmake Hconf Huint Hsmall.
  assert (Hrange : forall b i j, owns_2d fc bd b i j ->
            sum_over b (owned_nodes_2d fc bd)
            <= sum_over b (owned_nodes_2d fc bd) + offset_2d fc bd b i j
            < sum_over (b + 1) (owned_nodes_2d fc bd)).
  { intros b i j Hown. pose proof (offset_2d_range fc bd Hconf b i j Hown).
    destruct Hown as (Hb & _). rewrite sum_over_succ by (unfold valid_block in Hb; lia).
    lia. }
  split.
  - intros depth b i j Hown. eexists.
    split; [by apply (global_idx_2d_owned fc bd rank nb_procs n)|].
    pose proof (Hrange b i j Hown). destruct Hown as (Hb & _).
    unfold valid_block in Hb.
    destruct (first_node_2d fc bd rank nb_procs n Hmake Huint Hsmall b ltac:(lia))
      as [-> _].
    destruct (first_node_2d fc bd rank nb_procs n Hmake Huint Hsmall (b + 1) ltac:(lia))
      as [-> _].
    done.
  - intros depth depth' b i j b' i' j' g Hown Hown' Hg Hg'.
    rewrite (global_idx_2d_owned fc bd rank nb_procs n) in Hg by done.
    rewrite (global_idx_2d_owned fc bd rank nb_procs n) in Hg' by done.
    injection Hg as Hg. injection Hg' as Hg'.
    pose proof (Hrange b i j Hown) as R. pose proof (Hrange b' i' j' Hown') as R'.
    rewrite Hg in R. rewrite Hg' in R'.
    assert (b = b') as <-.
    { destruct Hown as (Hb & _), Hown' as (Hb' & _).
      eapply (sum_over_separates (owned_nodes_2d fc bd) b b' g); try done.
      - apply (own_nonneg fc bd Huint).
      - unfold valid_block in Hb. lia.
      - unfold valid_block in Hb'. lia. }
    split; [done|]. apply (offset_2d_inj fc bd Hconf b); [done|done|lia].
Qed.

Lemma oracle2D_owned_one_to_one_witness :
  exists n g,
    NodeIndices2D.make (grid_connectivity 2) grid_2d 0 2 = Ok n
    /\ NodeIndices2D.global_idx 1 n 1 1 1 = Ok g
    /\ 6 <= g < 12.
Proof.
  assert (H : exists n, NodeIndices2D.make (grid_connectivity 2) grid_2d 0 2 = Ok n
                        /\ first_node (NodeIndices2D.block_first_nodes n) 1 = 6
                        /\ first_node (NodeIndices2D.block_first_nodes n) (1 + 1) = 12)
    by (vm_compute; eauto).
  assert (Huint : Forall (Forall is_Uint) (block_subdivisions grid_2d))
    by (repeat constructor; unfold Uint_modulus; lia).
  assert (Hown : owns_2d (grid_connectivity 2) grid_2d 1 1 1).
  { unfold owns_2d, valid_block. vm_compute. repeat split; congruence. }
  destruct H as (n & H & H1 & H2). exists n.
  destruct (oracle2D_owned_one_to_one _ _ _ _ _ H grid_2d_conforming Huint) as [Hrange _];
    [vm_compute; reflexivity|].
  destruct (Hrange 0%nat 1 1 1 Hown) as (g & Hg & Hb).
  exists g. split; [done|]. split; [done|]. rewrite H1, H2 in Hb. exact Hb.
Defined.

(** The owned nodes of a block lie in eight consecutive ranges: the inside,
    the three positive faces, the three edges between them and the corner. *)
Lemma offset_3d_layout fc bd b :
  conforming 3 fc bd -> valid_block bd b ->
  exists s1 s2 s3 s4 s5 s6 s7 : Z,
    0 <= s1 /\ s1 <= s2 /\ s2 <= s3 /\ s3 <= s4 /\ s4 <= s5 /\ s5 <= s6 /\ s6 <= s7
    /\ forall i j k, owns_3d fc bd b i j k ->
       let off := offset_3d fc bd b i j k in
       let sx := seg_at bd b XX in
       let sy := seg_at bd b YY in
       let sz := seg_at bd b ZZ in
       (i < sx /\ j < sy /\ k < sz /\ off < s1 /\ off = i + j * sx + k * sx * sy)
       \/ (i = sx /\ j < sy /\ k < sz /\ off < s2 /\ off = s1 + (j + k * sy))
       \/ (i < sx /\ j = sy /\ k < sz /\ off < s3 /\ off = s2 + (i + k * sx))
       \/ (i < sx /\ j < sy /\ k = sz /\ off < s4 /\ off = s3 + (i + j * sx))
       \/ (i = sx /\ j = sy /\ k < sz /\ off < s5 /\ off = s4 + k)
       \/ (i = sx /\ j < sy /\ k = sz /\ off < s6 /\ off = s5 + j)
       \/ (i < sx /\ j = sy /\ k = sz /\ off < s7 /\ off = s6 + i)
       \/ (i = sx /\ j = sy /\ k = sz /\ off = s7).
Proof.
  intros Hconf Hb.
  destruct (block_products fc bd Hconf b Hb) as (Hsx & Hsy & Hsz & HR & HQ & HP & HV).
  set (sx := seg_at bd b XX) in *. set (sy := seg_at bd b YY) in *.
  set (sz := seg_at bd b ZZ) in *.
  set (bx := Z.b2z (negb (shares_face 3 fc b XX))).
  set (by_ := Z.b2z (negb (shares_face 3 fc b YY))).
  set (bz := Z.b2z (negb (shares_face 3 fc b ZZ))).
  exists (sx * sy * sz), (sx * sy * sz + bx * sy * sz),
    (sx * sy * sz + bx * sy * sz + by_ * sx * sz),
    (sx * sy * sz + bx * sy * sz + by_ * sx * sz + bz * sx * sy),
    (sx * sy * sz + bx * sy * sz + by_ * sx * sz + bz * sx * sy + bx * by_ * sz),
    (sx * sy * sz + bx * sy * sz + by_ * sx * sz + bz * sx * sy + bx * by_ * sz
     + bx * bz * sy),
    (sx * sy * sz + bx * sy * sz + by_ * sx * sz + bz * sx * sy + bx * by_ * sz
     + bx * bz * sy + by_ * bz * sx).
  split; [lia|].
  split; [subst bx; destruct (shares_face 3 fc b XX); cbn [Z.b2z negb]; lia|].
  split; [subst by_; destruct (shares_face 3 fc b YY); cbn [Z.b2z negb]; lia|].
  split; [subst bz; destruct (shares_face 3 fc b ZZ); cbn [Z.b2z negb]; lia|].
  split; [subst bx by_; destruct (shares_face 3 fc b XX), (shares_face 3 fc b YY);
          cbn [Z.b2z negb]; lia|].
  split; [subst bx bz; destruct (shares_face 3 fc b XX), (shares_face 3 fc b ZZ);
          cbn [Z.b2z negb]; lia|].
  split; [subst by_ bz; destruct (shares_face 3 fc b YY), (shares_face 3 fc b ZZ);
          cbn [Z.b2z negb]; lia|].
  intros i j k (_ & Hi & Hj & Hk & Hx & Hy & Hz). cbv zeta.
  fold sx sy sz in Hi, Hj, Hk, Hx, Hy, Hz |- *.
  unfold offset_3d. cbv zeta. fold sx sy sz bx by_ bz.
  pose proof (row_major_range_3 sx sy sz i j k) as HA.
  pose proof (row_major_range sy sz j k) as HB.
  pose proof (row_major_range sx sz i k) as HC.
  pose proof (row_major_range sx sy i j) as HD.
  destruct (Z.eqb_spec i sx) as [Ei|Ei], (Z.eqb_spec j sy) as [Ej|Ej],
           (Z.eqb_spec k sz) as [Ek|Ek];
    try (assert (bx = 1) as -> by (subst bx; by rewrite (Hx Ei)));
    try (assert (by_ = 1) as -> by (subst by_; by rewrite (Hy Ej)));
    try (assert (bz = 1) as -> by (subst bz; by rewrite (Hz Ek))).
  - do 7 right. repeat split; lia.
  - do 4 right; left. repeat split; lia.
  - do 5 right; left. repeat split; lia.
  - right; left. specialize (HB ltac:(lia) ltac:(lia)). repeat split; lia.
  - do 6 right; left. repeat split; lia.
  - do 2 right; left. specialize (HC ltac:(lia) ltac:(lia)). repeat split; lia.
  - do 3 right; left. specialize (HD ltac:(lia) ltac:(lia)). repeat split; lia.
  - left. specialize (HA ltac:(lia) ltac:(lia) ltac:(lia)). repeat split; lia.
Qed.

Lemma offset_3d_inj fc bd b i j k i' j' k' :
  conforming 3 fc bd ->
  owns_3d fc bd b i j k -> owns_3d fc bd b i' j' k' ->
  offset_3d fc bd b i j k = offset_3d fc bd b i' j' k' -> i = i' /\ j = j' /\ k = k'.
Proof.
  intros Hconf Hown Hown' E.
  pose proof (offset_3d_range fc bd Hconf b i j k Hown) as [H0 _].
  pose proof (offset_3d_range fc bd Hconf b i' j' k' Hown') as [H0' _].
  pose proof Hown as (Hb & Hi & Hj & Hk & _).
  pose proof Hown' as (_ & Hi' & Hj' & Hk' & _).
  destruct (block_products fc bd Hconf b Hb) as (Hsx & Hsy & Hsz & _).
  destruct (offset_3d_layout fc bd b Hconf Hb)
    as (s1 & s2 & s3 & s4 & s5 & s6 & s7 & L1 & L2 & L3 & L4 & L5 & L6 & L7 & Hplace).
  pose proof (Hplace i j k Hown) as P. pose proof (Hplace i' j' k' Hown') as P'.
  cbv zeta in P, P'. clear Hplace Hown Hown'.
  rewrite <- E in P'. revert H0 H0' P P'. clear E.
  generalize (offset_3d fc bd b i j k). generalize (offset_3d fc bd b i' j' k').
  set (sx := seg_at bd b XX) in *. set (sy := seg_at bd b YY) in *.
  set (sz := seg_at bd b ZZ) in *. clearbody sx sy sz.
  intros _ o H0 _ P P'.
  destruct P as [P|[P|[P|[P|[P|[P|[P|P]]]]]]];
    destruct P' as [P'|[P'|[P'|[P'|[P'|[P'|[P'|P']]]]]]];
    first [ exfalso; lia
          | destruct (row_major_inj_3 sx sy i j k i' j' k'); lia
          | destruct (row_major_inj sy j k j' k'); lia
          | destruct (row_major_inj sx i k i' k'); lia
          | destruct (row_major_inj sx i j i' j'); lia
          | lia ].
Qed.

Lemma global_idx_3d_owned fc bd rank nb_procs n depth b i j k :
  NodeIndices3D.make fc bd rank nb_procs = Ok n ->
  conforming 3 fc bd ->
  Forall (Forall is_Uint) (block_subdivisions bd) ->
  sum_over (Z.of_nat (length (block_subdivisions bd)))
           (lattice_nodes 3 (block_subdivisions bd)) < Uint_modulus ->
  owns_3d fc bd b i j k ->
  NodeIndices3D.global_idx (S depth) n b i j k
  = Ok (sum_over b (owned_nodes_3d fc bd) + offset_3d fc bd b i j k).
Proof.
  intros Hmake Hconf Huint Hsmall Hown.
  pose proof Hown as (Hb & Hi & Hj & Hk & _).
  apply (global_idx_3d_Ok fc bd rank nb_procs n Hmake Hconf Huint Hsmall); try done.
  by apply (unchecked_3d_owned fc bd rank nb_procs n Hmake Hconf Huint Hsmall).
Qed.

(** X6. The three dimensional oracle numbers the nodes a block owns (the
    nodes of its lattice that do not lie on a positive face shared with
    another block) one to one within the range of the block: the lookup of
    an owned node of block [b] passes the assertions of [global_idx], its
    global index lies between [block_first_nodes[b]] and
    [block_first_nodes[b+1]], and two owned nodes with one and the same
    global index are one and the same node of one and the same block. *)
Theorem oracle3D_owned_one_to_one (fc : FaceConnectivity) (bd : BlockData)
    (rank nb_procs : Z) (n : NodeIndices3D.t) :
  NodeIndices3D.make fc bd rank nb_procs = Ok n ->
  conforming 3 fc bd ->
  Forall (Forall is_Uint) (block_subdivisions bd) ->
  sum_over (Z.of_nat (length (block_subdivisions bd)))
           (lattice_nodes 3 (block_subdivisions bd)) < Uint_modulus ->
  (forall depth b i j k, owns_3d fc bd b i j k ->
     exists g, NodeIndices3D.global_idx (S depth) n b i j k = Ok g
               /\ first_node (NodeIndices3D.block_first_nodes n) b <= g
                  < first_node (NodeIndices3D.block_first_nodes n) (b + 1))
  /\ (forall depth depth' b i j k b' i' j' k' g,
        owns_3d fc bd b i j k -> owns_3d fc bd b' i' j' k' ->
        NodeIndices3D.global_idx (S depth) n b i j k = Ok g ->
        NodeIndices3D.global_idx (S depth') n b' i' j' k' = Ok g ->
        b = b' /\ i = i' /\ j = j' /\ k = k').
Proof.
  intros Hmake Hconf Huint Hsmall.
  assert (Hrange : forall b i j k, owns_3d fc bd b i j k ->
            sum_over b (owned_nodes_3d fc bd)
            <= sum_over b (owned_nodes_3d fc bd) + offset_3d fc bd b i j k
            < sum_over (b + 1) (owned_nodes_3d fc bd)).
  { intros b i j k Hown. pose proof (offset_3d_range fc bd Hconf b i j k Hown).
    destruct Hown as (Hb & _). rewrite sum_over_succ by (unfold valid_block in Hb; lia).
    lia. }
  split.
  - intros depth b i j k Hown. eexists.
    split; [by apply (global_idx_3d_owned fc bd rank nb_procs n)|].
    pose proof (Hrange b i j k Hown). destruct Hown as (Hb & _).
    unfold valid_block in Hb.
    destruct (first_node_3d fc bd rank nb_procs n Hmake Huint Hsmall b ltac:(lia))
      as [-> _].
    destruct (first_node_3d fc bd rank nb_procs n Hmake Huint Hsmall (b + 1) ltac:(lia))
      as [-> _].
    done.
  - intros depth depth' b i j k b' i' j' k' g Hown Hown' Hg Hg'.
    rewrite (global_idx_3d_owned fc bd rank nb_procs n) in Hg by done.
    rewrite (global_idx_3d_owned fc bd rank nb_procs n) in Hg' by done.
    injection Hg as Hg. injection Hg' as Hg'.
    pose proof (Hrange b i j k Hown) as R. pose proof (Hrange b' i' j' k' Hown') as R'.
    rewrite Hg in R. rewrite Hg' in R'.
    assert (b = b') as <-.
    { destruct Hown as (Hb & _), Hown' as (Hb' & _).
      eapply (sum_over_separates (owned_nodes_3d fc bd) b b' g); try done.
      - apply (own_nonneg_3d fc bd Huint).
      - unfold valid_block in Hb. lia.
      - unfold valid_block in Hb'. lia. }
    split; [done|]. apply (offset_3d_inj fc bd b); [done|done|done|lia].
Qed.

Lemma oracle3D_owned_one_to_one_witness :
  exists n g,
    NodeIndices3D.make (grid_connectivity 3) grid_3d 0 2 = Ok n
    /\ NodeIndices3D.global_idx 1 n 1 1 1 2 = Ok g
    /\ 18 <= g < 36.
Proof.
  assert (H : exists n, NodeIndices3D.make (grid_connectivity 3) grid_3d 0 2 = Ok n
                        /\ first_node (NodeIndices3D.block_first_nodes n) 1 = 18
                        /\ first_node (NodeIndices3D.block_first_nodes n) (1 + 1) = 36)
    by (vm_compute; eauto).
  assert (Huint : Forall (Forall is_Uint) (block_subdivisions grid_3d))
    by (repeat constructor; unfold Uint_modulus; lia).
  assert (Hown : owns_3d (grid_connectivity 3) grid_3d 1 1 1 2).
  { unfold owns_3d, valid_block. vm_compute. repeat split; congruence. }
  destruct H as (n & H & H1 & H2). exists n.
  destruct (oracle3D_owned_one_to_one _ _ _ _ _ H grid_3d_conforming Huint) as [Hrange _];
    [vm_compute; reflexivity|].
  destruct (Hrange 0%nat 1 1 1 2 Hown) as (g & Hg & Hb).
  exists g. split; [done|]. split; [done|]. rewrite H1, H2 in Hb. exact Hb.
Defined.

(** ** Edge grading *)

Lemma Rltb_true x y : (x < y)%R -> Rltb x y = true.
Proof. intros. unfold Rltb. by destruct (Rlt_dec x y). Qed.

Lemma Rltb_false x y : (y <= x)%R -> Rltb x y = false.
Proof. intros. unfold Rltb. destruct (Rlt_dec x y); [lra|done]. Qed.

Lemma Reqb_true x y : x = y -> Reqb x y = true.
Proof. intros. unfold Reqb. by destruct (Req_dec_T x y). Qed.

Lemma Reqb_false x y : x <> y -> Reqb x y = false.
Proof. intros. unfold Reqb. by destruct (Req_dec_T x y). Qed.

Lemma eps_small : (0 < 150 * Real_epsilon < 1)%R.
Proof.
  unfold Real_epsilon.
  assert (H : (2 ^ 52 = 4503599627370496)%R) by (simpl; lra).
  rewrite H. lra.
Qed.

Lemma Real_pow_0 a : Real_pow a (Fin 0) = Fin 1.
Proof. destruct a; simpl; by rewrite Reqb_true. Qed.

(** Without segments the single coordinate of an edge is -1 or not a number. *)
Lemma mapped_coord_no_segments g :
  mapped_coord 0 g 0 = Fin (-1) \/ mapped_coord 0 g 0 = NaN.
Proof.
  unfold mapped_coord.
  destruct (Real_gt (Real_fabs (g - Fin 1)) (Fin (/ 10 ^ 6))).
  - change (Real_of_Z (to_int 0)) with (Fin 0). rewrite Real_pow_0.
    destruct (Fin 1 - g * Real_pow g (Fin 1 / Real_of_Z (wrap (0 - 1))))%Real as [d| | |];
      simpl.
    + rewrite (Reqb_true (2 * (1 + - (1)))) by lra.
      destruct (Reqb d 0) eqn:E; [by right|left]. simpl.
      f_equal. unfold Reqb in E. destruct (Req_dec_T d 0); [done|]. field. done.
    + left. f_equal. lra.
    + left. f_equal. lra.
    + by right.
  - right. simpl. rewrite (Reqb_true 0 0), (Reqb_false 2 0) by lra.
    unfold inf_of_sign. rewrite Rltb_false by lra. done.
Qed.

Lemma edge_coords_no_segments g : edge_coords 0 g = FailedAssertion.
Proof.
  unfold edge_coords. change (wrap (0 + 1) =? 0) with false.
  change (indices (0 + 1)) with [0]. cbv iota. simpl for_each.
  pose proof eps_small as Heps.
  destruct (mapped_coord_no_segments g) as [-> | ->]; [|done].
  simpl. rewrite Rltb_true.
  2:{ rewrite Rabs_left by lra. lra. }
  simpl. rewrite (Rltb_true (Rabs (-1 + 1))).
  2:{ rewrite Rabs_right by lra. lra. }
  simpl. rewrite Rltb_false; [done|].
  rewrite Rabs_left by lra. lra.
Qed.

(** C7. The routine has no typed error for its arguments: it checks its
    result with assertions only.  Without segments every grading, of
    whatever value, fails the assertion on the end of the edge or the one on
    the range of the coordinates, so that a call with at least one edge
    throws [FailedAssertion]. *)
Theorem no_segments_fails_assertion (g : Real) (gradings : list Real) (nb_edges : Z) :
  0 < nb_edges ->
  create_mapped_coords 0 (g :: gradings) nb_edges = FailedAssertion.
Proof.
  intros Hedges. unfold create_mapped_coords, indices.
  rewrite seqZ_cons by done. simpl.
  by rewrite edge_coords_no_segments.
Qed.

Lemma no_segments_fails_assertion_witness :
  create_mapped_coords 0 [Fin 2; Fin 2] 2 = FailedAssertion.
Proof. apply no_segments_fails_assertion. lia. Defined.

(** Evaluation of the comparisons of the program on given numbers. *)
Ltac real_step :=
  match goal with
  | |- context [Rabs ?a] =>
      first [rewrite (Rabs_right a) by lra | rewrite (Rabs_left a) by lra]
  | |- context [Reqb ?a ?b] =>
      first [rewrite (Reqb_true a b) by lra | rewrite (Reqb_false a b) by lra]
  | |- context [Rltb ?a ?b] =>
      first [rewrite (Rltb_true a b) by lra | rewrite (Rltb_false a b) by lra]
  end.
Ltac real_eval := repeat (simpl; unfold inf_of_sign, pow_finite; real_step); simpl.

Lemma zero_grading_coords :
  mapped_coord 2 (Fin 0) 0 = Fin (-1)
  /\ mapped_coord 2 (Fin 0) 1 = Fin 1
  /\ mapped_coord 2 (Fin 0) 2 = Fin 1.
Proof.
  unfold mapped_coord.
  change (wrap (2 - 1)) with 1. change (to_int 0) with 0.
  change (to_int 1) with 1. change (to_int 2) with 2.
  unfold Real_of_Z, Real_gt.
  repeat split; real_eval; f_equal; field.
Qed.

Lemma zero_grading_counterexample :
  create_mapped_coords 2 [Fin 0] 1 = Ok [[Fin (-1); Fin 1; Fin 1]].
Proof.
  destruct zero_grading_coords as (H0 & H1 & H2).
  pose proof eps_small as Heps.
  unfold create_mapped_coords, edge_coords.
  change (indices 1) with [0]. change (indices (2 + 1)) with [0; 1; 2].
  change (wrap (2 + 1) =? 0) with false.
  simpl. rewrite H0, H1, H2.
  real_eval. done.
Qed.

Lemma Real_div_fin x y : y <> 0%R -> (Fin x / Fin y)%Real = Fin (x / y).
Proof. intros. simpl. by rewrite Reqb_false. Qed.

Lemma Rpower_one y : Rpower 1 y = 1%R.
Proof. unfold Rpower. by rewrite ln_1, Rmult_0_r, exp_0. Qed.

Lemma Real_pow_pos q y : (0 < q)%R -> Real_pow (Fin q) (Fin y) = Fin (Rpower q y).
Proof.
  intros Hq. unfold Real_pow.
  destruct (Req_dec_T y 0) as [->|Hy].
  - by rewrite Reqb_true, Rpower_O.
  - rewrite Reqb_false by done.
    destruct (Req_dec_T q 1) as [->|Hq1].
    + by rewrite Reqb_true, Rpower_one.
    + rewrite Reqb_false by done. unfold pow_finite. by rewrite Rltb_true.
Qed.

Lemma Rpower_neq_1 r y : (0 < r)%R -> r <> 1%R -> y <> 0%R -> Rpower r y <> 1%R.
Proof.
  intros Hr Hr1 Hy H. unfold Rpower in H. rewrite <- exp_0 in H.
  apply exp_inv in H. apply Rmult_integral in H as [H|H]; [done|].
  by apply (ln_neq_0 r).
Qed.

Lemma exp_le x y : (x <= y)%R -> (exp x <= exp y)%R.
Proof.
  intros [H| ->]; [|lra]. apply Rlt_le. by apply exp_increasing.
Qed.

Lemma fraction_bounds N D :
  (0 <= N <= D /\ 0 < D)%R \/ (D <= N <= 0 /\ D < 0)%R -> (0 <= N / D <= 1)%R.
Proof.
  assert (Hpos : forall N D, (0 <= N <= D)%R -> (0 < D)%R -> (0 <= N / D <= 1)%R).
  { clear. intros N D HN HD. pose proof (Rinv_0_lt_compat D HD) as Hinv. split.
    - apply Rmult_le_pos; lra.
    - replace 1%R with (D * / D)%R by (field; lra).
      apply Rmult_le_compat_r; lra. }
  intros [[HN HD]|[HN HD]]; [by apply Hpos|].
  replace (N / D)%R with (- N / - D)%R by (field; lra).
  apply Hpos; lra.
Qed.

(** The powers of the expansion ratio lie between 1 and the last one. *)
Lemma power_fraction q a b :
  (0 < q)%R -> q <> 1%R -> (0 <= a <= b)%R -> (0 < b)%R ->
  (0 <= (1 - Rpower q a) / (1 - Rpower q b) <= 1)%R.
Proof.
  intros Hq Hq1 Ha Hb. apply fraction_bounds. unfold Rpower.
  destruct (Rlt_le_dec q 1) as [Hlt|Hge].
  - assert (HL : (ln q < 0)%R) by (rewrite <- ln_1; by apply ln_increasing).
    left.
    assert (exp (b * ln q) <= exp (a * ln q))%R by (apply exp_le; nra).
    assert (exp (a * ln q) <= exp 0)%R by (apply exp_le; nra).
    assert (exp (b * ln q) < exp 0)%R by (apply exp_increasing; nra).
    rewrite exp_0 in *. lra.
  - assert (HL : (0 < ln q)%R) by (rewrite <- ln_1; apply ln_increasing; lra).
    right.
    assert (exp (a * ln q) <= exp (b * ln q))%R by (apply exp_le; nra).
    assert (exp 0 <= exp (a * ln q))%R by (apply exp_le; nra).
    assert (exp 0 < exp (b * ln q))%R by (apply exp_increasing; nra).
    rewrite exp_0 in *. lra.
Qed.

Section GradedEdge.

Variables (n : Z) (r : R).
Hypothesis Hn : 2 <= n < 2 ^ 31.
Hypothesis Hr : (0 < r)%R.
Hypothesis Hgraded : (/ 10 ^ 6 < Rabs (r - 1))%R.

Local Abbreviation q := (expansion_ratio n r).

Lemma grading_not_1 : r <> 1%R.
Proof.
  intros ->. replace (1 - 1)%R with 0%R in Hgraded by lra.
  rewrite Rabs_R0 in Hgraded. lra.
Qed.

Lemma segments_real : (1 <= IZR (n - 1))%R.
Proof. apply IZR_le. lia. Qed.

Lemma ratio_pos : (0 < q)%R.
Proof. apply exp_pos. Qed.

Lemma ratio_not_1 : q <> 1%R.
Proof.
  apply Rpower_neq_1; [done|apply grading_not_1|].
  pose proof segments_real. apply Rinv_neq_0_compat. lra.
Qed.

(** [q^(n-1) = r] and [q^n = r q]. *)
Lemma ratio_power_pred : Rpower q (IZR (n - 1)) = r.
Proof.
  pose proof segments_real. unfold expansion_ratio.
  rewrite Rpower_mult, Rinv_l, Rpower_1 by lra. done.
Qed.

Lemma ratio_power_last : Rpower q (IZR n) = (r * q)%R.
Proof.
  replace (IZR n) with (IZR (n - 1) + 1)%R by (rewrite minus_IZR; lra).
  rewrite Rpower_plus, ratio_power_pred, Rpower_1 by apply ratio_pos. done.
Qed.

Lemma denominator_not_0 : (1 - r * q)%R <> 0%R.
Proof.
  rewrite <- ratio_power_last. intros H.
  apply (Rpower_neq_1 q (IZR n)); [apply ratio_pos|apply ratio_not_1| |lra].
  apply not_0_IZR. lia.
Qed.

Lemma mapped_coord_graded i :
  0 <= i <= n -> mapped_coord n (Fin r) i = Fin (graded_coord n r i).
Proof.
  intros Hi. unfold mapped_coord, Real_gt.
  cbn [Real_lt Real_fabs Real_sub Real_add Real_opp].
  rewrite Rltb_true by (by replace (r + - (1))%R with (r - 1)%R by lra).
  pose proof segments_real as Hs. pose proof denominator_not_0 as Hd.
  assert (wrap (n - 1) = n - 1) as -> by (apply wrap_small; unfold is_Uint, Uint_modulus; lia).
  assert (to_int i = i) as ->.
  { unfold to_int. destruct (i <? 2 ^ 31) eqn:E; [done|]. lia. }
  unfold Real_of_Z. rewrite Real_div_fin by lra.
  rewrite Real_pow_pos by done.
  replace (1 / IZR (n - 1))%R with (/ IZR (n - 1))%R by (field; lra).
  fold (expansion_ratio n r).
  rewrite Real_pow_pos by apply ratio_pos.
  cbn [Real_mul Real_sub Real_add Real_opp].
  rewrite Real_div_fin by lra.
  cbn [Real_sub Real_add Real_opp]. f_equal. unfold graded_coord.
  rewrite powerRZ_Rpower by apply ratio_pos. field. lra.
Qed.

Lemma graded_coord_first : graded_coord n r 0 = (-1)%R.
Proof.
  pose proof denominator_not_0. unfold graded_coord. simpl. field. lra.
Qed.

Lemma graded_coord_last : graded_coord n r n = 1%R.
Proof.
  pose proof denominator_not_0. unfold graded_coord.
  rewrite powerRZ_Rpower, ratio_power_last by apply ratio_pos. field. lra.
Qed.

Lemma graded_coord_bounds i : 0 <= i <= n -> (-1 <= graded_coord n r i <= 1)%R.
Proof.
  intros Hi. unfold graded_coord.
  rewrite powerRZ_Rpower, <- ratio_power_last by apply ratio_pos.
  pose proof (power_fraction q (IZR i) (IZR n) ratio_pos ratio_not_1) as H.
  destruct H as [H0 H1].
  { split; apply IZR_le; lia. }
  { apply IZR_lt. lia. }
  replace (2 * (1 - Rpower q (IZR i)) / (1 - Rpower q (IZR n)) - 1)%R
    with (2 * ((1 - Rpower q (IZR i)) / (1 - Rpower q (IZR n))) - 1)%R; [lra|].
  field. rewrite ratio_power_last. apply denominator_not_0.
Qed.


End GradedEdge.

Lemma Ok_bind {A B} (a : A) (f : A -> Outcome B) : (Ok a ≫= f) = f a.
Proof. done. Qed.

Lemma for_each_Ok {A B} (f : A -> Outcome B) (g : A -> B) l :
  (forall a, a ∈ l -> f a = Ok (g a)) -> for_each f l = Ok (map g l).
Proof.
  induction l as [|a l IH]; intros H; simpl; [done|].
  rewrite H by left. simpl. rewrite IH; [done|].
  intros a' Ha'. apply H. by right.
Qed.

Lemma mapped_coord_uniform n r i :
  1 <= n -> (Rabs (r - 1) <= / 10 ^ 6)%R ->
  mapped_coord n (Fin r) i = Fin (uniform_coord n i).
Proof.
  intros Hn Hr. unfold mapped_coord, Real_gt.
  cbn [Real_lt Real_fabs Real_sub Real_add Real_opp].
  rewrite Rltb_false by (by replace (r + - (1))%R with (r - 1)%R by lra).
  assert (1 <= IZR n)%R by (by apply IZR_le).
  unfold Real_of_Z. rewrite Real_div_fin by lra.
  cbn [Real_mul Real_sub Real_add Real_opp]. f_equal.
  unfold uniform_coord. field. lra.
Qed.

Lemma uniform_coord_bounds n i : 0 <= i <= n -> 1 <= n -> (-1 <= uniform_coord n i <= 1)%R.
Proof.
  intros Hi Hn. unfold uniform_coord.
  assert (1 <= IZR n)%R by (by apply IZR_le).
  destruct (fraction_bounds (IZR i) (IZR n)) as [H0 H1].
  { left. repeat split; try lra; apply IZR_le; lia. }
  replace (2 * IZR i / IZR n)%R with (2 * (IZR i / IZR n))%R by (field; lra).
  lra.
Qed.

(** The column of an edge whose coordinates [x] lie between the ends -1
    and 1. *)
Lemma edge_coords_Ok n g (x : Z -> R) :
  1 <= n < 2 ^ 32 - 1 ->
  (forall i, 0 <= i <= n -> mapped_coord n g i = Fin (x i)) ->
  (forall i, 0 <= i <= n -> (-1 <= x i <= 1)%R) ->
  x 0 = (-1)%R -> x n = 1%R ->
  edge_coords n g = Ok (map (fun i => Fin (x i)) (indices (n + 1))).
Proof.
  intros Hn Hx Hbounds Hfirst Hlast. pose proof eps_small as Heps.
  unfold edge_coords.
  assert (wrap (n + 1) = n + 1) as ->
      by (apply wrap_small; unfold is_Uint, Uint_modulus; lia).
  destruct (n + 1 =? 0) eqn:E; [lia|clear E].
  rewrite (for_each_Ok _ (fun i => Fin (x i))).
  2:{ intros i Hi. apply elem_of_seqZ in Hi. rewrite Hx by lia.
      cbn [Real_lt Real_fabs Real_add eps].
      rewrite Rltb_true; [done|].
      pose proof (Hbounds i ltac:(lia)). unfold Rabs.
      destruct (Rcase_abs (x i)); lra. }
  rewrite Ok_bind. cbv beta.
  rewrite !at_indices_map by lia. rewrite Hfirst, Hlast.
  assert (Hstart : Real_lt (Real_fabs (Fin (-1) + Fin 1)) eps = true).
  { cbn [Real_lt Real_fabs Real_add eps]. apply Rltb_true.
    replace (-1 + 1)%R with 0%R by lra. rewrite Rabs_R0. lra. }
  assert (Hend : Real_lt (Real_fabs (Fin 1 - Fin 1)) eps = true).
  { cbn [Real_lt Real_fabs Real_sub Real_add Real_opp eps]. apply Rltb_true.
    replace (1 + - (1))%R with 0%R by lra. rewrite Rabs_R0. lra. }
  rewrite Ok_bind, Hstart. unfold cf3_assert. rewrite !Ok_bind, Hend.
  by rewrite Ok_bind.
Qed.





(** ** Mesh of the unit box *)





(** ** The node distribution of the mesh *)

Lemma at_outcome {A} (v : list A) i : (exists a, at_ v i = Ok a) \/ at_ v i = Undefined.
Proof.
  unfold at_. destruct (i <? 0); [by right|].
  destruct (v !! Z.to_nat i); [left; eauto|by right].
Qed.

Lemma at_length {A} (v : list A) : at_ v (Z.of_nat (length v)) = Undefined.
Proof.
  unfold at_. destruct (Z.ltb_spec (Z.of_nat (length v)) 0); [done|].
  rewrite Nat2Z.id. by rewrite (proj2 (lookup_ge_None v (length v))) by lia.
Qed.

Lemma push_nodes_dist_past_end bl bd procs : forall dist proc,
  proc ∈ procs -> 0 <= proc ->
  bd !! Z.to_nat (proc + 1) = Some (Z.of_nat (length bl)) ->
  BlockArrays.push_nodes_dist bl bd dist procs = Undefined.
Proof.
  induction procs as [|p procs IH]; intros dist proc Hin Hproc Hlast.
  - by apply elem_of_nil in Hin.
  - simpl.
    destruct (at_outcome dist (Z.of_nat (length dist) - 1)) as [[back E]|E];
      rewrite E; simpl; [|done].
    destruct (at_outcome bd (p + 1)) as [[hi E1]|E1]; rewrite E1; simpl; [|done].
    destruct (at_outcome bd p) as [[lo E2]|E2]; rewrite E2; simpl; [|done].
    destruct (at_outcome bl hi) as [[bhi E3]|E3]; rewrite E3; simpl; [|done].
    destruct (at_outcome bl lo) as [[blo E4]|E4]; rewrite E4; simpl; [|done].
    apply elem_of_cons in Hin as [->|Hin].
    + exfalso. rewrite (at_lookup bd (p + 1) _ ltac:(lia) Hlast) in E1.
      injection E1 as <-. by rewrite at_length in E3.
    + by apply (IH _ proc).
Qed.

Lemma nodes_distribution_past_end impl nb_procs rank distribution :
  0 <= rank < nb_procs -> nb_procs + 1 < Uint_modulus ->
  Z.of_nat (length distribution) = nb_procs + 1 ->
  distribution !! Z.to_nat nb_procs = Some (Z.of_nat (length (BlockArrays.block_list impl))) ->
  BlockArrays.create_nodes_distribution impl nb_procs rank distribution = Undefined.
Proof.
  intros Hrank Hsmall Hlen Hlast. unfold BlockArrays.create_nodes_distribution.
  rewrite (proj2 (Z.ltb_lt rank nb_procs)) by lia. simpl.
  rewrite wrap_small by (unfold is_Uint; lia).
  rewrite (proj2 (Z.eqb_eq _ _) Hlen). simpl.
  rewrite (push_nodes_dist_past_end _ _ _ _ (nb_procs - 1)); [done| |lia|].
  - apply elem_of_seqZ. lia.
  - by replace (nb_procs - 1 + 1) with nb_procs by lia.
Qed.

(** X1. [create_nodes_distribution] with a block distribution of the right
    size whose last entry is the number of blocks (the end of the last
    process, as [create_mesh] and the partitioner build it) reads
    [block_list] one past its last block: its behaviour is undefined,
    whatever the blocks are. *)
Theorem nodes_distribution_reads_past_blocks (impl : BlockArrays.Implementation)
    (nb_procs rank : Z) (distribution : list Z) :
  0 <= rank < nb_procs -> nb_procs + 1 < Uint_modulus ->
  Z.of_nat (length distribution) = nb_procs + 1 ->
  distribution !! Z.to_nat nb_procs = Some (Z.of_nat (length (BlockArrays.block_list impl))) ->
  BlockArrays.create_nodes_distribution impl nb_procs rank distribution = Undefined.
Proof. apply nodes_distribution_past_end. Qed.

Lemma fill_blocks_length fc dims subdivs idxs : forall start bs ps,
  BlockArrays.fill_blocks fc dims subdivs idxs start = Ok (bs, ps) ->
  length bs = length idxs.
Proof.
  induction idxs as [|b idxs IH]; intros start bs ps H; simpl in H.
  - by injection H as <- <-.
  - apply bind_Ok in H as (row & _ & H).
    apply bind_Ok in H as ([np blk] & _ & H).
    apply bind_Ok in H as (new & _ & H).
    apply bind_Ok in H as ([bs' ps'] & Hrest & H).
    injection H as <- <-. simpl. f_equal. by eapply IH.
Qed.

Lemma create_blocks_length impl impl1 :
  BlockArrays.create_blocks impl = Ok impl1 ->
  length (BlockArrays.block_list impl1) = length (BlockArrays.blocks impl)
  /\ BlockArrays.blocks impl1 = BlockArrays.blocks impl.
Proof.
  unfold BlockArrays.create_blocks. intros H.
  apply bind_Ok in H as ([bs ps] & Hfill & H). injection H as <-. simpl.
  apply fill_blocks_length in Hfill. rewrite Hfill.
  split; [|done]. rewrite indices_length by lia. lia.
Qed.

(** X2. [create_mesh] on a single process without a blocks distribution
    takes the distribution [0, nb_blocks], and so, once [create_blocks] has
    gone through, the node distribution it asks for reads [block_list] past
    its end: the generation of the mesh is undefined, whatever the
    topology. *)
Theorem create_mesh_undefined (impl impl1 : BlockArrays.Implementation) :
  BlockArrays.create_blocks impl = Ok impl1 ->
  BlockArrays.create_mesh impl 1 0 [] = Undefined.
Proof.
  intros Hblocks. unfold BlockArrays.create_mesh.
  rewrite Hblocks. simpl.
  destruct (create_blocks_length _ _ Hblocks) as [Hlen Heq].
  rewrite nodes_distribution_past_end; [done|lia|unfold Uint_modulus; lia|done|].
  simpl. by rewrite Heq, Hlen.
Qed.

Lemma create_mesh_undefined_witness :
  BlockArrays.create_mesh (unit_box no_connectivity) 1 0 [] = Undefined.
Proof.
  assert (H : exists i, BlockArrays.create_blocks (unit_box no_connectivity) = Ok i)
    by (vm_compute; eauto).
  destruct H as [impl1 H].
  apply (create_mesh_undefined _ impl1 H).
Defined.

Lemma nodes_distribution_reads_past_blocks_witness :
  BlockArrays.create_nodes_distribution sample_implementation 2 1 [0; 0; 0] = Undefined.
Proof.
  apply nodes_distribution_reads_past_blocks.
  - lia.
  - unfold Uint_modulus. lia.
  - reflexivity.
  - reflexivity.
Defined.

(** ** The partitioner on the graded strip *)

Lemma expansion_ratio_3_4 : expansion_ratio 3 4 = 2%R.
Proof.
  unfold expansion_ratio. change (IZR (3 - 1)) with 2%R.
  rewrite Rpower_sqrt by lra. replace 4%R with (2 * 2)%R by lra.
  apply sqrt_square. lra.
Qed.

Lemma graded_coords_3_4 :
  graded_coord 3 4 0 = (-1)%R /\ graded_coord 3 4 1 = (-5 / 7)%R
  /\ graded_coord 3 4 2 = (-1 / 7)%R /\ graded_coord 3 4 3 = 1%R.
Proof.
  unfold graded_coord. rewrite expansion_ratio_3_4. simpl. repeat split; lra.
Qed.

Lemma edge_coords_uniform n r :
  1 <= n < 2 ^ 32 - 1 -> (Rabs (r - 1) <= / 10 ^ 6)%R ->
  edge_coords n (Fin r) = Ok (map (fun i => Fin (uniform_coord n i)) (indices (n + 1))).
Proof.
  intros Hn Hr. assert (1 <= IZR n)%R by (apply IZR_le; lia).
  apply edge_coords_Ok; [done| | | |].
  - intros i _. apply mapped_coord_uniform; [lia|done].
  - intros i Hi. apply uniform_coord_bounds; lia.
  - unfold uniform_coord. field. lra.
  - unfold uniform_coord. field. lra.
Qed.

Lemma edge_coords_graded n r :
  2 <= n < 2 ^ 31 -> (0 < r)%R -> (/ 10 ^ 6 < Rabs (r - 1))%R ->
  edge_coords n (Fin r) = Ok (map (fun i => Fin (graded_coord n r i)) (indices (n + 1))).
Proof.
  intros Hn Hr Hfar. apply edge_coords_Ok; [lia| | | |].
  - intros i Hi. by apply mapped_coord_graded.
  - intros i Hi. by apply graded_coord_bounds.
  - by apply graded_coord_first.
  - by apply graded_coord_last.
Qed.

(** The mapped coordinates of the strip along its second axis. *)
Lemma strip_mapped_coords :
  create_mapped_coords 3 [Fin 1; Fin 4] 2
  = Ok [[Fin (-1); Fin (-1 / 3); Fin (1 / 3); Fin 1];
        [Fin (-1); Fin (-5 / 7); Fin (-1 / 7); Fin 1]].
Proof.
  destruct graded_coords_3_4 as (G0 & G1 & G2 & G3).
  unfold create_mapped_coords. change (indices 2) with [0; 1]. simpl.
  rewrite (edge_coords_uniform 3 1), (edge_coords_graded 3 4).
  - change (indices (3 + 1)) with [0; 1; 2; 3]. simpl.
    rewrite G0, G1, G2, G3. unfold uniform_coord.
    repeat f_equal; lra.
  - lia.
  - lra.
  - rewrite Rabs_right; lra.
  - lia.
  - replace (1 - 1)%R with 0%R by lra. rewrite Rabs_R0. lra.
Qed.

Ltac zeval_step :=
  match goal with
  | |- context [wrap ?z] =>
      let v := eval vm_compute in (wrap z) in change (wrap z) with v
  | |- context [ceil_ratio ?a ?b] =>
      let v := eval vm_compute in (ceil_ratio a b) in change (ceil_ratio a b) with v
  end.
Ltac zeval := repeat (simpl; zeval_step); simpl.

Local Abbreviation step2 :=
  (partition_step 2 DIM_2D start_direction_2d end_direction_2d transverse_directions_2d
     slice_of_block_2d grading_idx_2d
     single_block_connectivity graded_strip YY 2 3 2).

(** The partitioner on the strip, cut in two along its second axis: after
    the first partition, which cuts the block after two of its three slices,
    and after the second one, which takes the rest. *)
Lemma strip_first_partition :
  step2
    {| next_block_layer := [0];
       to_partition_subdivisions := [[1; 3]];
       to_partition_gradings := [[Fin 1; Fin 1; Fin 1; Fin 4]];
       nb_partitioned := 0;
       blocks_out := {| out_block_gradings := []; out_block_subdivisions := [];
                        out_nb_blocks := 0; out_block_distribution := [] |} |} 0
  = Ok {| next_block_layer := [0];
          to_partition_subdivisions := [[1; 1]];
          to_partition_gradings := [[Fin 1; Fin 1; Fin 1; Fin 1]];
          nb_partitioned := 2;
          blocks_out :=
            {| out_block_gradings := [[Fin 1; Fin 1; Fin 2; Fin 1]];
               out_block_subdivisions := [[1; 2]];
               out_nb_blocks := 1; out_block_distribution := [0] |} |}.
Proof.
  unfold partition_step, layer_slice_size, slices_of_partition. zeval.
  unfold cut_block. zeval.
  rewrite strip_mapped_coords. zeval.
  repeat real_step.
  repeat f_equal; field.
Qed.

Lemma strip_second_partition :
  step2
    {| next_block_layer := [0];
       to_partition_subdivisions := [[1; 1]];
       to_partition_gradings := [[Fin 1; Fin 1; Fin 1; Fin 1]];
       nb_partitioned := 2;
       blocks_out :=
         {| out_block_gradings := [[Fin 1; Fin 1; Fin 2; Fin 1]];
            out_block_subdivisions := [[1; 2]];
            out_nb_blocks := 1; out_block_distribution := [0] |} |} 1
  = Ok {| next_block_layer := [];
          to_partition_subdivisions := [[1; 1]];
          to_partition_gradings := [[Fin 1; Fin 1; Fin 1; Fin 1]];
          nb_partitioned := 3;
          blocks_out :=
            {| out_block_gradings := [[Fin 1; Fin 1; Fin 2; Fin 1];
                                      [Fin 1; Fin 1; Fin 1; Fin 1]];
               out_block_subdivisions := [[1; 2]; [1; 1]];
               out_nb_blocks := 2; out_block_distribution := [0; 1] |} |}.
Proof.
  unfold partition_step, layer_slice_size, slices_of_partition. zeval.
  unfold whole_block. zeval. reflexivity.
Qed.

Lemma strip_partition :
  partition_blocks single_block_connectivity graded_strip 2 YY
  = Ok {| out_block_gradings := [[Fin 1; Fin 1; Fin 2; Fin 1];
                                 [Fin 1; Fin 1; Fin 1; Fin 1]];
          out_block_subdivisions := [[1; 2]; [1; 1]];
          out_nb_blocks := 2; out_block_distribution := [0; 1; 2] |}.
Proof.
  unfold partition_blocks, partition_blocks_2d, partition_blocks_core.
  zeval.
  change (starting_layer _ _ _ _ _ _ _) with [0].
  change (Z.of_nat 0 + 0) with 0. change (Z.of_nat 1 + 0) with 1.
  change ((3 + 2 - 1) `div` 2) with 2.
  rewrite strip_first_partition, Ok_bind, strip_second_partition. reflexivity.
Qed.

(** C5. On the strip, cut along its second axis after two of its three
    slices, the partitioner gives the first edge along the axis, which is
    uniform, the grading 2 and the second edge, which has the grading 4,
    the grading 1: each edge gets the ratio computed from the mapped
    coordinates of the other edge, [(xi_2 - xi_1) / (xi_1 - xi_0)] being 1
    on the first and 2 on the second edge. *)
Theorem cut_gradings_swapped :
  (out ← partition_blocks single_block_connectivity graded_strip 2 YY;
   at_ (out_block_gradings out) 0) = Ok [Fin 1; Fin 1; Fin 2; Fin 1]
  /\ create_mapped_coords 3 [Fin 1; Fin 4] 2
     = Ok [[Fin (-1); Fin (-1 / 3); Fin (1 / 3); Fin 1];
           [Fin (-1); Fin (-5 / 7); Fin (-1 / 7); Fin 1]]
  /\ ((1 / 3 - -1 / 3) / (-1 / 3 - -1))%R = 1%R
  /\ ((-1 / 7 - -5 / 7) / (-5 / 7 - -1))%R = 2%R.
Proof.
  split; [|split; [|split]].
  - by rewrite strip_partition.
  - apply strip_mapped_coords.
  - field.
  - field.
Qed.

(** ** Counts of the partitioner *)


(** ** Products of subdivisions *)

Lemma product_insert (l : list Z) : forall d k,
  (d < length l)%nat ->
  foldr Z.mul 1 (<[d := k]> l) = k * foldr Z.mul 1 (<[d := 1]> l).
Proof.
  induction l as [|x l IH]; intros d k Hd; simpl in Hd; [lia|].
  destruct d as [|d]; simpl; [lia|].
  rewrite (IH d k) by lia. lia.
Qed.


Lemma nb_cells_insert dim d k row :
  0 <= d < dim -> (Z.to_nat dim <= length row)%nat ->
  nb_cells dim (<[Z.to_nat d := k]> row) = k * slice_cells dim d row.
Proof.
  intros Hd Hlen. unfold slice_cells, nb_cells.
  rewrite !take_insert_lt by lia.
  apply product_insert. rewrite length_take. lia.
Qed.

Lemma nb_cells_slices dim d n row :
  0 <= d < dim -> (Z.to_nat dim <= length row)%nat -> row !! Z.to_nat d = Some n ->
  nb_cells dim row = n * slice_cells dim d row.
Proof.
  intros Hd Hlen Hn. rewrite <- (nb_cells_insert dim d n row) by done.
  by rewrite list_insert_id.
Qed.




(** ** The loops of the partitioner *)

Section PartitionCounts.

Variables (nb_edges volume_dim patch_dim : Z).
Variables (start_direction end_direction : Z -> Z).
Variable transverse_directions : Z -> list Z.
Variable slice_of_block : Z -> list Z -> Outcome Z.
Variable grading_idx : Z -> Z -> Z.
Variable block_nb_elements : list Z -> Outcome Z.
Variable fc : FaceConnectivity.
Variable blocks_in : BlockData.
Variable direction : Z.

Hypothesis Hdims : patch_dim <> volume_dim.
Hypothesis Hdirection : 0 <= direction < volume_dim.
Hypothesis Helements : forall segments c, block_nb_elements segments = Ok c ->
  c = wrap (nb_cells volume_dim segments)
  /\ (Z.to_nat volume_dim <= length segments)%nat.
Hypothesis Hslice : forall segments s, slice_of_block direction segments = Ok s ->
  (Z.to_nat volume_dim <= length segments)%nat -> Forall is_Uint segments ->
  s = wrap (slice_cells volume_dim direction segments).

Local Abbreviation rows := (block_subdivisions blocks_in).
Local Abbreviation row0 b := (default [] (rows !! Z.to_nat b)).
Local Abbreviation slice b := (slice_cells volume_dim direction (row0 b)).
Local Abbreviation cut := (cut_block nb_edges end_direction grading_idx blocks_in direction).
Local Abbreviation whole := (whole_block volume_dim start_direction fc direction).
Local Abbreviation out_rows st := (out_block_subdivisions (blocks_out st)).
Local Abbreviation out_gradings st := (out_block_gradings (blocks_out st)).




Local Abbreviation cut_rows k layer :=
  (map (fun b => <[Z.to_nat direction := k]> (row0 b)) layer).




Local Abbreviation loop :=
  (slices_loop nb_edges volume_dim start_direction end_direction transverse_directions
               grading_idx fc blocks_in direction).
Local Abbreviation layer_slice layer := (foldr Z.add 0 (map (fun b => slice b) layer)).










Local Abbreviation step :=
  (partition_step nb_edges volume_dim start_direction end_direction transverse_directions
                  slice_of_block grading_idx fc blocks_in direction).
Local Abbreviation inv layer nb_partitions global partition_size :=
  (partition_inv volume_dim rows direction layer nb_partitions global partition_size).



Local Abbreviation core :=
  (partition_blocks_core nb_edges volume_dim patch_dim start_direction end_direction
     transverse_directions slice_of_block grading_idx block_nb_elements
     fc blocks_in direction).
Local Abbreviation start_layer :=
  (starting_layer volume_dim patch_dim start_direction transverse_directions fc direction
                  (Z.of_nat (length (block_points blocks_in)))).





End PartitionCounts.

(** ** The two partitioners *)







